(** * arguments.h: a declarative command line argument framework

    A shallow embedding of [arguments.h] (token matcher, value materializer,
    release pass, [main]) and of [arguments-help.h] (the line-wrap primitive
    [arguments_get_line] and the help printer that the matcher calls),
    followed by the properties proved about them. *)

From Stdlib Require Import ZArith Ascii String Lia.
From stdpp Require Import base tactics option list.

Local Open Scope Z_scope.

(** ** C strings

    A [const char *] is modelled by the [string] of the bytes in front of
    the terminating NUL.  Reading through the pointer gives the code of the
    first byte, or 0 at the terminator. *)

(** The code of a byte, taken as [unsigned char]; the functions below
    only compare codes with each other and with 0. *)
Definition char_code (c : ascii) : Z := Z.of_N (N_of_ascii c).

(** A well-formed C string holds no NUL byte. *)
Fixpoint cstring (s : string) : Prop :=
  match s with
  | EmptyString => True
  | String c r => char_code c <> 0 /\ cstring r
  end.

(** [*p] *)
Definition deref (p : string) : Z :=
  match p with
  | EmptyString => 0
  | String c _ => char_code c
  end.

(** [p + 1] *)
Definition advance (p : string) : string :=
  match p with
  | EmptyString => EmptyString
  | String _ r => r
  end.

(** C truth value of an [int]. *)
Definition truthy (z : Z) : bool := negb (z =? 0).

Definition b2z (b : bool) : Z := if b then 1 else 0.

(** [strcmp]: the difference of the first pair of bytes that differ. *)
Fixpoint strcmp (a b : string) : Z :=
  match a, b with
  | String x a', String y b' =>
      if char_code x =? char_code y then strcmp a' b' else char_code x - char_code y
  | _, _ => deref a - deref b
  end.

(** ** arguments_cmp *)

Definition dash_code : Z := 45.       (* '-' *)
Definition underscore_code : Z := 95. (* '_' *)

(** The [while] loop of [arguments_cmp]; it returns both pointers as they
    are when the loop is left. *)
Fixpoint arguments_cmp_loop (longarg name : string) : string * string :=
  match longarg, name with
  | String _ longarg', String _ name' =>
      if truthy (deref longarg) && truthy (deref name) then
        if negb (deref longarg =?
                 (if deref name =? underscore_code then dash_code else deref name))
        then (longarg, name)
        else arguments_cmp_loop longarg' name'
      else (longarg, name)
  | _, _ => (longarg, name)
  end.

(** The [return] expression is a conditional whose condition is the
    difference of [*longarg] and the truth value of [*name == '_']: it
    yields the dash when that difference is non-zero and [*name]
    otherwise. *)
Definition arguments_cmp (longarg name : string) : Z :=
  if negb (deref longarg =? dash_code) then -1
  else
    let longarg := advance longarg in
    if negb (deref longarg =? dash_code) then -1
    else
      let longarg := advance longarg in
      let '(longarg, name) := arguments_cmp_loop longarg name in
      if truthy (deref longarg - b2z (deref name =? underscore_code))
      then dash_code
      else deref name.

(** The long form of a name: two dashes, then the name with every
    underscore turned into a dash. *)
Fixpoint dashed (name : string) : string :=
  match name with
  | EmptyString => EmptyString
  | String c r =>
      String (if char_code c =? underscore_code then "-"%char else c) (dashed r)
  end.

Definition long_form (name : string) : string :=
  String "-" (String "-" (dashed name)).

(** ** Machine integers

    [int] and [unsigned int] are 32 bits wide.  A value is kept as a [Z]
    and brought back into range where the C code stores it. *)

Definition INT_MAX : Z := 2147483647.
Definition UINT_MODULUS : Z := 4294967296.

(** Conversion to [unsigned int]. *)
Definition to_uint (z : Z) : Z := z mod UINT_MODULUS.

(** Conversion to [int] (two's complement). *)
Definition to_int (z : Z) : Z :=
  let u := z mod UINT_MODULUS in
  if u <=? INT_MAX then u else u - UINT_MODULUS.

(** ** Return values and exit codes

    The enumerators of the header and the values it gives to the two exit
    codes unless the including program defines them. *)

Definition AC_OK : Z := 0.
Definition AC_ERROR : Z := 1.
Definition AC_HELP : Z := 2.

Definition ARGUMENTS_PARAMETER_INVALID : Z := 110.
Definition ARGUMENTS_PARAMETER_MISSING : Z := 120.

(** ** arguments-help.h

    A text is the list of its bytes in front of the terminating NUL. *)

(** What [mbrlen] returns: 0, [(size_t)-1], [(size_t)-2], or the number of
    bytes of the next character. *)
Inductive mbrlen_result : Type :=
  | Mb_zero
  | Mb_invalid
  | Mb_incomplete
  | Mb_length (n : nat).

(** [isspace] in the locale the program starts in. *)
Definition isspace (c : ascii) : bool :=
  ((9 <=? char_code c) && (char_code c <=? 13)) || (char_code c =? 32).

Definition newline_code : Z := 10.
Definition space_code : Z := 32.

Section Help.

Local Open Scope nat_scope.

(** [mbrlen] belongs to the C library.  It is given the bytes at
    [s + i], the count [end - i] and the conversion state, and returns
    its result with the new state; [mbs_initial] is the state that the
    function sets up before the loop. *)
Variable mbstate_t : Type.
Variable mbs_initial : mbstate_t.
Variable mbrlen : list ascii -> nat -> mbstate_t -> mbrlen_result * mbstate_t.

(** [s[i]], which is the terminating NUL at [i = strlen(s)]. *)
Definition byte_at (s : list ascii) (i : nat) : ascii :=
  default zero (s !! i).

(** The [for] loop of [arguments_get_line].  Every turn that does not
    leave the loop adds one to [l], so [max_length] turns are enough;
    the counters never exceed [strlen(s)] and are kept as [nat]. *)
Fixpoint arguments_get_line_loop (fuel : nat) (s : list ascii)
    (end_ max_length : nat) (mbs : mbstate_t) (length : nat)
    (was_space seen_space : bool) (l i result : nat) : nat * nat :=
  match fuel with
  | O => (length, result)
  | S fuel' =>
      if (i <? end_) && (l <? max_length) then
        if (char_code (byte_at s i) =? newline_code)%Z then (l, i + 1)
        else
          let '(length, result) :=
            if negb seen_space then (l, i) else (length, result) in
          let l := l + 1 in
          let is_space := isspace (byte_at s i) in
          let seen_space := seen_space || is_space in
          let '(length, result) :=
            if is_space && negb was_space then (l - 1, result)
            else if negb is_space && was_space then (length, i)
            else (length, result) in
          let was_space := is_space in
          let '(di, mbs) := mbrlen (drop i s) (end_ - i) mbs in
          let i :=
            match di with
            | Mb_zero => i
            | Mb_invalid => i + 1
            | Mb_incomplete => i + 1
            | Mb_length n => i + n
            end in
          let '(length, result) :=
            if i =? end_ then (l, i) else (length, result) in
          arguments_get_line_loop fuel' s end_ max_length mbs length
            was_space seen_space l i result
      else (length, result)
  end.

(** The closing [while] loop, which steps over plain spaces. *)
Fixpoint skip_spaces (fuel : nat) (s : list ascii) (end_ result : nat)
  : nat :=
  match fuel with
  | O => result
  | S fuel' =>
      if (result <? end_) && (char_code (byte_at s result) =? space_code)%Z
      then skip_spaces fuel' s end_ (result + 1)
      else result
  end.

(** The pair is the returned offset of the next line and [*length]. *)
Definition arguments_get_line (s : list ascii) (max_length : nat)
  : nat * nat :=
  let end_ := length s in
  let '(length, result) :=
    arguments_get_line_loop max_length s end_ max_length mbs_initial
      0 false false 0 0 0 in
  let result := if result <? length then length else result in
  let result := skip_spaces (end_ - result) s end_ result in
  (result, length).

(** The [while] loop of [arguments_print_help_string], keeping the
    pieces it prints with [printf]: each turn asks
    [arguments_get_line] for a line at [c], prints [length] bytes and
    moves [c] on by the returned offset.  [None]: the fuel ran out. *)
Fixpoint wrapped_lines (fuel : nat) (c : list ascii) (max_length : nat)
  : option (list (list ascii)) :=
  match fuel with
  | O => None
  | S fuel' =>
      match c with
      | [] => Some []
      | _ :: _ =>
          let '(n, length) := arguments_get_line c max_length in
          match wrapped_lines fuel' (drop n c) max_length with
          | Some ls => Some (take length c :: ls)
          | None => None
          end
      end
  end.

End Help.

Arguments byte_at : clear implicits.
Arguments arguments_get_line_loop {mbstate_t}.
Arguments arguments_get_line {mbstate_t}.
Arguments wrapped_lines {mbstate_t}.

(** The third argument that [arguments_print_help_string] passes to
    [arguments_get_line], computed in [unsigned int]; without a header the
    function sets [header_width] to 0. *)
Definition help_max_length (has_header : bool)
    (header_width terminal_width : Z) : Z :=
  to_uint (terminal_width - (if has_header then header_width else 0)
           + (if has_header then 0 else 1)).

(** [arguments_terminal_width].  [COLUMNS] is what [getenv] returns;
    [atoi] belongs to the C library and yields an [int].  The local
    [result] is an [int], the function returns [unsigned int]. *)
Definition arguments_terminal_width (atoi : string -> Z)
    (COLUMNS : option string) : Z :=
  let result :=
    match COLUMNS with
    | Some columns => atoi columns
    | None => 80
    end in
  let result := if negb (truthy result) then to_int (to_uint (-1)) else result in
  to_uint result.

(** The first [n] bytes of a string. *)
Fixpoint string_take (n : nat) (s : string) : string :=
  match n, s with
  | S n', String c r => String c (string_take n' r)
  | _, _ => EmptyString
  end.

(** ** The argument table

    [arguments.def] is supplied by the program that includes the header:
    every [_A(...)] line of it is one [descriptor], and the [arguments]
    struct has one [arg_record] per line, in the same order. *)

(** What the program does that can be observed from outside, in the order
    in which it happens. *)
Inductive event : Type :=
  | EvPrintHelp
  | EvSetup
  | EvTeardown
  | EvRun
  | EvRead (i : nat)
  | EvDefault (i : nat)
  | EvRelease (i : nat).

(** The functions handed to [atexit]. *)
Inductive handler : Type :=
  | H_teardown
  | H_arguments_release.

Section Model.

(** [V] stands for the types of the argument values, [W] for the state
    of the program outside the [arguments] struct (open files, heap). *)
Variables V W : Type.

Record arg_record : Type := ArgRecord {
  present : Z;
  initialized : Z;
  (** [NULL], or a pointer into [argv]: the tokens from there on *)
  value_strings : option (list string);
  value_strings_length : Z;
  value : V
}.

(** The statements of [read] and [set_default] are run with
    [value_strings], [value_strings_length], [*target] and [is_valid] in
    scope; they may assign [*target] and [is_valid]. *)
Definition block : Type :=
  option (list string) -> Z -> V -> Z -> W -> V * Z * W.

Record descriptor : Type := Descriptor {
  name : string;
  short : option string;
  value_count : Z;
  (** an expression over the [arguments] struct *)
  is_required : list arg_record -> Z;
  help : string;
  set_default : block;
  read : block;
  release : V -> W -> V * W
}.

Record state : Type := State {
  arguments : list arg_record;
  world : W;
  (** most recently registered first *)
  atexit_handlers : list handler;
  trace : list event
}.

(** The process image: the including program with its table, and what
    the help printer takes from the program, from the environment and
    from the C library.  The help printer expands the [ARGUMENT(...)]
    lines of [../arguments.def]; a line is kept as a [descriptor], of
    which the printer uses the name, the short name and the help
    text. *)
Record program : Type := Program {
  ARGUMENTS_PRINT_HELP : Z;
  schema : list descriptor;
  setup : list string -> W -> Z * W;
  run : list string -> list V -> W -> Z * W;
  teardown : W -> W;
  (** the all-zero bit pattern of a value *)
  zero_value : V;
  (** the macro of that name, where it is defined *)
  ARGUMENTS_HELP : option string;
  (** the lines that the help printer expands *)
  help_table : list descriptor;
  (** what [getenv] returns for [COLUMNS] *)
  COLUMNS : option string;
  atoi : string -> Z;
  mbstate_t : Type;
  mbs_initial : mbstate_t;
  mbrlen : list ascii -> nat -> mbstate_t -> mbrlen_result * mbstate_t
}.

Definition zero_record (p : program) : arg_record :=
  ArgRecord 0 0 None 0 (zero_value p).

Definition set_present (z : Z) (r : arg_record) : arg_record :=
  ArgRecord z (initialized r) (value_strings r) (value_strings_length r) (value r).
Definition set_initialized (z : Z) (r : arg_record) : arg_record :=
  ArgRecord (present r) z (value_strings r) (value_strings_length r) (value r).
Definition set_value_strings (vs : option (list string)) (r : arg_record)
  : arg_record :=
  ArgRecord (present r) (initialized r) vs (value_strings_length r) (value r).
Definition set_value_strings_length (z : Z) (r : arg_record) : arg_record :=
  ArgRecord (present r) (initialized r) (value_strings r) z (value r).
Definition set_value (v : V) (r : arg_record) : arg_record :=
  ArgRecord (present r) (initialized r) (value_strings r)
            (value_strings_length r) v.

Definition with_arguments (rs : list arg_record) (st : state) : state :=
  State rs (world st) (atexit_handlers st) (trace st).
Definition with_world (w : W) (st : state) : state :=
  State (arguments st) w (atexit_handlers st) (trace st).
Definition log (e : event) (st : state) : state :=
  State (arguments st) (world st) (atexit_handlers st) (trace st ++ [e]).
Definition atexit (h : handler) (st : state) : state :=
  State (arguments st) (world st) (h :: atexit_handlers st) (trace st).

(** [arguments.name] for the [i]-th line of the table. *)
Definition record_at (p : program) (st : state) (i : nat) : arg_record :=
  default (zero_record p) (arguments st !! i).

Definition update_record (i : nat) (f : arg_record -> arg_record)
    (st : state) : state :=
  with_arguments (alter f i (arguments st)) st.

(** [memset(&arguments, 0, sizeof(arguments))] *)
Definition arguments_initialize (p : program) (st : state) : state :=
  with_arguments (replicate (length (schema p)) (zero_record p)) st.

(** *** arguments-help.h: the help printer *)

(** The statements that [argument_header_width] runs for one line of the
    table; [current] and [result] are [unsigned int]. *)
Definition header_width_of (d : descriptor) : Z :=
  let current := to_uint (2 + Z.of_nat (String.length (name d))) in
  match short d with
  | Some a => to_uint (current + (2 + Z.of_nat (String.length a)))
  | None => current
  end.

Fixpoint argument_header_width_from (ds : list descriptor)
    (result : Z) : Z :=
  match ds with
  | [] => result
  | d :: ds' =>
      let current := header_width_of d in
      argument_header_width_from ds'
        (if result <? current then current else result)
  end.

Definition argument_header_width (p : program) : Z :=
  argument_header_width_from (help_table p) 0.

(** The header that [arguments_print_help] builds for one line of the
    table: [snprintf] into a buffer of 128 bytes, which keeps 127 of them,
    then every underscore of the buffer is turned into a dash. *)
Definition help_header (d : descriptor) : string :=
  dashed
    (string_take 127
       (match short d with
        | Some a => "--" ++ name d ++ ", " ++ a
        | None => "--" ++ name d
        end)%string).

(** [arguments_print_help_string].  The [while] loop is [wrapped_lines];
    the [for] loop that prints the empty header column in front of every
    line but the first counts in [unsigned int] up to [header_width]
    inclusive, and does not end when [header_width] is the greatest
    [unsigned int].  The result is the lines printed; [None]: the call
    does not return. *)
Definition arguments_print_help_string (p : program) (fuel : nat)
    (header : option string) (help : string)
    (header_width terminal_width : Z) : option (list (list ascii)) :=
  let has_header := match header with Some _ => true | None => false end in
  let max_length :=
    Z.to_nat (help_max_length has_header header_width terminal_width) in
  match
    wrapped_lines (mbs_initial p) (mbrlen p) fuel
      (list_ascii_of_string help) max_length
  with
  | Some lines =>
      if has_header && (1 <? length lines)%nat
         && (header_width =? UINT_MODULUS - 1)
      then None
      else Some lines
  | None => None
  end.

(** The calls of [arguments_print_help_string] that the lines of the
    table expand to, one after the other. *)
Fixpoint print_help_rows (p : program) (fuel : nat)
    (ds : list descriptor) (header_width terminal_width : Z)
  : option (list (string * list (list ascii))) :=
  match ds with
  | [] => Some []
  | d :: ds' =>
      match
        arguments_print_help_string p fuel (Some (help_header d)) (help d)
          header_width terminal_width
      with
      | Some lines =>
          match print_help_rows p fuel ds' header_width terminal_width with
          | Some rows => Some ((help_header d, lines) :: rows)
          | None => None
          end
      | None => None
      end
  end.

(** [arguments_print_help]: the lines of the help header, if there is
    one, and the header and the lines of every line of the table.  The
    local [header_width] is an [int], the parameter it is passed for is
    an [unsigned int]. *)
Definition arguments_print_help (p : program) (fuel : nat)
  : option (list (list ascii) * list (string * list (list ascii))) :=
  let terminal_width := arguments_terminal_width (atoi p) (COLUMNS p) in
  let header_width := to_int (argument_header_width p) in
  match
    match ARGUMENTS_HELP p with
    | Some help =>
        arguments_print_help_string p fuel None help 0 terminal_width
    | None => Some []
    end
  with
  | Some top =>
      match
        print_help_rows p fuel (help_table p) (to_uint header_width)
          terminal_width
      with
      | Some rows => Some (top, rows)
      | None => None
      end
  | None => None
  end.

(** *** arguments_release *)

Definition release_one (p : program) (i : nat) (d : descriptor)
    (st : state) : state :=
  if truthy (initialized (record_at p st i)) then
    let '(v, w) := release d (value (record_at p st i)) (world st) in
    log (EvRelease i) (with_world w (update_record i (set_value v) st))
  else st.

Fixpoint release_from (p : program) (i : nat) (ds : list descriptor)
    (st : state) : state :=
  match ds with
  | [] => st
  | d :: ds' => release_from p (S i) ds' (release_one p i d st)
  end.

Definition arguments_release (p : program) (st : state) : state :=
  release_from p 0 (schema p) st.

(** *** arguments_read *)

(** The condition of one [else if] of the chain. *)
Definition matches (tok : string) (d : descriptor) : bool :=
  (arguments_cmp tok (name d) =? 0)
  || match short d with
     | Some s => strcmp tok s =? 0
     | None => false
     end.

(** The first line of the table whose condition holds. *)
Definition select (ds : list descriptor) (tok : string)
  : option (nat * descriptor) :=
  list_find (fun d => matches tok d = true) ds.

Definition is_help_token (tok : string) : bool :=
  (strcmp tok "--help" =? 0) || (strcmp tok "-h" =? 0).

(** How one turn of the [while] loop ends: with the call of
    [arguments_print_help] and, once that has returned, with the return
    of [AC_HELP]; with a [break]; or at the end of the body. *)
Inductive turn : Type :=
  | Print_help (st : state)
  | Break (is_valid : Z) (st : state)
  | Next (nextarg : Z) (st : state).

(** [argv[n]] *)
Definition token_at (argv : list string) (n : Z) : string :=
  default EmptyString (argv !! Z.to_nat n).

(** The statements of the [else if] branch of line [i] of the table.
    [argc] is the number of elements of [argv]; [len] is
    [arguments.name.value_strings_length] as just stored; the sum with
    [*nextarg] is computed in [unsigned int]. *)
Definition matched_branch (argv : list string) (nextarg : Z) (i : nat)
    (d : descriptor) (st : state) : turn :=
  let argc := Z.of_nat (length argv) in
  let len := to_uint (value_count d) in
  let st := update_record i (set_present 1) st in
  let st := update_record i (set_value_strings_length len) st in
  if to_uint (nextarg + len) <? to_uint argc then
    let nextarg := nextarg + 1 in
    let st :=
      update_record i
        (set_value_strings (Some (drop (Z.to_nat nextarg) argv))) st in
    let nextarg := to_int (to_uint nextarg + len) in
    Next nextarg st
  else Break 0 st.

(** The body of the [while] loop, entered with [*nextarg < argc]. *)
Definition arguments_read_body (p : program) (argv : list string)
    (nextarg : Z) (st : state) : turn :=
  let tok := token_at argv nextarg in
  if truthy (ARGUMENTS_PRINT_HELP p) && is_help_token tok then
    Print_help st
  else
    match select (schema p) tok with
    | Some (i, d) => matched_branch argv nextarg i d st
    | None => Break 1 st
    end.

(** The [while] loop.  [is_valid] is cleared only in front of a [break],
    so the loop is left by its condition on [*nextarg], by [return] or by
    [break].  A turn can leave [*nextarg] where it was (see [to_uint]),
    and the call of [arguments_print_help] need not return, so the loop
    is run on fuel, which the help printer is given as well; [None]
    means that the fuel ran out. *)
Fixpoint arguments_read_loop (p : program) (fuel : nat)
    (argv : list string) (nextarg : Z) (st : state)
  : option (Z * Z * state) :=
  match fuel with
  | O => None
  | S fuel' =>
      if nextarg <? Z.of_nat (length argv) then
        match arguments_read_body p argv nextarg st with
        | Print_help st' =>
            match arguments_print_help p fuel with
            | Some _ => Some (AC_HELP, nextarg, log EvPrintHelp st')
            | None => None
            end
        | Break is_valid st' =>
            Some (if truthy is_valid then AC_OK else AC_ERROR, nextarg, st')
        | Next nextarg' st' => arguments_read_loop p fuel' argv nextarg' st'
        end
      else Some (AC_OK, nextarg, st)
  end.

(** The result is the status, the final [*nextarg] and the state. *)
Definition arguments_read (p : program) (fuel : nat) (argv : list string)
    (nextarg : Z) (st : state) : option (Z * Z * state) :=
  let nextarg := if nextarg <? 1 then 1 else nextarg in
  arguments_read_loop p fuel argv nextarg st.

(** [reaches p argv j st j' st']: the loop, standing at token [j] in
    state [st], gets to stand at token [j'] in state [st'] after some
    turns, each of which matched a line of the table and took its
    values. *)
Inductive reaches (p : program) (argv : list string)
  : Z -> state -> Z -> state -> Prop :=
  | reaches_here j st : reaches p argv j st j st
  | reaches_turn j st j1 st1 j2 st2 :
      j < Z.of_nat (length argv) ->
      arguments_read_body p argv j st = Next j1 st1 ->
      reaches p argv j1 st1 j2 st2 ->
      reaches p argv j st j2 st2.

(** *** arguments_set *)

(** One expansion of the macro inside [arguments_set]. *)
Definition set_one (p : program) (i : nat) (d : descriptor)
    (is_valid : Z) (st : state) : Z * state :=
  if truthy is_valid then
    let r := record_at p st i in
    let '(v, is_valid, w) :=
      (if truthy (present r) then read d else set_default d)
        (value_strings r) (value_strings_length r) (value r) is_valid
        (world st) in
    let st :=
      log (if truthy (present r) then EvRead i else EvDefault i)
          (with_world w (update_record i (set_value v) st)) in
    let st :=
      if truthy is_valid then update_record i (set_initialized 1) st
      else st in
    (is_valid, st)
  else (is_valid, st).

Fixpoint set_from (p : program) (i : nat) (ds : list descriptor)
    (is_valid : Z) (st : state) : Z * state :=
  match ds with
  | [] => (is_valid, st)
  | d :: ds' =>
      let '(is_valid, st) := set_one p i d is_valid st in
      set_from p (S i) ds' is_valid st
  end.

Definition arguments_set (p : program) (st : state) : Z * state :=
  let '(is_valid, st) := set_from p 0 (schema p) 1 st in
  let st := atexit H_arguments_release st in
  (if truthy is_valid then AC_OK else AC_ERROR, st).

(** *** main *)

(** Where [main] returns. *)
Inductive outcome : Type :=
  | Exit_help
  | Exit_read_error
  | Exit_missing (i : nat)
  | Exit_setup (result : Z)
  | Exit_set_error
  | Exit_run (result : Z).

Definition exit_code (o : outcome) : Z :=
  match o with
  | Exit_help => 0
  | Exit_read_error => ARGUMENTS_PARAMETER_INVALID
  | Exit_missing _ => ARGUMENTS_PARAMETER_MISSING
  | Exit_setup result => result
  | Exit_set_error => ARGUMENTS_PARAMETER_INVALID
  | Exit_run result => result
  end.

(** The first line of the table, from line [i] on, whose [is_required]
    holds while [present] is zero. *)
Fixpoint missing_from (p : program) (i : nat) (ds : list descriptor)
    (st : state) : option nat :=
  match ds with
  | [] => None
  | d :: ds' =>
      if truthy (is_required d (arguments st))
         && negb (truthy (present (record_at p st i)))
      then Some i
      else missing_from p (S i) ds' st
  end.

Definition main (p : program) (fuel : nat) (argv : list string)
    (st : state) : option (outcome * state) :=
  let st := arguments_initialize p st in
  match arguments_read p fuel argv 1 st with
  | None => None
  | Some (status, nextarg, st) =>
      if status =? AC_HELP then Some (Exit_help, st)
      else if status =? AC_ERROR then Some (Exit_read_error, st)
      else
        match missing_from p 0 (schema p) st with
        | Some i => Some (Exit_missing i, st)
        | None =>
            let '(result, w) := setup p argv (world st) in
            let st := log EvSetup (with_world w st) in
            if negb (result =? 0) then Some (Exit_setup result, st)
            else
              let st := atexit H_teardown st in
              let '(status, st) := arguments_set p st in
              if status =? AC_OK then
                let '(result, w) :=
                  run p argv (map value (arguments st)) (world st) in
                Some (Exit_run result, log EvRun (with_world w st))
              else Some (Exit_set_error, st)
        end
  end.

(** What [exit] does with the registered functions: the most recently
    registered one runs first. *)
Definition run_handler (p : program) (h : handler) (st : state) : state :=
  match h with
  | H_teardown => log EvTeardown (with_world (teardown p (world st)) st)
  | H_arguments_release => arguments_release p st
  end.

Definition run_atexit (p : program) (st : state) : state :=
  fold_left (fun st h => run_handler p h st) (atexit_handlers st) st.

(** A whole run of the process: [main] on a fresh process image, then
    the functions registered with [atexit]. *)
Definition process (p : program) (fuel : nat) (argv : list string)
    (w : W) : option (outcome * state) :=
  match main p fuel argv (State [] w [] []) with
  | None => None
  | Some (o, st) => Some (o, run_atexit p st)
  end.

End Model.

Arguments ArgRecord {V}.
Arguments present {V}.
Arguments initialized {V}.
Arguments value_strings {V}.
Arguments value_strings_length {V}.
Arguments value {V}.
Arguments Descriptor {V W}.
Arguments name {V W}.
Arguments short {V W}.
Arguments value_count {V W}.
Arguments is_required {V W}.
Arguments help {V W}.
Arguments set_default {V W}.
Arguments read {V W}.
Arguments release {V W}.
Arguments State {V W}.
Arguments arguments {V W}.
Arguments world {V W}.
Arguments atexit_handlers {V W}.
Arguments trace {V W}.
Arguments Program {V W}.
Arguments ARGUMENTS_PRINT_HELP {V W}.
Arguments schema {V W}.
Arguments setup {V W}.
Arguments run {V W}.
Arguments teardown {V W}.
Arguments zero_value {V W}.
Arguments ARGUMENTS_HELP {V W}.
Arguments help_table {V W}.
Arguments COLUMNS {V W}.
Arguments atoi {V W}.
Arguments mbstate_t {V W}.
Arguments mbs_initial {V W}.
Arguments mbrlen {V W}.
Arguments zero_record {V W}.
Arguments set_present {V}.
Arguments set_initialized {V}.
Arguments set_value_strings {V}.
Arguments set_value_strings_length {V}.
Arguments set_value {V}.
Arguments with_arguments {V W}.
Arguments with_world {V W}.
Arguments log {V W}.
Arguments atexit {V W}.
Arguments record_at {V W}.
Arguments update_record {V W}.
Arguments arguments_initialize {V W}.
Arguments release_one {V W}.
Arguments release_from {V W}.
Arguments arguments_release {V W}.
Arguments header_width_of {V W}.
Arguments argument_header_width_from {V W}.
Arguments argument_header_width {V W}.
Arguments help_header {V W}.
Arguments arguments_print_help_string {V W}.
Arguments print_help_rows {V W}.
Arguments arguments_print_help {V W}.
Arguments matches {V W}.
Arguments select {V W}.
Arguments Print_help {V W}.
Arguments Break {V W}.
Arguments Next {V W}.
Arguments matched_branch {V W}.
Arguments arguments_read_body {V W}.
Arguments reaches {V W}.
Arguments arguments_read_loop {V W}.
Arguments arguments_read {V W}.
Arguments set_one {V W}.
Arguments set_from {V W}.
Arguments arguments_set {V W}.
Arguments missing_from {V W}.
Arguments main {V W}.
Arguments run_handler {V W}.
Arguments run_atexit {V W}.
Arguments process {V W}.

(** [mbrlen] as it behaves in the locale the program starts in, where
    every byte is a character of its own: 0 at the NUL, [(size_t)-2] for
    an empty range, 1 for a 7-bit byte, [(size_t)-1] above. *)
Definition mbrlen_C (s : list ascii) (n : nat) (mbs : unit)
  : mbrlen_result * unit :=
  match n, s with
  | O, _ => (Mb_incomplete, mbs)
  | _, [] => (Mb_zero, mbs)
  | _, c :: _ =>
      if char_code c =? 0 then (Mb_zero, mbs)
      else if char_code c <? 128 then (Mb_length 1, mbs)
      else (Mb_invalid, mbs)
  end.

(** A 7-bit byte other than NUL. *)
Definition seven_bit (c : ascii) : Prop := 0 < char_code c < 128.

(** A byte of a word: 7-bit, not NUL, not white space. *)
Definition word_char (c : ascii) : Prop :=
  seven_bit c /\ isspace c = false.

(** The text begins with a word that fills a line of [max_length]
    characters or ends the text. *)
Definition word_ahead (s : list ascii) (max_length : nat) : Prop :=
  forall u, (u < Nat.min max_length (length s))%nat -> word_char (byte_at s u).

(** [mbrlen] on 7-bit text: a byte that is neither NUL nor above 127 is a
    character of one byte in every locale, and leaves the conversion
    state initial. *)
Definition mbrlen_ascii_ok {mbstate_t : Type} (mbs_initial : mbstate_t)
    (mbrlen : list ascii -> nat -> mbstate_t -> mbrlen_result * mbstate_t)
  : Prop :=
  forall c rest n,
    seven_bit c -> (0 < n)%nat ->
    mbrlen (c :: rest) n mbs_initial = (Mb_length 1, mbs_initial).

(** ** Reading the trace *)

(** The lines of the table whose [release] ran, in the order in which
    they ran. *)
Fixpoint released (tr : list event) : list nat :=
  match tr with
  | [] => []
  | EvRelease i :: tr' => i :: released tr'
  | _ :: tr' => released tr'
  end.

(** The lines of the table whose [read] or [set_default] ran. *)
Fixpoint materialized (tr : list event) : list nat :=
  match tr with
  | [] => []
  | EvRead i :: tr' => i :: materialized tr'
  | EvDefault i :: tr' => i :: materialized tr'
  | _ :: tr' => materialized tr'
  end.

(** The lines of the table whose record has [initialized] set, in the
    order of the table. *)
Definition initialized_lines {V W} (p : program V W) (st : state V W)
  : list nat :=
  filter (fun i => truthy (initialized (record_at p st i)) = true)
         (seq 0 (length (schema p))).

(** What it is for the releasers of the given lines to be invoked,
    each once and in the order of the list: the releaser of a line is
    applied to the value of that line and to the state of the program,
    and the value it leaves is stored in the line.  This follows the
    words of the specification; [arguments_release] is compared with
    it. *)
Fixpoint run_releasers {V W} (p : program V W) (lines : list nat)
    (vs : list V) (w : W) : list V * W :=
  match lines with
  | [] => (vs, w)
  | i :: lines' =>
      match schema p !! i, vs !! i with
      | Some d, Some v =>
          let '(v', w') := release d v w in
          run_releasers p lines' (<[i := v']> vs) w'
      | _, _ => run_releasers p lines' vs w
      end
  end.

(** What a call of the matcher leaves alone. *)
Definition read_frame {V W} (p : program V W) (st st' : state V W) : Prop :=
  world st' = world st
  /\ atexit_handlers st' = atexit_handlers st
  /\ released (trace st') = released (trace st)
  /\ materialized (trace st') = materialized (trace st)
  /\ length (arguments st') = length (arguments st)
  /\ forall k, initialized (record_at p st' k) = initialized (record_at p st k).

(** The events of [arguments_set]: the reader of a line that was passed
    on the command line, the default of a line that was not. *)
Definition set_event {V W} (p : program V W) (st : state V W) (e : event)
  : Prop :=
  match e with
  | EvRead k => truthy (present (record_at p st k)) = true
  | EvDefault k => truthy (present (record_at p st k)) = false
  | _ => False
  end.

(** ** Well-formed tables *)

Fixpoint dash_free (s : string) : Prop :=
  match s with
  | EmptyString => True
  | String c r => char_code c <> dash_code /\ dash_free r
  end.

(** [name] is pasted into the program as a member of [arguments], so it is
    a C identifier; of that, only this much is used. *)
Definition name_ok (s : string) : Prop := cstring s /\ dash_free s.

Definition short_ok (s : option string) : Prop :=
  match s with
  | Some a => cstring a
  | None => True
  end.

(** The arity is written as a non-negative [int]. *)
Definition arity_ok {V W} (d : descriptor V W) : Prop :=
  0 <= value_count d <= INT_MAX.

(** ** Sample tables

    Values are integers and the program has no state of its own. *)

Definition ARGUMENT_IS_REQUIRED : list (arg_record Z) -> Z := fun _ => 1.
Definition ARGUMENT_IS_OPTIONAL : list (arg_record Z) -> Z := fun _ => 0.

(** [*target = z;] *)
Definition store {W} (z : Z) : block Z W :=
  fun _ _ _ is_valid w => (z, is_valid, w).

(** Reads one decimal digit; anything else is invalid. *)
Definition read_digit {W} : block Z W :=
  fun value_strings _ target is_valid w =>
    match value_strings with
    | Some (String c EmptyString :: _) =>
        if (48 <=? char_code c) && (char_code c <=? 57)
        then (char_code c - 48, is_valid, w)
        else (target, 0, w)
    | _ => (target, 0, w)
    end.

Definition no_release : Z -> unit -> Z * unit := fun v w => (v, w).

(** An [atoi] for the samples: the digits 0 to 9, and [-5]. *)
Definition sample_atoi (s : string) : Z :=
  match s with
  | String c EmptyString =>
      if (48 <=? char_code c) && (char_code c <=? 57) then char_code c - 48
      else 0
  | "-5"%string => -5
  | _ => 0
  end.

(** The samples have no help header, hand their table to the help
    printer as it is, and run with [COLUMNS] unset in the locale the
    program starts in. *)
Definition sample_program (print_help : Z) (ds : list (descriptor Z unit))
  : program Z unit :=
  Program print_help ds (fun _ w => (0, w)) (fun _ _ w => (0, w))
          (fun w => w) 0 None ds None sample_atoi unit tt mbrlen_C.

Definition arg_count : descriptor Z unit :=
  Descriptor "count" (Some "-c"%string) 1 ARGUMENT_IS_REQUIRED "" (store 0)
             read_digit no_release.

Definition arg_level : descriptor Z unit :=
  Descriptor "level" None 1 ARGUMENT_IS_OPTIONAL "" (store 0)
             read_digit no_release.

Definition arg_size : descriptor Z unit :=
  Descriptor "size" None 1 ARGUMENT_IS_OPTIONAL "" (store 7)
             read_digit no_release.

Definition arg_x : descriptor Z unit :=
  Descriptor "x" (Some "--y"%string) 0 ARGUMENT_IS_OPTIONAL "" (store 0)
             (store 1) no_release.

Definition arg_y : descriptor Z unit :=
  Descriptor "y" None 0 ARGUMENT_IS_OPTIONAL "" (store 0)
             (store 1) no_release.

Definition arg_help : descriptor Z unit :=
  Descriptor "help" None 0 ARGUMENT_IS_OPTIONAL "" (store 0)
             (store 1) no_release.

Definition text (s : string) : list ascii := list_ascii_of_string s.

(** An arity that only fits [unsigned int]. *)
Definition arg_wide : descriptor Z unit :=
  Descriptor "wide" None 4294967295 ARGUMENT_IS_OPTIONAL "" (store 0)
             (store 1) no_release.

(** The state of a fresh process once [main] has zeroed the struct. *)
Definition fresh (p : program Z unit) : state Z unit :=
  arguments_initialize p (State [] tt [] []).

Definition count_program : program Z unit := sample_program 1 [arg_count].

Definition level_size_program : program Z unit :=
  sample_program 1 [arg_level; arg_size].

(** [count_program] after [-c 5] at the head of [argv]. *)
Definition count_taken (argv : list string) : state Z unit :=
  State [ArgRecord 1 0 (Some (drop 2 argv)) 1 0] tt [] [].

(** [level_size_program] after [--level v]. *)
Definition level_taken (v : string) : state Z unit :=
  State [ArgRecord 1 0 (Some [v]) 1 0; ArgRecord 0 0 None 0 0] tt [] [].

(** A table whose releasers leave a mark: each puts the value it
    releases in front of the state of the program, a list, and clears
    the value; [teardown] puts a zero in front. *)
Definition release_to_log : Z -> list Z -> Z * list Z :=
  fun v w => (0, v :: w).

Definition arg_left : descriptor Z (list Z) :=
  Descriptor "left" None 1 (fun _ => 0) "" (store 7) read_digit
             release_to_log.

Definition arg_right : descriptor Z (list Z) :=
  Descriptor "right" None 1 (fun _ => 0) "" (store 8) read_digit
             release_to_log.

Definition logging_program : program Z (list Z) :=
  Program 1 [arg_left; arg_right] (fun _ w => (0, w))
          (fun _ _ w => (0, w)) (fun w => 0 :: w) 0
          None [arg_left; arg_right] None sample_atoi unit tt mbrlen_C.

(** One line, [x], with the help text [ab], run with [COLUMNS=3], which
    is the width of the header of the line. *)
Definition arg_narrow : descriptor Z unit :=
  Descriptor "x" None 0 ARGUMENT_IS_OPTIONAL "ab" (store 0) (store 1)
             no_release.

Definition narrow_program : program Z unit :=
  Program 1 [arg_narrow] (fun _ w => (0, w)) (fun _ _ w => (0, w))
          (fun w => w) 0
          None [arg_narrow] (Some "3"%string) sample_atoi unit tt mbrlen_C.

(** The same line with [COLUMNS] unset. *)
Definition roomy_program : program Z unit :=
  Program 1 [arg_narrow] (fun _ w => (0, w)) (fun _ _ w => (0, w))
          (fun w => w) 0
          None [arg_narrow] None sample_atoi unit tt mbrlen_C.

(** No line for the help printer, the help header [ab], and
    [COLUMNS=0]. *)
Definition headless_program : program Z unit :=
  Program 1 [arg_narrow] (fun _ w => (0, w)) (fun _ _ w => (0, w))
          (fun w => w) 0
          (Some "ab"%string) [] (Some "0"%string) sample_atoi unit tt
          mbrlen_C.

(** [logging_program] after [--left 3]. *)
Definition left_taken : state Z (list Z) :=
  State [ArgRecord 1 0 (Some ["3"%string]) 1 0; ArgRecord 0 0 None 0 0]
        [] [] [].


(** ** What the loops keep *)

(** A record that is marked present points at no fewer tokens than its
    length says. *)
Definition values_in_bounds {V} (r : arg_record V) : Prop :=
  truthy (present r) = true ->
  exists vs,
    value_strings r = Some vs
    /\ 0 <= value_strings_length r <= Z.of_nat (length vs).

(** All bytes of [s] from index [a] up to index [b] are white space. *)
Definition blank_between (s : list ascii) (a b : nat) : Prop :=
  forall u, (a <= u < b)%nat -> isspace (byte_at s u) = true.

(** What the loop of [arguments_get_line] keeps on 7-bit text, where the
    byte index and the column agree. *)
Definition line_inv (s : list ascii) (max_length len : nat)
    (was_space : bool) (l i result : nat) : Prop :=
  l = i /\ (i <= length s)%nat /\ (i <= max_length)%nat
  /\ (len <= i)%nat /\ (result <= i)%nat
  /\ (was_space = true -> blank_between s len i)
  /\ blank_between s len result.

Definition line_post (s : list ascii) (max_length : nat) (out : nat * nat)
  : Prop :=
  (out.1 <= length s)%nat /\ (out.2 <= length s)%nat
  /\ (out.1 <= max_length)%nat
  /\ blank_between s out.1 out.2.

(** A 7-bit byte whose only white space is the plain space and the
    newline. *)
Definition plain_char (c : ascii) : Prop :=
  seven_bit c
  /\ (isspace c = true ->
      char_code c = space_code \/ char_code c = newline_code).

(** The bytes that are not white space. *)
Definition ink (s : list ascii) : list ascii :=
  filter (fun c => isspace c = false) s.

(** * Properties *)

(** ** C strings and the token comparator *)

Lemma char_code_inj (a b : ascii) : char_code a = char_code b -> a = b.
Proof.
  unfold char_code. intros H. apply N2Z.inj in H.
  rewrite <- (ascii_N_embedding a), <- (ascii_N_embedding b). now rewrite H.
Qed.

Lemma char_code_range (a : ascii) : 0 <= char_code a < 256.
Proof.
  unfold char_code. pose proof (N_ascii_bounded a). lia.
Qed.

Lemma truthy_true (z : Z) : truthy z = true <-> z <> 0.
Proof. unfold truthy. destruct (Z.eqb_spec z 0); simpl; intuition congruence. Qed.

Lemma truthy_false (z : Z) : truthy z = false <-> z = 0.
Proof. unfold truthy. destruct (Z.eqb_spec z 0); simpl; intuition congruence. Qed.

Lemma strcmp_refl (a : string) : strcmp a a = 0.
Proof.
  induction a as [|x a IH]; simpl; [reflexivity|].
  now rewrite Z.eqb_refl.
Qed.

Lemma strcmp_eq (a b : string) :
  cstring a -> cstring b -> strcmp a b = 0 -> a = b.
Proof.
  revert b. induction a as [|x a IH]; intros [|y b]; simpl; intros Ha Hb H.
  - reflexivity.
  - lia.
  - lia.
  - destruct (Z.eqb_spec (char_code x) (char_code y)) as [E|E]; [|lia].
    apply char_code_inj in E. subst y. f_equal. apply IH; tauto.
Qed.

Lemma strcmp_zero_iff (a b : string) :
  cstring a -> cstring b -> strcmp a b = 0 <-> a = b.
Proof.
  intros Ha Hb. split; [now apply strcmp_eq|].
  intros ->. apply strcmp_refl.
Qed.

Lemma cstring_dashed (n : string) : cstring n -> cstring (dashed n).
Proof.
  induction n as [|c n IH]; simpl; [tauto|].
  intros [Hc Hn]. split; [|now apply IH].
  destruct (Z.eqb_spec (char_code c) underscore_code); [discriminate|assumption].
Qed.

Lemma cstring_long_form (n : string) : cstring n -> cstring (long_form n).
Proof.
  intros H. unfold long_form. simpl.
  repeat split; try discriminate. now apply cstring_dashed.
Qed.

(** When the loop of [arguments_cmp] is left, both pointers stand at the
    terminator exactly when the argument is the name with dashes for
    underscores. *)
Lemma arguments_cmp_loop_spec (longarg name : string) :
  cstring longarg -> cstring name ->
  (deref (arguments_cmp_loop longarg name).1 = 0
   /\ deref (arguments_cmp_loop longarg name).2 = 0)
  <-> longarg = dashed name.
Proof.
  revert name.
  induction longarg as [|a longarg IH]; intros [|b name] Hl Hn; simpl in *.
  - tauto.
  - split; [lia|discriminate].
  - split; [lia|discriminate].
  - destruct Hl as [Ha Hl], Hn as [Hb Hn].
    apply truthy_true in Ha as Ta. apply truthy_true in Hb as Tb.
    rewrite Ta, Tb. simpl.
    destruct (Z.eqb_spec (char_code a)
                (if char_code b =? underscore_code then dash_code else char_code b))
      as [E|E]; simpl.
    + rewrite (IH name Hl Hn). split.
      * intros ->. f_equal. apply char_code_inj. rewrite E.
        now destruct (char_code b =? underscore_code).
      * intros [= _ H]. exact H.
    + split; [lia|]. intros [= Hc _]. exfalso. apply E. rewrite Hc.
      now destruct (char_code b =? underscore_code).
Qed.

(** [arguments_cmp] returns 0 on the long form of the name and on nothing
    else. *)
Lemma arguments_cmp_zero_iff (tok name : string) :
  cstring tok -> cstring name ->
  arguments_cmp tok name = 0 <-> tok = long_form name.
Proof.
  intros Ht Hn. unfold arguments_cmp, long_form.
  destruct tok as [|c1 tok]; simpl; [split; [lia|discriminate]|].
  destruct (Z.eqb_spec (char_code c1) dash_code) as [E1|E1]; simpl;
    [|split; [lia|intros [= -> _]; now elim E1]].
  destruct tok as [|c2 tok]; simpl; [split; [lia|discriminate]|].
  destruct (Z.eqb_spec (char_code c2) dash_code) as [E2|E2]; simpl;
    [|split; [lia|intros [= _ -> _]; now elim E2]].
  assert (c1 = "-"%char) as -> by now apply char_code_inj.
  assert (c2 = "-"%char) as -> by now apply char_code_inj.
  simpl in Ht. destruct Ht as (_ & _ & Ht).
  pose proof (arguments_cmp_loop_spec tok name Ht Hn) as Hloop.
  destruct (arguments_cmp_loop tok name) as [l' n']. simpl in Hloop.
  assert (String "-" (String "-" tok) = String "-" (String "-" (dashed name))
          <-> tok = dashed name) as -> by (split; congruence).
  rewrite <- Hloop. clear Hloop.
  destruct (truthy (deref l' - b2z (deref n' =? underscore_code))) eqn:T.
  - apply truthy_true in T. unfold dash_code. split; [lia|].
    intros [H1 H2]. rewrite H1, H2 in T. now simpl in T.
  - apply truthy_false in T. split.
    + intros H. rewrite H in T. simpl in T. lia.
    + intros [H1 H2]. exact H2.
Qed.

(** ** The help printer and its fuel *)

Section HelpFuel.

Context {V W : Type}.
Implicit Types (p : program V W) (d : descriptor V W).

Lemma wrapped_lines_more_fuel {S : Type} (s0 : S)
    (len : list ascii -> nat -> S -> mbrlen_result * S)
    (fuel k : nat) (c : list ascii) (M : nat) lines :
  wrapped_lines s0 len fuel c M = Some lines ->
  wrapped_lines s0 len (k + fuel) c M = Some lines.
Proof.
  revert c lines. induction fuel as [|fuel IH]; intros c lines;
    [discriminate|].
  rewrite Nat.add_succ_r. cbn [wrapped_lines].
  destruct c as [|x c]; [auto|].
  destruct (arguments_get_line s0 len (x :: c) M) as [n l].
  destruct (wrapped_lines s0 len fuel (drop n (x :: c)) M) as [ls|] eqn:E;
    [|discriminate].
  now rewrite (IH _ _ E).
Qed.

Lemma arguments_print_help_string_more_fuel p fuel k header text hw tw
    lines :
  arguments_print_help_string p fuel header text hw tw = Some lines ->
  arguments_print_help_string p (k + fuel) header text hw tw = Some lines.
Proof.
  unfold arguments_print_help_string.
  destruct (wrapped_lines _ _ fuel _ _) as [ls|] eqn:E; [|discriminate].
  now rewrite (wrapped_lines_more_fuel _ _ _ k _ _ _ E).
Qed.

Lemma print_help_rows_more_fuel p fuel k ds hw tw rows :
  print_help_rows p fuel ds hw tw = Some rows ->
  print_help_rows p (k + fuel) ds hw tw = Some rows.
Proof.
  revert rows. induction ds as [|d ds IH]; intros rows; simpl; [auto|].
  destruct (arguments_print_help_string p fuel _ _ _ _) as [ls|] eqn:E;
    [|discriminate].
  rewrite (arguments_print_help_string_more_fuel _ _ k _ _ _ _ _ E).
  destruct (print_help_rows p fuel ds hw tw) as [rs|]; [|discriminate].
  now rewrite (IH rs eq_refl).
Qed.

(** Once the help printer returns, it returns the same with more
    fuel. *)
Lemma arguments_print_help_more_fuel p fuel k out :
  arguments_print_help p fuel = Some out ->
  arguments_print_help p (k + fuel) = Some out.
Proof.
  unfold arguments_print_help.
  destruct (ARGUMENTS_HELP p) as [text|].
  - destruct (arguments_print_help_string p fuel None _ _ _) as [top|] eqn:E;
      [|discriminate].
    rewrite (arguments_print_help_string_more_fuel _ _ k _ _ _ _ _ E).
    destruct (print_help_rows p fuel _ _ _) as [rows|] eqn:E2;
      [|discriminate].
    now rewrite (print_help_rows_more_fuel _ _ k _ _ _ _ E2).
  - destruct (print_help_rows p fuel _ _ _) as [rows|] eqn:E2;
      [|discriminate].
    now rewrite (print_help_rows_more_fuel _ _ k _ _ _ _ E2).
Qed.

Lemma arguments_print_help_enough p h fuel :
  is_Some (arguments_print_help p h) -> (h <= fuel)%nat ->
  arguments_print_help p fuel = arguments_print_help p h.
Proof.
  intros [out E] Hle. rewrite E.
  replace fuel with ((fuel - h) + h)%nat by lia.
  now apply arguments_print_help_more_fuel.
Qed.

End HelpFuel.

(** ** Machine integers *)

Lemma to_uint_small (z : Z) : 0 <= z < UINT_MODULUS -> to_uint z = z.
Proof. intros H. unfold to_uint. now apply Z.mod_small. Qed.

Lemma to_int_small (z : Z) : 0 <= z <= INT_MAX -> to_int z = z.
Proof.
  intros H. unfold to_int. unfold INT_MAX, UINT_MODULUS in *.
  rewrite Z.mod_small by lia.
  destruct (Z.leb_spec z 2147483647); lia.
Qed.

(** ** The token matcher *)

Section Reading.

Context {V W : Type}.
Implicit Types (p : program V W) (st : state V W) (d : descriptor V W).
Implicit Types (r : arg_record V) (argv : list string).

Lemma lookup_update_record_eq i f st r r' :
  arguments st !! i = Some r ->
  r' = f r ->
  arguments (update_record i f st) !! i = Some r'.
Proof.
  intros H ->. unfold update_record. simpl.
  rewrite list_lookup_alter_eq, H. reflexivity.
Qed.

Ltac lookup_updated H :=
  first [ exact H
        | eapply lookup_update_record_eq; [lookup_updated H|reflexivity] ].

Lemma lookup_update_record_ne i i' f st :
  i <> i' ->
  arguments (update_record i f st) !! i' = arguments st !! i'.
Proof.
  intros H. unfold update_record. simpl.
  now apply list_lookup_alter_ne.
Qed.

Lemma reaches_turn_last p argv j0 st0 j st j1 st1 :
  reaches p argv j0 st0 j st ->
  j < Z.of_nat (length argv) ->
  arguments_read_body p argv j st = Next j1 st1 ->
  reaches p argv j0 st0 j1 st1.
Proof.
  induction 1 as [j st|j st ja sta jb stb Hlt Hbody _ IH]; intros Hj Hnext.
  - eapply reaches_turn; [exact Hj|exact Hnext|apply reaches_here].
  - eapply reaches_turn; [exact Hlt|exact Hbody|now apply IH].
Qed.

(** The turns that lead from one token to another cost that much fuel
    and nothing else. *)
Lemma arguments_read_loop_reaches p argv j0 st0 j st :
  reaches p argv j0 st0 j st ->
  exists n, forall fuel,
    arguments_read_loop p (n + fuel) argv j0 st0
    = arguments_read_loop p fuel argv j st.
Proof.
  induction 1 as [j st|j st ja sta jb stb Hlt Hbody _ [n IH]].
  - exists O. reflexivity.
  - exists (S n). intros fuel. simpl.
    apply Z.ltb_lt in Hlt. rewrite Hlt, Hbody. apply IH.
Qed.

Lemma matched_branch_enough argv j i d st :
  Z.of_nat (length argv) <= INT_MAX ->
  0 <= j -> arity_ok d ->
  j + value_count d < Z.of_nat (length argv) ->
  matched_branch argv j i d st
  = Next (j + 1 + value_count d)
      (update_record i
         (set_value_strings (Some (drop (Z.to_nat (j + 1)) argv)))
         (update_record i (set_value_strings_length (value_count d))
            (update_record i (set_present 1) st))).
Proof.
  unfold arity_ok, INT_MAX. intros Hargc Hj Hk Hlt. unfold matched_branch.
  rewrite (to_uint_small (value_count d)) by (unfold UINT_MODULUS; lia).
  rewrite !to_uint_small by (unfold UINT_MODULUS; lia).
  apply Z.ltb_lt in Hlt. rewrite Hlt.
  rewrite to_int_small by (unfold INT_MAX; lia).
  reflexivity.
Qed.

Lemma matched_branch_short argv j i d st :
  Z.of_nat (length argv) <= INT_MAX ->
  0 <= j < Z.of_nat (length argv) -> arity_ok d ->
  Z.of_nat (length argv) <= j + value_count d ->
  matched_branch argv j i d st
  = Break 0
      (update_record i (set_value_strings_length (value_count d))
         (update_record i (set_present 1) st)).
Proof.
  unfold arity_ok, INT_MAX. intros Hargc Hj Hk Hge. unfold matched_branch.
  rewrite (to_uint_small (value_count d)) by (unfold UINT_MODULUS; lia).
  rewrite !to_uint_small by (unfold UINT_MODULUS; lia).
  apply Z.ltb_ge in Hge. rewrite Hge. reflexivity.
Qed.

Lemma arguments_read_from p fuel argv start st :
  1 <= start ->
  arguments_read p fuel argv start st
  = arguments_read_loop p fuel argv start st.
Proof.
  intros H. unfold arguments_read.
  destruct (Z.ltb_spec start 1); [lia|reflexivity].
Qed.

Lemma arguments_read_body_matched p argv j st i d :
  truthy (ARGUMENTS_PRINT_HELP p) && is_help_token (token_at argv j) = false ->
  select (schema p) (token_at argv j) = Some (i, d) ->
  arguments_read_body p argv j st = matched_branch argv j i d st.
Proof.
  intros Hhelp Hsel. unfold arguments_read_body. now rewrite Hhelp, Hsel.
Qed.

Lemma matched_branch_frame argv j i d st j1 st1 :
  matched_branch argv j i d st = Next j1 st1 ->
  world st1 = world st /\ atexit_handlers st1 = atexit_handlers st
  /\ trace st1 = trace st.
Proof.
  unfold matched_branch.
  destruct (_ <? _); [|discriminate]. intros [= _ <-]. now simpl.
Qed.

Lemma arguments_read_body_frame p argv j st j1 st1 :
  arguments_read_body p argv j st = Next j1 st1 ->
  world st1 = world st /\ atexit_handlers st1 = atexit_handlers st
  /\ trace st1 = trace st.
Proof.
  unfold arguments_read_body.
  destruct (_ && _); [discriminate|].
  destruct (select _ _) as [[i d]|]; [|discriminate].
  apply matched_branch_frame.
Qed.

(** Matching touches the [arguments] struct only. *)
Lemma reaches_frame p argv j0 st0 j st :
  reaches p argv j0 st0 j st ->
  world st = world st0 /\ atexit_handlers st = atexit_handlers st0
  /\ trace st = trace st0.
Proof.
  induction 1 as [j st|j st ja sta jb stb _ Hbody _ IH]; [tauto|].
  apply arguments_read_body_frame in Hbody.
  destruct Hbody as (H1 & H2 & H3), IH as (H4 & H5 & H6).
  repeat split; congruence.
Qed.

(** Once the loop stands at a token whose turn leaves the loop, the
    whole call returns what that turn says. *)
Lemma arguments_read_stops p argv start st0 j st status st' :
  1 <= start ->
  reaches p argv start st0 j st ->
  j < Z.of_nat (length argv) ->
  arguments_read_body p argv j st
  = Break (if status =? AC_OK then 1 else 0) st'
  /\ (status = AC_OK \/ status = AC_ERROR) ->
  exists n, forall fuel, (n < fuel)%nat ->
    arguments_read p fuel argv start st0 = Some (status, j, st').
Proof.
  intros Hstart Hreach Hj Hbody.
  destruct (arguments_read_loop_reaches _ _ _ _ _ _ Hreach) as [n Hn].
  exists n. intros fuel Hfuel.
  rewrite arguments_read_from by exact Hstart.
  replace fuel with (n + S (fuel - S n))%nat by lia.
  rewrite Hn. simpl. apply Z.ltb_lt in Hj. rewrite Hj.
  destruct Hbody as [-> [->| ->]]; reflexivity.
Qed.

(** At a help flag the call returns [AC_HELP] once the help printer
    has returned. *)
Lemma arguments_read_stops_help p argv start st0 j st st' h :
  1 <= start ->
  reaches p argv start st0 j st ->
  j < Z.of_nat (length argv) ->
  arguments_read_body p argv j st = Print_help st' ->
  is_Some (arguments_print_help p h) ->
  exists n, forall fuel, (n < fuel)%nat ->
    arguments_read p fuel argv start st0
    = Some (AC_HELP, j, log EvPrintHelp st').
Proof.
  intros Hstart Hreach Hj Hbody Hhelp.
  destruct (arguments_read_loop_reaches _ _ _ _ _ _ Hreach) as [n Hn].
  exists (n + h)%nat. intros fuel Hfuel.
  rewrite arguments_read_from by exact Hstart.
  replace fuel with (n + S (fuel - S n))%nat by lia.
  rewrite Hn. cbn [arguments_read_loop].
  apply Z.ltb_lt in Hj. rewrite Hj, Hbody.
  rewrite (arguments_print_help_enough p h) by (auto; lia).
  destruct Hhelp as [out ->]. reflexivity.
Qed.

(** C1. When the matcher matches the flag of a descriptor of arity k at
    index j, then, if at least k tokens remain after the flag
    (j + k < argc), the match succeeds: the record points at the tokens
    that follow the flag with a length of k, which are exactly k tokens,
    and the scan goes on behind them; otherwise [arguments_read] stops
    and returns [AC_ERROR] with the scan position at j, the index of the
    flag. *)
Theorem arguments_read_takes_arity p argv start st0 j st i d :
  Z.of_nat (length argv) <= INT_MAX ->
  1 <= start ->
  0 <= j < Z.of_nat (length argv) ->
  arity_ok d ->
  reaches p argv start st0 j st ->
  truthy (ARGUMENTS_PRINT_HELP p) && is_help_token (token_at argv j) = false ->
  select (schema p) (token_at argv j) = Some (i, d) ->
  (j + value_count d < Z.of_nat (length argv) ->
   exists st',
     reaches p argv start st0 (j + 1 + value_count d) st'
     /\ (forall r, arguments st !! i = Some r ->
          arguments st' !! i
          = Some (ArgRecord 1 (initialized r)
                    (Some (drop (Z.to_nat (j + 1)) argv))
                    (value_count d) (value r)))
     /\ Z.of_nat (length (take (Z.to_nat (value_count d))
                            (drop (Z.to_nat (j + 1)) argv)))
        = value_count d)
  /\ (Z.of_nat (length argv) <= j + value_count d ->
      exists n st', forall fuel, (n < fuel)%nat ->
        arguments_read p fuel argv start st0 = Some (AC_ERROR, j, st')).
Proof.
  intros Hargc Hstart Hj Hk Hreach Hhelp Hsel.
  pose proof (arguments_read_body_matched _ _ _ st _ _ Hhelp Hsel) as Hbody.
  split; intros Hcmp.
  - rewrite matched_branch_enough in Hbody by (try assumption; lia).
    eexists. split; [|split].
    + eapply reaches_turn_last; [exact Hreach|lia|exact Hbody].
    + intros r Hr.
      lookup_updated Hr.
    + unfold arity_ok in Hk.
      rewrite length_take, length_drop. lia.
  - rewrite matched_branch_short in Hbody by (try assumption; lia).
    edestruct (arguments_read_stops p argv start st0 j st AC_ERROR)
      as [n Hn];
      [exact Hstart|exact Hreach|exact (proj2 Hj)
      |split; [exact Hbody|now right]|].
    exists n. eexists. exact Hn.
Qed.

(** C10 (as amended).  When [arguments_read] returns [AC_ERROR] because
    the arity of the matched descriptor could not be satisfied, the
    record of that descriptor has [present] set to 1 and
    [value_strings_length] set to the arity, [value_strings] is what it
    was before the failing match (null when the flag was not matched
    earlier in the scan), the other records are untouched, and
    [*nextarg] is the index of the flag. *)
Theorem arguments_read_error_record p argv start st0 j st i d r :
  Z.of_nat (length argv) <= INT_MAX ->
  1 <= start ->
  0 <= j < Z.of_nat (length argv) ->
  arity_ok d ->
  reaches p argv start st0 j st ->
  truthy (ARGUMENTS_PRINT_HELP p) && is_help_token (token_at argv j) = false ->
  select (schema p) (token_at argv j) = Some (i, d) ->
  arguments st !! i = Some r ->
  Z.of_nat (length argv) <= j + value_count d ->
  exists n st',
    (forall fuel, (n < fuel)%nat ->
       arguments_read p fuel argv start st0 = Some (AC_ERROR, j, st'))
    /\ arguments st' !! i
       = Some (ArgRecord 1 (initialized r) (value_strings r)
                 (value_count d) (value r))
    /\ (forall i', i' <> i -> arguments st' !! i' = arguments st !! i').
Proof.
  intros Hargc Hstart Hj Hk Hreach Hhelp Hsel Hr Hcmp.
  pose proof (arguments_read_body_matched _ _ _ st _ _ Hhelp Hsel) as Hbody.
  rewrite matched_branch_short in Hbody by (try assumption; lia).
  edestruct (arguments_read_stops p argv start st0 j st AC_ERROR)
    as [n Hn];
    [exact Hstart|exact Hreach|exact (proj2 Hj)
    |split; [exact Hbody|now right]|].
  exists n. eexists. split; [exact Hn|split].
  - lookup_updated Hr.
  - intros i' Hi'. rewrite !lookup_update_record_ne by congruence.
    reflexivity.
Qed.

End Reading.

(** ** The records while tokens are matched *)

Section Records.

Context {V W : Type}.
Implicit Types (p : program V W) (st : state V W) (d : descriptor V W).
Implicit Types (r : arg_record V) (argv : list string).

Lemma record_at_update_record p i f st k :
  record_at p (update_record i f st) k
  = if decide (k = i)
    then match arguments st !! i with
         | Some r => f r
         | None => zero_record p
         end
    else record_at p st k.
Proof.
  unfold record_at, update_record. simpl. case_decide as E.
  - subst k. rewrite list_lookup_alter_eq.
    now destruct (arguments st !! i).
  - rewrite list_lookup_alter_ne by congruence. reflexivity.
Qed.

Lemma record_at_update_record_ne p i f st k :
  k <> i -> record_at p (update_record i f st) k = record_at p st k.
Proof.
  intros H. rewrite record_at_update_record. now case_decide.
Qed.

(** An update that leaves a field alone leaves it alone in every
    record. *)
Lemma field_update_record {A} (field : arg_record V -> A) p i f st k :
  (forall r, field (f r) = field r) ->
  field (record_at p (update_record i f st) k) = field (record_at p st k).
Proof.
  intros H. rewrite record_at_update_record. case_decide as E; [|reflexivity].
  subst k. unfold record_at. destruct (arguments st !! i); simpl; auto.
Qed.

Lemma length_update_record i f st :
  length (arguments (update_record i f st)) = length (arguments st).
Proof. unfold update_record. simpl. apply length_alter. Qed.

Lemma record_at_initialize p st k :
  record_at p (arguments_initialize p st) k = zero_record p.
Proof.
  unfold record_at, arguments_initialize. simpl.
  destruct (replicate _ _ !! k) as [r|] eqn:E; [|reflexivity].
  apply lookup_replicate in E. simpl. tauto.
Qed.

Lemma read_frame_refl p st : read_frame p st st.
Proof. unfold read_frame. tauto. Qed.

Lemma read_frame_trans p st1 st2 st3 :
  read_frame p st1 st2 -> read_frame p st2 st3 -> read_frame p st1 st3.
Proof.
  unfold read_frame. intros (A1 & A2 & A3 & A4 & A5 & A6) (B1 & B2 & B3 & B4 & B5 & B6).
  repeat split; first [congruence|intros k; now rewrite B6].
Qed.

Lemma released_app tr1 tr2 : released (tr1 ++ tr2) = released tr1 ++ released tr2.
Proof.
  induction tr1 as [|e tr1 IH]; simpl; [reflexivity|].
  destruct e; simpl; now rewrite ?IH.
Qed.

Lemma materialized_app tr1 tr2 :
  materialized (tr1 ++ tr2) = materialized tr1 ++ materialized tr2.
Proof.
  induction tr1 as [|e tr1 IH]; simpl; [reflexivity|].
  destruct e; simpl; now rewrite ?IH.
Qed.

Lemma read_frame_update_record p i f st :
  (forall r, initialized (f r) = initialized r) ->
  read_frame p st (update_record i f st).
Proof.
  intros H. unfold read_frame. repeat split; try reflexivity.
  - apply length_update_record.
  - intros k. now apply (field_update_record initialized).
Qed.

Lemma read_frame_log_help p st : read_frame p st (log EvPrintHelp st).
Proof.
  unfold read_frame, log. simpl.
  rewrite released_app, materialized_app. simpl. rewrite !app_nil_r.
  tauto.
Qed.

Lemma matched_branch_read_frame p argv j i d st :
  match matched_branch argv j i d st with
  | Print_help st' | Break _ st' | Next _ st' => read_frame p st st'
  end.
Proof.
  unfold matched_branch. destruct (_ <? _).
  - eapply read_frame_trans; [|now apply read_frame_update_record].
    eapply read_frame_trans; now apply read_frame_update_record.
  - eapply read_frame_trans; now apply read_frame_update_record.
Qed.

Lemma arguments_read_body_read_frame p argv j st :
  match arguments_read_body p argv j st with
  | Print_help st' | Break _ st' | Next _ st' => read_frame p st st'
  end.
Proof.
  unfold arguments_read_body. destruct (_ && _).
  - apply read_frame_refl.
  - destruct (select _ _) as [[i d]|].
    + apply matched_branch_read_frame.
    + apply read_frame_refl.
Qed.

Lemma arguments_read_loop_read_frame p fuel argv j st status j' st' :
  arguments_read_loop p fuel argv j st = Some (status, j', st') ->
  read_frame p st st'.
Proof.
  revert j st. induction fuel as [|fuel IH]; intros j st; simpl; [discriminate|].
  destruct (_ <? _).
  - pose proof (arguments_read_body_read_frame p argv j st) as Hf.
    destruct (arguments_read_body p argv j st) as [st1|v st1|j1 st1].
    + destruct (arguments_print_help p (S fuel)); [|discriminate].
      intros [= _ _ <-].
      eapply read_frame_trans; [exact Hf|apply read_frame_log_help].
    + intros [= _ _ <-]. exact Hf.
    + intros H. eapply read_frame_trans; [exact Hf|]. eapply IH, H.
  - intros [= _ _ <-]. apply read_frame_refl.
Qed.

(** The status is one of the three enumerators; without the help event
    the trace is as before. *)
Lemma arguments_read_loop_status p fuel argv j st status j' st' :
  arguments_read_loop p fuel argv j st = Some (status, j', st') ->
  (status = AC_HELP /\ trace st' = trace st ++ [EvPrintHelp])
  \/ ((status = AC_OK \/ status = AC_ERROR) /\ trace st' = trace st).
Proof.
  revert j st. induction fuel as [|fuel IH]; intros j st; simpl; [discriminate|].
  destruct (_ <? _).
  - destruct (arguments_read_body p argv j st) as [st1|v st1|j1 st1] eqn:Hb.
    + destruct (arguments_print_help p (S fuel)); [|discriminate].
      intros [= <- _ <-]. left.
      unfold arguments_read_body in Hb. destruct (_ && _).
      * injection Hb as <-. now simpl.
      * destruct (select _ _) as [[i d]|]; [|discriminate].
        unfold matched_branch in Hb. destruct (_ <? _); discriminate.
    + intros [= <- _ <-]. right.
      unfold arguments_read_body in Hb. destruct (_ && _); [discriminate|].
      destruct (select _ _) as [[i d]|].
      * unfold matched_branch in Hb. destruct (_ <? _); [discriminate|].
        injection Hb as <- <-. simpl. tauto.
      * injection Hb as <- <-. simpl. tauto.
    + intros H. apply arguments_read_body_frame in Hb.
      destruct Hb as (_ & _ & <-). eapply IH, H.
  - intros [= <- _ <-]. right. tauto.
Qed.

(** With arities that are non-negative [int]s every turn that goes on
    moves forward, so the loop returns, provided the help printer
    does where help is handled. *)
Lemma arguments_read_loop_total p h fuel argv j st :
  Forall arity_ok (schema p) ->
  Z.of_nat (length argv) <= INT_MAX ->
  (truthy (ARGUMENTS_PRINT_HELP p) = true ->
   is_Some (arguments_print_help p h)) ->
  0 <= j ->
  (Z.to_nat (Z.of_nat (length argv) - j) + h < fuel)%nat ->
  is_Some (arguments_read_loop p fuel argv j st).
Proof.
  intros Hok Hargc Hhelp. revert j st.
  induction fuel as [|fuel IH]; intros j st Hj Hfuel; [lia|].
  cbn [arguments_read_loop].
  destruct (Z.ltb_spec j (Z.of_nat (length argv))) as [Hlt|Hge]; [|eauto].
  unfold arguments_read_body.
  destruct (truthy (ARGUMENTS_PRINT_HELP p)) eqn:Hp; cbn [andb];
    [destruct (is_help_token (token_at argv j))|].
  { rewrite (arguments_print_help_enough p h) by (auto; lia).
    destruct (Hhelp eq_refl) as [out ->]. eauto. }
  all: destruct (select _ _) as [[i d]|] eqn:Hsel; [|eauto].
  all: assert (arity_ok d) as Hd
      by (unfold select in Hsel; apply list_find_Some in Hsel;
          destruct Hsel as (Hsel & _); rewrite Forall_forall in Hok;
          apply Hok; eapply list_elem_of_lookup_2, Hsel).
  all: destruct (Z.ltb_spec (j + value_count d) (Z.of_nat (length argv)))
      as [H|H];
    [rewrite matched_branch_enough by assumption;
     apply IH; unfold arity_ok in Hd; lia
    |rewrite matched_branch_short by (try assumption; lia); eauto].
Qed.

End Records.

(** ** The value materializer *)

Section Materializer.

Context {V W : Type}.
Implicit Types (p : program V W) (st : state V W) (d : descriptor V W).
Implicit Types (ds : list (descriptor V W)) (i k : nat) (v : Z).

Lemma set_one_skip p i d v st :
  truthy v = false -> set_one p i d v st = (v, st).
Proof. intros H. unfold set_one. now rewrite H. Qed.

Lemma set_from_skip p i ds v st :
  truthy v = false -> set_from p i ds v st = (v, st).
Proof.
  intros H. revert i. induction ds as [|d ds IH]; intros i; simpl; [reflexivity|].
  rewrite set_one_skip by exact H. apply IH.
Qed.

Lemma set_from_app p i ds1 ds2 v st :
  set_from p i (ds1 ++ ds2) v st
  = set_from p (i + length ds1) ds2
      (set_from p i ds1 v st).1 (set_from p i ds1 v st).2.
Proof.
  revert i v st. induction ds1 as [|d ds1 IH]; intros i v st; simpl.
  - now rewrite Nat.add_0_r.
  - destruct (set_one p i d v st) as [v1 st1]. rewrite IH.
    now replace (S i + length ds1)%nat with (i + S (length ds1))%nat by lia.
Qed.

(** One line of the table: what it touches and what it records. *)
Lemma set_one_spec p i d v st v' st' :
  set_one p i d v st = (v', st') ->
  atexit_handlers st' = atexit_handlers st
  /\ length (arguments st') = length (arguments st)
  /\ (forall k, k <> i -> arguments st' !! k = arguments st !! k)
  /\ (forall k, present (record_at p st' k) = present (record_at p st k))
  /\ trace st'
     = trace st
       ++ (if truthy v
           then [if truthy (present (record_at p st i))
                 then EvRead i else EvDefault i]
           else [])
  /\ (truthy v' = true -> truthy v = true)
  /\ (truthy v' = true -> (i < length (arguments st))%nat ->
      initialized (record_at p st' i) = 1)
  /\ (truthy v' = false ->
      initialized (record_at p st' i) = initialized (record_at p st i)).
Proof.
  unfold set_one. destruct (truthy v) eqn:Hv.
  - destruct ((if truthy (present (record_at p st i)) then read d
               else set_default d) _ _ _ _ _) as [[val iv] w].
    intros [= <- <-]. destruct (truthy iv) eqn:Hiv.
    + repeat split; try reflexivity; try discriminate.
      * unfold update_record. simpl. now rewrite !length_alter.
      * intros k Hk. unfold update_record. simpl.
        now rewrite !list_lookup_alter_ne by congruence.
      * intros k. rewrite (field_update_record present) by reflexivity.
        change (present (record_at p (update_record i (set_value val) st) k)
                = present (record_at p st k)).
        now apply (field_update_record present).
      * intros _ Hi. rewrite record_at_update_record.
        rewrite decide_True by reflexivity.
        destruct (arguments _ !! i) as [r|] eqn:E; [reflexivity|].
        apply lookup_ge_None in E. simpl in E.
        rewrite length_alter in E. lia.
    + repeat split; try reflexivity; try discriminate.
      * unfold update_record. simpl. now rewrite !length_alter.
      * intros k Hk. unfold update_record. simpl.
        now rewrite !list_lookup_alter_ne by congruence.
      * intros k.
        change (present (record_at p (update_record i (set_value val) st) k)
                = present (record_at p st k)).
        now apply (field_update_record present).
      * intros _.
        change (initialized (record_at p (update_record i (set_value val) st) i)
                = initialized (record_at p st i)).
        now apply (field_update_record initialized).
  - intros [= <- <-]. rewrite app_nil_r.
    repeat split; try reflexivity; congruence.
Qed.

Lemma record_at_lookup p st st' k :
  arguments st' !! k = arguments st !! k ->
  record_at p st' k = record_at p st k.
Proof. unfold record_at. now intros ->. Qed.

Lemma set_event_present p st st' e :
  (forall k, present (record_at p st' k) = present (record_at p st k)) ->
  set_event p st' e -> set_event p st e.
Proof. intros H. destruct e; simpl; rewrite ?H; auto. Qed.

(** The lines of the table from line [i] on. *)
Lemma set_from_spec p i ds v st v' st' :
  set_from p i ds v st = (v', st') ->
  atexit_handlers st' = atexit_handlers st
  /\ length (arguments st') = length (arguments st)
  /\ (forall k, (k < i \/ i + length ds <= k)%nat ->
      arguments st' !! k = arguments st !! k)
  /\ (forall k, present (record_at p st' k) = present (record_at p st k))
  /\ (truthy v' = true -> truthy v = true)
  /\ (truthy v' = true ->
      forall k, (i <= k < i + length ds)%nat ->
                (k < length (arguments st))%nat ->
                initialized (record_at p st' k) = 1)
  /\ exists evs,
       trace st' = trace st ++ evs
       /\ Forall (set_event p st) evs
       /\ (forall k, k ∈ materialized evs -> (i <= k < i + length ds)%nat)
       /\ (truthy v' = true -> materialized evs = seq i (length ds)).
Proof.
  revert i v st. induction ds as [|d ds IH]; intros i v st; simpl.
  - intros [= <- <-]. repeat split; try reflexivity; try tauto; try lia.
    exists []. rewrite app_nil_r.
    split; [reflexivity|]. split; [constructor|]. split; [|reflexivity].
    simpl. intros k Hk. inversion Hk.
  - destruct (set_one p i d v st) as [v1 st1] eqn:H1. intros H2.
    apply set_one_spec in H1.
    destruct H1 as (A1 & A2 & A3 & A4 & A5 & A6 & A7 & A8).
    apply IH in H2.
    destruct H2 as (B1 & B2 & B3 & B4 & B5 & B6 & evs & B7 & B8 & B9 & B10).
    split; [congruence|]. split; [congruence|].
    split; [|split; [|split; [|split]]].
    + intros k Hk. rewrite B3 by lia. apply A3. lia.
    + intros k. now rewrite B4.
    + auto.
    + intros Hv' k Hk Hlen. destruct (decide (k = i)) as [->|Hne].
      * rewrite (record_at_lookup p st1 st') by (apply B3; lia).
        apply A7; auto.
      * apply B6; [exact Hv'|lia|lia].
    + exists ((if truthy v
               then [if truthy (present (record_at p st i))
                     then EvRead i else EvDefault i]
               else []) ++ evs).
      rewrite B7, A5, <- app_assoc. split; [reflexivity|].
      split; [|split].
      * apply Forall_app. split.
        -- destruct (truthy v); [|constructor].
           constructor; [|constructor].
           destruct (truthy (present (record_at p st i))) eqn:E; exact E.
        -- eapply Forall_impl; [exact B8|].
           intros e. now apply set_event_present.
      * intros k. rewrite materialized_app. rewrite elem_of_app.
        intros [Hk|Hk]; [|apply B9 in Hk; lia].
        destruct (truthy v); [|inversion Hk].
        destruct (truthy (present (record_at p st i))); simpl in Hk;
          apply list_elem_of_singleton in Hk; lia.
      * intros Hv'. rewrite materialized_app, B10 by exact Hv'.
        rewrite (A6 (B5 Hv')).
        now destruct (truthy (present (record_at p st i))).
Qed.

Lemma set_from_split p ds i d v st :
  ds !! i = Some d ->
  set_from p 0 ds v st
  = set_from p (S i) (drop (S i) ds)
      (set_one p i d (set_from p 0 (take i ds) v st).1
                     (set_from p 0 (take i ds) v st).2).1
      (set_one p i d (set_from p 0 (take i ds) v st).1
                     (set_from p 0 (take i ds) v st).2).2.
Proof.
  intros H. rewrite <- (take_drop_middle ds i d H) at 1.
  rewrite set_from_app. simpl.
  rewrite length_take_le by (apply lookup_lt_Some in H; lia).
  now destruct (set_one _ _ _ _ _).
Qed.

(** The validity that a line hands on is the one its statements leave
    in [is_valid]. *)
Lemma set_one_valid p i d v st :
  truthy v = true ->
  (set_one p i d v st).1
  = ((if truthy (present (record_at p st i)) then read d else set_default d)
       (value_strings (record_at p st i))
       (value_strings_length (record_at p st i))
       (value (record_at p st i)) v (world st)).1.2.
Proof.
  intros Hv. unfold set_one. rewrite Hv.
  destruct ((if truthy (present (record_at p st i)) then read d
             else set_default d) _ _ _ _ _) as [[val iv] w].
  reflexivity.
Qed.

Lemma arguments_set_unfold p st :
  arguments_set p st
  = (if truthy (set_from p 0 (schema p) 1 st).1 then AC_OK else AC_ERROR,
     atexit H_arguments_release (set_from p 0 (schema p) 1 st).2).
Proof. unfold arguments_set. now destruct (set_from _ _ _ _ _). Qed.

(** C5. When, during [arguments_set], the reader of a descriptor reports
    an invalid value, [arguments_set] returns [AC_ERROR]; no descriptor
    later in declaration order is processed: its record is as it was,
    and the descriptors whose reader or default provider ran are those
    up to the failing one, once each; every descriptor before the
    failing one, all of which were materialized, has [initialized] set
    to 1; the failing one is not marked. *)
Theorem arguments_set_first_failure p st i d :
  schema p !! i = Some d ->
  let before := set_from p 0 (take i (schema p)) 1 st in
  let r := record_at p before.2 i in
  truthy before.1 = true ->
  truthy (present r) = true ->
  truthy (read d (value_strings r) (value_strings_length r) (value r)
            before.1 (world before.2)).1.2 = false ->
  let after := arguments_set p st in
  after.1 = AC_ERROR
  /\ (forall k, (i < k)%nat -> arguments after.2 !! k = arguments st !! k)
  /\ materialized (trace after.2) = materialized (trace st) ++ seq 0 (S i)
  /\ (forall k, (k < i)%nat -> (k < length (arguments st))%nat ->
       initialized (record_at p after.2 k) = 1)
  /\ initialized (record_at p after.2 i) = initialized (record_at p st i).
Proof.
  intros Hd before r Hvalid Hpresent Hread after.
  assert (i < length (schema p))%nat as Hi by (eapply lookup_lt_Some, Hd).
  destruct before as [vb stb] eqn:Hb. simpl in *.
  destruct (set_one p i d vb stb) as [v1 st1] eqn:H1.
  assert (truthy v1 = false) as Hv1.
  { pose proof (set_one_valid p i d vb stb Hvalid) as E.
    rewrite H1 in E. simpl in E. fold r in E. rewrite Hpresent in E.
    now rewrite E. }
  assert (after = (AC_ERROR, atexit H_arguments_release st1)) as ->.
  { unfold after. rewrite arguments_set_unfold.
    rewrite (set_from_split p (schema p) i d 1 st Hd).
    fold before. rewrite Hb. simpl. rewrite H1. simpl.
    rewrite set_from_skip by exact Hv1. simpl. now rewrite Hv1. }
  simpl.
  apply set_from_spec in Hb.
  destruct Hb as (B1 & B2 & B3 & B4 & B5 & B6 & evs & B7 & B8 & B9 & B10).
  rewrite length_take_le in B3, B6, B9, B10 by lia. simpl in *.
  apply set_one_spec in H1.
  destruct H1 as (A1 & A2 & A3 & A4 & A5 & A6 & A7 & A8).
  split; [reflexivity|]. split; [|split; [|split]].
  - intros k Hk. rewrite A3 by lia. apply B3. lia.
  - rewrite A5, Hvalid. fold r. rewrite Hpresent.
    rewrite B7, !materialized_app, B10 by exact Hvalid.
    simpl. rewrite <- app_assoc. f_equal.
    change (0%nat :: seq 1 i) with (seq 0 (S i)). now rewrite seq_S.
  - intros k Hk Hlen.
    change (initialized (record_at p st1 k) = 1).
    rewrite (record_at_lookup p stb st1) by (apply A3; lia).
    apply B6; [exact Hvalid|lia|exact Hlen].
  - change (initialized (record_at p st1 i) = initialized (record_at p st i)).
    rewrite (A8 Hv1). f_equal. apply record_at_lookup, B3. lia.
Qed.

Lemma materialized_elem evs k :
  k ∈ materialized evs <-> EvRead k ∈ evs \/ EvDefault k ∈ evs.
Proof.
  induction evs as [|e evs IH]; simpl.
  - split; [intros H; inversion H|intros [H|H]; inversion H].
  - rewrite !elem_of_cons.
    destruct e; simpl; rewrite ?elem_of_cons, IH;
      intuition (try discriminate; try congruence).
Qed.

(** C7 (as amended).  For a descriptor that was not passed on the
    command line and whose default provider yields a value,
    [arguments_set] never runs the reader of that descriptor, and it
    sets the [initialized] flag of the descriptor to 1 provided no
    descriptor before it in declaration order reported an invalid
    value, which is to say that [is_valid] still holds when the line
    of the descriptor is reached; after such a failure, be it of a
    reader or of a default provider, the descriptor is skipped:
    neither its default provider nor its reader runs, its record, and
    with it the flag, is left as it was, and [arguments_set] returns
    [AC_ERROR]. *)
Theorem arguments_set_default p st i d :
  schema p !! i = Some d ->
  (i < length (arguments st))%nat ->
  truthy (present (record_at p st i)) = false ->
  (forall vs len t iv w,
      truthy iv = true -> truthy (set_default d vs len t iv w).1.2 = true) ->
  let after := arguments_set p st in
  (exists evs, trace after.2 = trace st ++ evs /\ EvRead i ∉ evs)
  /\ (truthy (set_from p 0 (take i (schema p)) 1 st).1 = true ->
      initialized (record_at p after.2 i) = 1)
  /\ (truthy (set_from p 0 (take i (schema p)) 1 st).1 = false ->
      after.1 = AC_ERROR
      /\ arguments after.2 !! i = arguments st !! i
      /\ exists evs,
           trace after.2 = trace st ++ evs
           /\ (EvDefault i ∉ evs) /\ (EvRead i ∉ evs)).
Proof.
  intros Hd Hi Habsent Hdefault after. unfold after.
  rewrite arguments_set_unfold. simpl. split; [|split].
  - destruct (set_from p 0 (schema p) 1 st) as [v' st'] eqn:Hs.
    apply set_from_spec in Hs.
    destruct Hs as (_ & _ & _ & _ & _ & _ & evs & E1 & E2 & _).
    exists evs. split; [exact E1|]. intros Hin.
    rewrite Forall_forall in E2. apply E2 in Hin. simpl in Hin. congruence.
  - intros Hvalid.
    rewrite (set_from_split p (schema p) i d 1 st Hd).
    destruct (set_from p 0 (take i (schema p)) 1 st) as [vb stb] eqn:Hb.
    simpl in *.
    apply set_from_spec in Hb.
    destruct Hb as (B1 & B2 & B3 & B4 & _).
    pose proof (set_one_valid p i d vb stb Hvalid) as Hv1.
    rewrite B4, Habsent in Hv1.
    destruct (set_one p i d vb stb) as [v1 st1] eqn:H1. simpl in *.
    assert (truthy v1 = true) as Tv1 by (rewrite Hv1; now apply Hdefault).
    apply set_one_spec in H1.
    destruct H1 as (A1 & A2 & _ & _ & _ & _ & A7 & _).
    destruct (set_from p (S i) _ v1 st1) as [v2 st2] eqn:H2. simpl.
    apply set_from_spec in H2. destruct H2 as (_ & _ & C3 & _).
    change (initialized (record_at p st2 i) = 1).
    rewrite (record_at_lookup p st1 st2) by (apply C3; lia).
    apply A7; [exact Tv1|lia].
  - intros Hinvalid.
    rewrite (set_from_split p (schema p) i d 1 st Hd).
    destruct (set_from p 0 (take i (schema p)) 1 st) as [vb stb] eqn:Hb.
    simpl in Hinvalid |- *.
    rewrite (set_one_skip p i d vb stb Hinvalid). simpl.
    rewrite (set_from_skip p (S i) _ vb stb Hinvalid). simpl.
    rewrite Hinvalid.
    apply set_from_spec in Hb.
    destruct Hb as (_ & _ & B3 & _ & _ & _ & evs & B7 & _ & B9 & _).
    assert (length (take i (schema p)) = i) as Hlen
        by (apply length_take_le; apply lookup_lt_Some in Hd; lia).
    rewrite Hlen in B3, B9.
    split; [reflexivity|]. split; [apply B3; lia|].
    exists evs. split; [exact B7|].
    split; intros Hin;
      (assert (i ∈ materialized evs) as Hm
         by (apply materialized_elem; auto));
      apply B9 in Hm; lia.
Qed.

End Materializer.

(** ** Release and the whole run *)

Section Pipeline.

Context {V W : Type}.
Implicit Types (p : program V W) (st : state V W) (d : descriptor V W).
Implicit Types (ds : list (descriptor V W)) (i k : nat).

Lemma release_one_spec p i d st :
  (forall k, initialized (record_at p (release_one p i d st) k)
             = initialized (record_at p st k))
  /\ released (trace (release_one p i d st))
     = released (trace st)
       ++ (if truthy (initialized (record_at p st i)) then [i] else []).
Proof.
  unfold release_one. destruct (truthy (initialized (record_at p st i))).
  - destruct (release d _ _) as [v w]. split.
    + intros k.
      change (initialized (record_at p (update_record i (set_value v) st) k)
              = initialized (record_at p st k)).
      now apply (field_update_record initialized).
    + simpl. now rewrite released_app.
  - split; [reflexivity|]. now rewrite app_nil_r.
Qed.

Lemma release_from_spec p i ds st :
  (forall k, initialized (record_at p (release_from p i ds st) k)
             = initialized (record_at p st k))
  /\ released (trace (release_from p i ds st))
     = released (trace st)
       ++ filter (fun k => truthy (initialized (record_at p st k)) = true)
                 (seq i (length ds)).
Proof.
  revert i st. induction ds as [|d ds IH]; intros i st; simpl.
  - split; [reflexivity|]. now rewrite app_nil_r.
  - destruct (release_one_spec p i d st) as [A1 A2].
    destruct (IH (S i) (release_one p i d st)) as [B1 B2]. split.
    + intros k. now rewrite B1.
    + rewrite B2, A2, <- app_assoc. f_equal.
      rewrite filter_cons.
      rewrite (list_filter_iff _
                 (fun k => truthy (initialized (record_at p st k)) = true))
        by (intros k; now rewrite A1).
      destruct (truthy (initialized (record_at p st i))) eqn:E.
      * now rewrite decide_True by reflexivity.
      * now rewrite decide_False by discriminate.
Qed.

Lemma initialized_lines_ext p st st' :
  (forall k, initialized (record_at p st' k) = initialized (record_at p st k)) ->
  initialized_lines p st' = initialized_lines p st.
Proof.
  intros H. unfold initialized_lines. apply list_filter_iff.
  intros k. now rewrite H.
Qed.

Lemma initialized_lines_none p st :
  (forall k, initialized (record_at p st k) = 0) ->
  initialized_lines p st = [].
Proof.
  intros H. unfold initialized_lines.
  induction (seq 0 (length (schema p))) as [|x l IH]; [reflexivity|].
  rewrite filter_cons, decide_False; [exact IH|].
  rewrite H. discriminate.
Qed.

Lemma released_set_events p st evs :
  Forall (set_event p st) evs -> released evs = [].
Proof.
  induction 1 as [|e evs He _ IH]; [reflexivity|].
  destruct e; simpl in *; tauto.
Qed.

(** [main] either returns before [arguments_set], with nothing
    registered and nothing initialised, or after it, with the release
    pass registered on top of [teardown]; no [release] runs inside
    [main]. *)
Lemma main_registers p fuel argv s0 o st :
  atexit_handlers s0 = [] ->
  main p fuel argv s0 = Some (o, st) ->
  released (trace st) = released (trace s0)
  /\ match o with
     | Exit_set_error | Exit_run _ =>
         atexit_handlers st = [H_arguments_release; H_teardown]
     | _ =>
         atexit_handlers st = []
         /\ forall k, initialized (record_at p st k) = 0
     end.
Proof.
  intros Hat. unfold main.
  destruct (arguments_read p fuel argv 1 (arguments_initialize p s0))
    as [[[status nextarg] str]|] eqn:Hread; [|discriminate].
  rewrite arguments_read_from in Hread by lia.
  apply arguments_read_loop_read_frame in Hread.
  destruct Hread as (R1 & R2 & R3 & R4 & R5 & R6).
  assert (forall k, initialized (record_at p str k) = 0) as Hzero.
  { intros k. now rewrite R6, record_at_initialize. }
  simpl in R2, R3.
  assert (atexit_handlers str = []) as Hat' by congruence.
  destruct (status =? AC_HELP); [intros [= <- <-]; auto|].
  destruct (status =? AC_ERROR); [intros [= <- <-]; auto|].
  destruct (missing_from p 0 (schema p) str); [intros [= <- <-]; auto|].
  destruct (setup p argv (world str)) as [result w].
  destruct (negb (result =? 0)).
  { intros [= <- <-]. simpl. rewrite released_app, app_nil_r. auto. }
  rewrite arguments_set_unfold.
  destruct (set_from p 0 (schema p) 1 _) as [v stf] eqn:Hset. simpl.
  apply set_from_spec in Hset.
  destruct Hset as (S1 & _ & _ & _ & _ & _ & evs & S2 & S3 & _).
  simpl in S1, S2. apply (released_set_events p) in S3.
  assert (released (trace stf) = released (trace s0)) as Hrel.
  { rewrite S2, !released_app, S3. simpl. now rewrite !app_nil_r. }
  destruct (_ =? AC_OK).
  - destruct (run p argv _ _) as [result' w']. intros [= <- <-]. simpl.
    rewrite released_app, app_nil_r. split; [exact Hrel|].
    now rewrite S1, Hat'.
  - intros [= <- <-]. simpl. split; [exact Hrel|]. now rewrite S1, Hat'.
Qed.

Lemma fmap_value_alter (l : list (arg_record V)) i (v : V) :
  value <$> alter (set_value v) i l = <[i := v]> (value <$> l).
Proof.
  revert i. induction l as [|r l IH]; intros [|i]; simpl; try reflexivity.
  now rewrite <- IH.
Qed.

(** A line whose flag is set has a record. *)
Lemma initialized_lookup p st i :
  truthy (initialized (record_at p st i)) = true ->
  arguments st !! i = Some (record_at p st i).
Proof.
  unfold record_at. destruct (arguments st !! i) as [r|]; [reflexivity|].
  simpl. discriminate.
Qed.

(** The release pass from line [i] on is the releasers of the lines
    whose flag is set, each invoked once, in the order of the table. *)
Lemma release_from_effect p pre ds st :
  schema p = pre ++ ds ->
  (value <$> arguments (release_from p (length pre) ds st),
   world (release_from p (length pre) ds st))
  = run_releasers p
      (filter (fun k => truthy (initialized (record_at p st k)) = true)
         (seq (length pre) (length ds)))
      (value <$> arguments st) (world st).
Proof.
  revert pre st. induction ds as [|d ds IH]; intros pre st Hsch;
    [reflexivity|].
  cbn [release_from length seq].
  assert (schema p !! length pre = Some d) as Hd
      by (rewrite Hsch; now apply list_lookup_middle).
  specialize (IH (pre ++ [d]) (release_one p (length pre) d st)).
  rewrite length_app in IH. simpl in IH. rewrite Nat.add_1_r in IH.
  rewrite IH by (rewrite Hsch, <- app_assoc; reflexivity).
  destruct (release_one_spec p (length pre) d st) as [A1 _].
  rewrite (list_filter_iff _
             (fun k => truthy (initialized (record_at p st k)) = true))
    by (intros k; now rewrite A1).
  rewrite filter_cons. unfold release_one.
  destruct (truthy (initialized (record_at p st (length pre)))) eqn:E.
  - rewrite decide_True by reflexivity. cbn [run_releasers].
    rewrite Hd, list_lookup_fmap, (initialized_lookup p st _ E).
    cbn [fmap option_fmap option_map].
    destruct (release d _ _) as [v w]. simpl.
    now rewrite fmap_value_alter.
  - rewrite decide_False by discriminate. reflexivity.
Qed.

Lemma arguments_release_effect p st :
  (value <$> arguments (arguments_release p st),
   world (arguments_release p st))
  = run_releasers p (initialized_lines p st)
      (value <$> arguments st) (world st).
Proof. exact (release_from_effect p [] (schema p) st eq_refl). Qed.

Lemma run_releasers_app p (l1 l2 : list nat) (vs : list V) (w : W) :
  run_releasers p (l1 ++ l2) vs w
  = run_releasers p l2 (run_releasers p l1 vs w).1
      (run_releasers p l1 vs w).2.
Proof.
  revert vs w. induction l1 as [|i l1 IH]; intros vs w; [reflexivity|].
  simpl. destruct (schema p !! i) as [d|]; [|apply IH].
  destruct (vs !! i) as [v|]; [|apply IH].
  destruct (release d v w) as [v' w']. apply IH.
Qed.

(** C3. Whatever the outcome of the run, at the end of the process the
    descriptors whose [release] ran are the descriptors whose record
    has [initialized] set, in declaration order: each of them was
    released exactly once, and no descriptor whose flag is clear was
    released.  The flags are those that [main] left, and the values
    and the state of the program at the end are what the releasers of
    those descriptors, invoked once each in that order on what [main]
    left, make of them, with [teardown] behind them where it was
    registered.  With arities that are [int]s the run does come to
    its end, provided the help printer returns where help is
    handled. *)
Theorem releasers_run_once p fuel argv w :
  (forall o st,
      process p fuel argv w = Some (o, st) ->
      released (trace st) = initialized_lines p st
      /\ NoDup (released (trace st))
      /\ (forall i, i ∈ released (trace st)
                    <-> truthy (initialized (record_at p st i)) = true
                        /\ (i < length (schema p))%nat)
      /\ exists st1,
           main p fuel argv (State [] w [] []) = Some (o, st1)
           /\ initialized_lines p st = initialized_lines p st1
           /\ (value <$> arguments st, world st)
              = let '(vs, w') :=
                  run_releasers p (initialized_lines p st1)
                    (value <$> arguments st1) (world st1) in
                (vs, match o with
                     | Exit_set_error | Exit_run _ => teardown p w'
                     | _ => w'
                     end))
  /\ (forall h,
        Forall arity_ok (schema p) ->
        Z.of_nat (length argv) <= INT_MAX ->
        (truthy (ARGUMENTS_PRINT_HELP p) = true ->
         is_Some (arguments_print_help p h)) ->
        (length argv + h < fuel)%nat ->
        is_Some (process p fuel argv w)).
Proof.
  split.
  - intros o st. unfold process.
    destruct (main p fuel argv _) as [[o' st']|] eqn:Hmain; [|discriminate].
    intros [= <- <-].
    apply main_registers in Hmain; [|reflexivity].
    destruct Hmain as [Hrel Hcases]. simpl in Hrel.
    assert (atexit_handlers st' = [] /\
            (forall k, initialized (record_at p st' k) = 0) /\
            match o' with Exit_set_error | Exit_run _ => False | _ => True end
            \/ atexit_handlers st' = [H_arguments_release; H_teardown] /\
               match o' with Exit_set_error | Exit_run _ => True | _ => False end)
      as Hsplit by (destruct o'; tauto).
    clear Hcases.
    assert (released (trace (run_atexit p st'))
            = initialized_lines p (run_atexit p st')
            /\ initialized_lines p (run_atexit p st')
               = initialized_lines p st'
            /\ (value <$> arguments (run_atexit p st'),
                world (run_atexit p st'))
               = (let '(vs, w') :=
                    run_releasers p (initialized_lines p st')
                      (value <$> arguments st') (world st') in
                  (vs, match o' with
                       | Exit_set_error | Exit_run _ => teardown p w'
                       | _ => w'
                       end))) as (Heq & Hflags & Heff).
    { unfold run_atexit.
      destruct Hsplit as [(-> & Hzero & Ho)|[-> Ho]]; simpl.
      - rewrite Hrel, (initialized_lines_none p st' Hzero). simpl.
        split; [reflexivity|]. split; [reflexivity|].
        destruct o'; try reflexivity; contradiction.
      - destruct (release_from_spec p 0 (schema p) st') as [A1 A2].
        pose proof (release_from_effect p [] (schema p) st' eq_refl)
          as Heff.
        unfold arguments_release. simpl in Heff.
        fold (initialized_lines p st') in Heff.
        assert (initialized_lines p
                  (log EvTeardown
                     (with_world
                        (teardown p (world (release_from p 0 (schema p) st')))
                        (release_from p 0 (schema p) st')))
                = initialized_lines p st') as Hfl
            by (apply initialized_lines_ext; intros k; apply A1).
        split; [|split; [exact Hfl|]].
        + rewrite released_app, app_nil_r, A2, Hrel. simpl.
          symmetry. exact Hfl.
        + destruct (run_releasers p _ _ _) as [vs w'].
          injection Heff as -> ->.
          destruct o'; try reflexivity; contradiction. }
    split; [exact Heq|]. rewrite Heq.
    split; [unfold initialized_lines; apply NoDup_filter, NoDup_seq|].
    split.
    + intros i. unfold initialized_lines.
      rewrite list_elem_of_filter, elem_of_seq.
      split; intros [H1 H2]; (split; [exact H1|lia]).
    + exists st'. split; [reflexivity|]. split; [exact Hflags|exact Heff].
  - intros h Hok Hargc Hhelp Hfuel. unfold process, main.
    destruct (arguments_read_loop_total p h fuel argv 1
                (arguments_initialize p (State [] w [] [])) Hok Hargc Hhelp)
      as [[[status nextarg] str] Hread]; [lia|lia|].
    rewrite arguments_read_from by lia. rewrite Hread.
    destruct (status =? AC_HELP); [eauto|].
    destruct (status =? AC_ERROR); [eauto|].
    destruct (missing_from p 0 (schema p) str); [eauto|].
    destruct (setup p argv (world str)) as [result w'].
    destruct (negb (result =? 0)); [eauto|].
    destruct (arguments_set p _) as [status' sts].
    destruct (status' =? AC_OK); [|eauto].
    destruct (run p argv _ _). eauto.
Qed.

Lemma missing_from_Some p i0 ds st i :
  missing_from p i0 ds st = Some i ->
  exists d,
    (i0 <= i)%nat /\ ds !! (i - i0)%nat = Some d
    /\ truthy (is_required d (arguments st)) = true
    /\ truthy (present (record_at p st i)) = false.
Proof.
  revert i0. induction ds as [|d ds IH]; intros i0; simpl; [discriminate|].
  destruct (truthy (is_required d (arguments st))) eqn:E1;
    destruct (truthy (present (record_at p st i0))) eqn:E2; simpl;
    try (intros H; apply IH in H; destruct H as (d' & H1 & H2 & H3);
         exists d'; split; [lia|];
         replace (i - i0)%nat with (S (i - S i0)) by lia; now split).
  intros [= <-]. exists d. rewrite Nat.sub_diag. auto.
Qed.

Lemma missing_from_None p i0 ds st k d :
  missing_from p i0 ds st = None ->
  ds !! k = Some d ->
  truthy (is_required d (arguments st)) = true ->
  truthy (present (record_at p st (i0 + k))) = true.
Proof.
  revert i0 k. induction ds as [|d' ds IH]; intros i0 k; simpl; [discriminate|].
  destruct k as [|k]; simpl.
  - intros H [= ->] Hreq. rewrite Nat.add_0_r. rewrite Hreq in H.
    destruct (truthy (present (record_at p st i0))); [reflexivity|discriminate].
  - intros H Hk Hreq.
    destruct (_ && _); [discriminate|].
    replace (i0 + S k)%nat with (S i0 + k)%nat by lia. eapply IH; eauto.
Qed.

(** C4 (as amended).  When matching has returned [AC_OK], [main] returns
    from the required check, with the exit code
    [ARGUMENTS_PARAMETER_MISSING], if and only if the required
    expression of some descriptor is true while its [present] flag is
    clear, both read once all tokens have been matched; when matching
    did not return [AC_OK], [main] does not return from that check.
    The check runs before [setup] and before [arguments_set]: when it
    fails, the state is the one that matching left, so that no reader
    and no default provider has run and nothing is registered for the
    exit. *)
Theorem main_missing_required p fuel argv s0 status nextarg st :
  arguments_read p fuel argv 1 (arguments_initialize p s0)
  = Some (status, nextarg, st) ->
  ((exists i st', main p fuel argv s0 = Some (Exit_missing i, st'))
   <-> status = AC_OK
       /\ exists i d,
            schema p !! i = Some d
            /\ truthy (is_required d (arguments st)) = true
            /\ truthy (present (record_at p st i)) = false)
  /\ (forall i st',
        main p fuel argv s0 = Some (Exit_missing i, st') ->
        st' = st
        /\ exit_code (Exit_missing i) = ARGUMENTS_PARAMETER_MISSING
        /\ materialized (trace st') = materialized (trace s0)
        /\ atexit_handlers st' = atexit_handlers s0).
Proof.
  intros Hread.
  assert (forall i st',
            main p fuel argv s0 = Some (Exit_missing i, st') ->
            st' = st /\ status = AC_OK
            /\ missing_from p 0 (schema p) st = Some i) as Hinv.
  { intros i st'. unfold main. rewrite Hread.
    rewrite arguments_read_from in Hread by lia.
    apply arguments_read_loop_status in Hread.
    destruct (Z.eqb_spec status AC_HELP); [discriminate|].
    destruct (Z.eqb_spec status AC_ERROR); [discriminate|].
    assert (status = AC_OK) by tauto.
    destruct (missing_from p 0 (schema p) st) as [i'|].
    - intros [= <- <-]. auto.
    - destruct (setup p argv (world st)) as [result w].
      destruct (negb (result =? 0)); [discriminate|].
      destruct (arguments_set p _) as [status' sts].
      destruct (status' =? AC_OK); [|discriminate].
      destruct (run p argv _ _). discriminate. }
  split; [split|].
  - intros (i & st' & Hmain). apply Hinv in Hmain.
    destruct Hmain as (_ & Hok & Hmiss). split; [exact Hok|].
    apply missing_from_Some in Hmiss.
    destruct Hmiss as (d & _ & H1 & H2 & H3).
    rewrite Nat.sub_0_r in H1. eauto.
  - intros (-> & i & d & Hd & Hreq & Habs).
    destruct (missing_from p 0 (schema p) st) as [i'|] eqn:Hmiss.
    + exists i', st. unfold main. rewrite Hread. simpl. now rewrite Hmiss.
    + pose proof (missing_from_None p 0 _ st i d Hmiss Hd Hreq) as Hp.
      simpl in Hp. congruence.
  - intros i st' Hmain. apply Hinv in Hmain. destruct Hmain as (-> & _ & _).
    rewrite arguments_read_from in Hread by lia.
    apply arguments_read_loop_read_frame in Hread.
    destruct Hread as (_ & R2 & _ & R4 & _). auto.
Qed.

Lemma is_help_token_true tok :
  tok = "--help"%string \/ tok = "-h"%string -> is_help_token tok = true.
Proof. intros [-> | ->]; reflexivity. Qed.

(** X22. When the scan reaches a token that is [--help] or [-h], which
    is then not a value of an earlier flag, and the help printer
    returns, [arguments_read] stops at that token and returns
    [AC_HELP]: the position stays at the token and the records are as
    they were on arrival, so that no later token is matched or taken
    as a value.  In [main] no materialization follows: it returns 0 at
    once, no reader and no default provider having run. *)
Theorem help_short_circuits p argv start st0 j st h :
  truthy (ARGUMENTS_PRINT_HELP p) = true ->
  is_Some (arguments_print_help p h) ->
  1 <= start ->
  j < Z.of_nat (length argv) ->
  reaches p argv start st0 j st ->
  token_at argv j = "--help"%string \/ token_at argv j = "-h"%string ->
  exists n, forall fuel, (n < fuel)%nat ->
    arguments_read p fuel argv start st0
    = Some (AC_HELP, j, log EvPrintHelp st)
    /\ arguments (log EvPrintHelp st) = arguments st
    /\ forall s0,
         start = 1 -> st0 = arguments_initialize p s0 ->
         main p fuel argv s0 = Some (Exit_help, log EvPrintHelp st)
         /\ exit_code Exit_help = 0
         /\ materialized (trace (log EvPrintHelp st))
            = materialized (trace s0)
         /\ atexit_handlers (log EvPrintHelp st) = atexit_handlers s0.
Proof.
  intros Hhelp Hprinter Hstart Hj Hreach Htok.
  destruct (arguments_read_stops_help p argv start st0 j st st h
              Hstart Hreach Hj) as [n Hn]; [|exact Hprinter|].
  { unfold arguments_read_body.
    now rewrite Hhelp, (is_help_token_true _ Htok). }
  exists n. intros fuel Hfuel. specialize (Hn fuel Hfuel).
  split; [exact Hn|]. split; [reflexivity|].
  intros s0 -> ->. unfold main. rewrite Hn. simpl.
  split; [reflexivity|]. split; [reflexivity|].
  apply reaches_frame in Hreach. destruct Hreach as (_ & R2 & R3).
  rewrite materialized_app, app_nil_r, R3, R2. auto.
Qed.

End Pipeline.

(** ** Which line of the table a long form selects *)

Section Selection.

Context {V W : Type}.
Implicit Types (p : program V W) (d : descriptor V W).
Implicit Types (ds : list (descriptor V W)).

Lemma dashed_inj (a b : string) :
  dash_free a -> dash_free b -> dashed a = dashed b -> a = b.
Proof.
  revert b. induction a as [|x a IH]; intros [|y b]; simpl;
    try discriminate; [reflexivity|].
  intros [Hx Ha] [Hy Hb] [= Hc Hr]. f_equal; [|now apply IH].
  destruct (Z.eqb_spec (char_code x) underscore_code) as [Ex|Ex];
    destruct (Z.eqb_spec (char_code y) underscore_code) as [Ey|Ey].
  - apply char_code_inj. congruence.
  - subst y. now elim Hy.
  - subst x. now elim Hx.
  - exact Hc.
Qed.

Lemma long_form_inj (a b : string) :
  dash_free a -> dash_free b -> long_form a = long_form b -> a = b.
Proof.
  unfold long_form. intros Ha Hb [= H]. now apply dashed_inj.
Qed.

Lemma name_unique ds d d' :
  NoDup (name <$> ds) -> d ∈ ds -> d' ∈ ds -> name d = name d' -> d = d'.
Proof.
  induction ds as [|x ds IH]; simpl; intros Hnd Hd Hd' Hn.
  - inversion Hd.
  - apply NoDup_cons in Hnd. destruct Hnd as [Hx Hnd].
    apply elem_of_cons in Hd. apply elem_of_cons in Hd'.
    destruct Hd as [->|Hd], Hd' as [->|Hd']; auto.
    + exfalso. apply Hx. rewrite Hn. now apply list_elem_of_fmap_2.
    + exfalso. apply Hx. rewrite <- Hn. now apply list_elem_of_fmap_2.
Qed.

Lemma long_form_not_help (n : string) :
  name_ok n -> n <> "help"%string ->
  is_help_token (long_form n) = false.
Proof.
  intros [Hc Hn] Hne. unfold is_help_token.
  apply orb_false_iff. split; [|reflexivity].
  apply Z.eqb_neq. intros H.
  apply (strcmp_eq _ (long_form "help")) in H.
  - apply long_form_inj in H; [contradiction|exact Hn|].
    simpl. repeat split; discriminate.
  - now apply cstring_long_form.
  - simpl. repeat split; discriminate.
Qed.

Lemma matches_long_form d :
  name_ok (name d) -> matches (long_form (name d)) d = true.
Proof.
  intros [Hc _]. unfold matches. apply orb_true_iff. left.
  apply Z.eqb_eq. apply arguments_cmp_zero_iff; auto.
  now apply cstring_long_form.
Qed.

(** In a table with unique names where no short alias spells the long
    form of [d], the first line that the long form of [d] matches is
    [d]. *)
Lemma select_long_form ds d :
  Forall (fun d' => name_ok (name d') /\ short_ok (short d')) ds ->
  NoDup (name <$> ds) ->
  d ∈ ds ->
  (forall d', d' ∈ ds -> short d' <> Some (long_form (name d))) ->
  exists i, ds !! i = Some d /\ select ds (long_form (name d)) = Some (i, d).
Proof.
  intros Hok Hnd Hd Halias. rewrite Forall_forall in Hok.
  destruct (Hok d Hd) as [Hname _].
  assert (cstring (long_form (name d))) as Htok
      by (apply cstring_long_form, Hname).
  destruct (list_find_elem_of (fun d' => matches (long_form (name d)) d' = true)
              ds d Hd (matches_long_form d Hname)) as [[i d'] Hfind].
  pose proof Hfind as Hsome. apply list_find_Some in Hsome.
  destruct Hsome as (Hi & Hm & _).
  assert (d' ∈ ds) as Hd' by (eapply list_elem_of_lookup_2, Hi).
  destruct (Hok d' Hd') as [[Hc' Hf'] Hs'].
  assert (d' = d) as ->; [|exists i; split; [exact Hi|exact Hfind]].
  unfold matches in Hm. apply orb_true_iff in Hm. destruct Hm as [Hm|Hm].
  - apply Z.eqb_eq in Hm. apply arguments_cmp_zero_iff in Hm; auto.
    apply long_form_inj in Hm; [|apply Hname|exact Hf'].
    symmetry. eapply name_unique; eauto.
  - exfalso. specialize (Halias d' Hd').
    destruct (short d') as [s|] eqn:Es; [|discriminate].
    apply Z.eqb_eq in Hm. apply strcmp_eq in Hm; [|exact Htok|exact Hs'].
    subst s. now apply Halias.
Qed.

(** C2 (as amended).  [arguments_cmp] returns 0 on the token that is two
    dashes followed by the name with every underscore turned into a
    dash, and non-zero on every other token.  In a table whose names
    are identifiers and unique, that token selects the descriptor of
    the name, whatever the order of the table, provided no descriptor
    has the token as its short alias and, when help is handled, the
    name is not [help]. *)
Theorem long_form_selects ds d :
  Forall (fun d' => name_ok (name d') /\ short_ok (short d')) ds ->
  NoDup (name <$> ds) ->
  d ∈ ds ->
  (forall d', d' ∈ ds -> short d' <> Some (long_form (name d))) ->
  arguments_cmp (long_form (name d)) (name d) = 0
  /\ (forall tok, cstring tok -> tok <> long_form (name d) ->
       arguments_cmp tok (name d) <> 0)
  /\ forall p,
       schema p ≡ₚ ds ->
       (truthy (ARGUMENTS_PRINT_HELP p) = true -> name d <> "help"%string) ->
       exists i,
         schema p !! i = Some d
         /\ select (schema p) (long_form (name d)) = Some (i, d)
         /\ forall argv j st,
              token_at argv j = long_form (name d) ->
              arguments_read_body p argv j st
              = matched_branch argv j i d st.
Proof.
  intros Hok Hnd Hd Halias.
  assert (name_ok (name d)) as Hname.
  { rewrite Forall_forall in Hok. now apply Hok. }
  split; [|split].
  - apply arguments_cmp_zero_iff; [|apply Hname|reflexivity].
    apply cstring_long_form, Hname.
  - intros tok Htok Hne H. apply Hne.
    apply arguments_cmp_zero_iff in H; [exact H|exact Htok|apply Hname].
  - intros p Hperm Hhelp.
    destruct (select_long_form (schema p) d) as (i & Hi & Hsel).
    + now rewrite Hperm.
    + now rewrite Hperm.
    + now rewrite Hperm.
    + intros d' Hd'. apply Halias. now rewrite <- Hperm.
    + exists i. split; [exact Hi|]. split; [exact Hsel|].
      intros argv j st Htok. apply arguments_read_body_matched.
      * rewrite Htok. destruct (truthy (ARGUMENTS_PRINT_HELP p)); [|reflexivity].
        simpl. apply long_form_not_help; auto.
      * now rewrite Htok.
Qed.

End Selection.

(** ** The line-wrap primitive *)

Section LineWrap.

Local Open Scope nat_scope.

Context {mbstate_t : Type} (mbs_initial : mbstate_t).
Context (mbrlen : list ascii -> nat -> mbstate_t -> mbrlen_result * mbstate_t).
Hypothesis mbrlen_ok : mbrlen_ascii_ok mbs_initial mbrlen.

Lemma byte_at_drop (s : list ascii) (i : nat) :
  i < length s -> drop i s = byte_at s i :: drop (S i) s.
Proof.
  intros H. unfold byte_at.
  destruct (lookup_lt_is_Some_2 s i H) as [c Hc]. rewrite Hc. simpl.
  now apply drop_S.
Qed.

Lemma byte_at_Forall (P : ascii -> Prop) (s : list ascii) (i : nat) :
  Forall P s -> i < length s -> P (byte_at s i).
Proof.
  intros HP H. unfold byte_at.
  destruct (lookup_lt_is_Some_2 s i H) as [c Hc]. rewrite Hc. simpl.
  rewrite Forall_forall in HP. apply HP. eapply list_elem_of_lookup_2, Hc.
Qed.

Lemma mbrlen_C_ok : mbrlen_ascii_ok tt mbrlen_C.
Proof.
  intros c rest n [H1 H2] Hn. unfold mbrlen_C.
  destruct n as [|n]; [lia|].
  destruct (Z.eqb_spec (char_code c) 0); [lia|].
  destruct (Z.ltb_spec (char_code c) 128); [reflexivity|lia].
Qed.

(** On 7-bit text the loop does not depend on the locale: it runs as
    with the single-byte [mbrlen_C]. *)
Lemma arguments_get_line_loop_seven_bit (s : list ascii) (M : nat) fuel
    len ws ss l i res :
  Forall seven_bit s ->
  arguments_get_line_loop mbrlen fuel s (length s) M mbs_initial
    len ws ss l i res
  = arguments_get_line_loop mbrlen_C fuel s (length s) M tt
      len ws ss l i res.
Proof.
  intros Hs. revert len ws ss l i res.
  induction fuel as [|fuel IH]; intros len ws ss l i res; simpl; [reflexivity|].
  destruct (Nat.ltb_spec i (length s)) as [Hi|Hi]; simpl; [|reflexivity].
  destruct (l <? M); [|reflexivity].
  destruct (_ =? newline_code)%Z; [reflexivity|].
  rewrite (byte_at_drop s i Hi).
  pose proof (byte_at_Forall _ s i Hs Hi) as Hc.
  rewrite (mbrlen_ok _ _ _ Hc) by lia.
  rewrite (mbrlen_C_ok _ _ _ Hc) by lia.
  destruct (if negb ss then (l, i) else (len, res)) as [len1 res1].
  destruct (if _ && _ then _ else _) as [len2 res2].
  destruct (if _ =? _ then _ else _) as [len3 res3].
  apply IH.
Qed.

Lemma arguments_get_line_seven_bit (s : list ascii) (M : nat) :
  Forall seven_bit s ->
  arguments_get_line mbs_initial mbrlen s M
  = arguments_get_line tt mbrlen_C s M.
Proof.
  intros Hs. unfold arguments_get_line.
  now rewrite arguments_get_line_loop_seven_bit.
Qed.

Lemma wrapped_lines_seven_bit fuel (c : list ascii) (M : nat) :
  Forall seven_bit c ->
  wrapped_lines mbs_initial mbrlen fuel c M
  = wrapped_lines tt mbrlen_C fuel c M.
Proof.
  revert c. induction fuel as [|fuel IH]; intros c Hc; simpl; [reflexivity|].
  destruct c as [|x c]; [reflexivity|].
  rewrite arguments_get_line_seven_bit by exact Hc.
  destruct (arguments_get_line tt mbrlen_C (x :: c) M) as [n len].
  rewrite IH by now apply Forall_drop.
  reflexivity.
Qed.

Lemma word_char_not_newline (c : ascii) :
  word_char c -> (char_code c =? newline_code)%Z = false.
Proof.
  intros [_ H]. unfold isspace in H. apply orb_false_iff in H.
  destruct H as [H _]. apply Z.eqb_neq. intros E. rewrite E in H.
  discriminate.
Qed.

Lemma word_char_not_space (c : ascii) :
  word_char c -> (char_code c =? space_code)%Z = false.
Proof.
  intros [_ H]. unfold isspace in H. apply orb_false_iff in H.
  destruct H as [_ H]. exact H.
Qed.

(** One turn of the loop inside a word. *)
Lemma arguments_get_line_loop_word_turn (s : list ascii) (M : nat) f
    len res t :
  word_char (byte_at s t) -> t < length s -> t < M ->
  arguments_get_line_loop mbrlen (S f) s (length s) M mbs_initial
    len false false t t res
  = arguments_get_line_loop mbrlen f s (length s) M mbs_initial
      (if S t =? length s then S t else t) false false (S t) (S t)
      (if S t =? length s then S t else t).
Proof.
  intros Hc Ht HM.
  cbn [arguments_get_line_loop].
  apply Nat.ltb_lt in Ht as Ht'. apply Nat.ltb_lt in HM as HM'.
  rewrite Ht', HM'. cbn [andb negb orb].
  rewrite (word_char_not_newline _ Hc).
  destruct Hc as [H7 Hsp]. rewrite Hsp. cbn [andb negb orb].
  rewrite (byte_at_drop s t Ht), (mbrlen_ok _ _ _ H7) by lia.
  rewrite !Nat.add_1_r.
  now destruct (S t =? length s).
Qed.

(** The loop on such a text: the whole text if it has at most
    [max_length] characters, and otherwise one character less than
    [max_length], the last character looked at being left for the next
    line. *)
Lemma arguments_get_line_loop_word (s : list ascii) (M : nat) n :
  word_ahead s M ->
  forall f len res t,
    t + n = Nat.min M (length s) -> 0 < n -> n <= f ->
    arguments_get_line_loop mbrlen f s (length s) M mbs_initial
      len false false t t res
    = if length s <=? M then (length s, length s) else (M - 1, M - 1).
Proof.
  intros Hs. induction n as [|n IH]; intros f len res t Hn Hpos Hf; [lia|].
  destruct f as [|f]; [lia|].
  rewrite arguments_get_line_loop_word_turn by (try apply Hs; lia).
  destruct n as [|n].
  - destruct f as [|f]; cbn [arguments_get_line_loop].
    + destruct (Nat.leb_spec (length s) M);
        destruct (Nat.eqb_spec (S t) (length s)); f_equal; lia.
    + destruct (Nat.leb_spec (length s) M).
      * replace (S t <? length s) with false
          by (symmetry; apply Nat.ltb_ge; lia).
        cbn [andb]. destruct (Nat.eqb_spec (S t) (length s)); f_equal; lia.
      * replace (S t <? M) with false by (symmetry; apply Nat.ltb_ge; lia).
        rewrite andb_false_r.
        destruct (Nat.eqb_spec (S t) (length s)); f_equal; lia.
  - apply IH; lia.
Qed.

Lemma skip_spaces_word (s : list ascii) fuel (result : nat) :
  (result < length s -> word_char (byte_at s result)) ->
  skip_spaces fuel s (length s) result = result.
Proof.
  intros Hs. destruct fuel as [|fuel]; [reflexivity|]. simpl.
  destruct (Nat.ltb_spec result (length s)) as [H|H]; [|reflexivity].
  now rewrite (word_char_not_space _ (Hs H)).
Qed.

(** [arguments_get_line] on such a text. *)
Lemma arguments_get_line_word (s : list ascii) (M : nat) :
  word_ahead s M -> 0 < M -> 0 < length s ->
  arguments_get_line mbs_initial mbrlen s M
  = if length s <=? M then (length s, length s) else (M - 1, M - 1).
Proof.
  intros Hs HM HL. unfold arguments_get_line.
  rewrite (arguments_get_line_loop_word s M (Nat.min M (length s)) Hs)
    by lia.
  destruct (Nat.leb_spec (length s) M); rewrite Nat.ltb_irrefl.
  - rewrite skip_spaces_word; [reflexivity|lia].
  - rewrite skip_spaces_word; [reflexivity|]. intros _. apply Hs. lia.
Qed.

Lemma word_ahead_Forall (w : list ascii) (M : nat) :
  Forall word_char w -> word_ahead w M.
Proof. intros Hw u Hu. apply byte_at_Forall; [exact Hw|lia]. Qed.

Lemma word_ahead_app (w rest : list ascii) (M : nat) :
  Forall word_char w -> M <= length w -> word_ahead (w ++ rest) M.
Proof.
  intros Hw HM u Hu. unfold byte_at.
  rewrite lookup_app_l by lia. apply (byte_at_Forall _ w u Hw). lia.
Qed.

(** Iterating over a word: every piece but the last has
    [max_length - 1] characters, the last has the rest, and the pieces
    put together are the word. *)
Lemma wrapped_lines_word (M : nat) n :
  2 <= M ->
  forall (w : list ascii) fuel,
    length w <= n -> Forall word_char w -> 0 < length w ->
    length w < fuel ->
    exists front last,
      wrapped_lines mbs_initial mbrlen fuel w M = Some (front ++ [last])
      /\ Forall (fun piece => length piece = M - 1) front
      /\ 0 < length last <= M
      /\ (length w <= M -> front = [])
      /\ (M < length w -> 2 <= length last)
      /\ concat front ++ last = w.
Proof.
  intros HM. induction n as [|n IH]; intros w fuel Hn Hw HL Hfuel; [lia|].
  destruct fuel as [|fuel]; [lia|]. cbn [wrapped_lines].
  destruct w as [|x w']; [simpl in HL; lia|].
  set (w := x :: w') in *.
  rewrite (arguments_get_line_word w M (word_ahead_Forall w M Hw)) by lia.
  destruct (Nat.leb_spec (length w) M) as [Hfit|Hlong].
  - exists [], w. rewrite drop_all, take_ge by lia.
    destruct fuel as [|fuel]; [lia|]. simpl.
    repeat split; auto; lia.
  - destruct (IH (drop (M - 1) w) fuel)
      as (front & last & E & Hf & Hl & Hone & Hl2 & Hc).
    + rewrite length_drop. lia.
    + now apply Forall_drop.
    + rewrite length_drop. lia.
    + rewrite length_drop. lia.
    + rewrite E. exists (take (M - 1) w :: front), last.
      split; [reflexivity|]. split; [|split; [|split; [|split]]].
      * constructor; [|exact Hf]. rewrite length_take. lia.
      * exact Hl.
      * lia.
      * intros _. rewrite length_drop in Hl2, Hone.
        destruct (Nat.leb_spec (length w - (M - 1)) M) as [Hr|Hr]; [|lia].
        rewrite (Hone Hr) in Hc. simpl in Hc.
        rewrite Hc, length_drop. lia.
      * simpl. rewrite <- app_assoc, Hc. apply take_drop.
Qed.

Lemma length_concat_pieces (C : nat) (front : list (list ascii)) :
  Forall (fun piece => length piece = C) front ->
  length (concat front) = C * length front.
Proof.
  induction 1 as [|piece front Hp _ IH]; simpl; [lia|].
  rewrite length_app, IH, Hp. lia.
Qed.

(** C8 (as amended).  Where a line starts with a word (7-bit
    characters) of at least [max_length] characters and the text is
    longer than [max_length], with [max_length] at least 2,
    [arguments_get_line] breaks after [max_length - 1] columns, the
    character at column [max_length] being looked at only, and the next
    offset is the place of the cut, no byte skipped.  Iterated over a
    text that is one word of more than [max_length] characters, it
    splits the word into pieces that put together are the word: each has
    exactly [max_length - 1] characters, except the last, which has
    between 2 and [max_length]; their number is the least n with
    [length - 1 <= (max_length - 1) * n]. *)
Theorem get_line_splits_long_word (w rest : list ascii) (M : nat) :
  Forall word_char w -> 2 <= M ->
  (M <= length w -> M < length (w ++ rest) ->
   arguments_get_line mbs_initial mbrlen (w ++ rest) M = (M - 1, M - 1))
  /\ (M < length w ->
      forall fuel,
        length w < fuel ->
        exists front last,
          wrapped_lines mbs_initial mbrlen fuel w M = Some (front ++ [last])
          /\ Forall (fun piece => length piece = M - 1) front
          /\ 2 <= length last <= M
          /\ concat (front ++ [last]) = w
          /\ (M - 1) * (length (front ++ [last]) - 1) < length w - 1
             <= (M - 1) * length (front ++ [last])).
Proof.
  intros Hw HM. split.
  - intros HL Hlong.
    rewrite (arguments_get_line_word (w ++ rest) M) by
      (try apply word_ahead_app; try assumption; lia).
    destruct (Nat.leb_spec (length (w ++ rest)) M); [lia|reflexivity].
  - intros HL fuel Hfuel.
    destruct (wrapped_lines_word M (length w) HM w fuel)
      as (front & last & E & Hf & Hl & _ & Hl2 & Hc);
      try lia; try assumption.
    exists front, last. split; [exact E|]. split; [exact Hf|].
    specialize (Hl2 HL). split; [lia|].
    split; [rewrite concat_app; simpl; now rewrite app_nil_r|].
    assert (length w = (M - 1) * length front + length last) as Hlen.
    { rewrite <- Hc, length_app. f_equal. now apply length_concat_pieces. }
    rewrite length_app. simpl. rewrite Nat.add_1_r. simpl.
    rewrite Nat.sub_0_r, Nat.mul_succ_r. lia.
Qed.

(** C9 (as amended).  With a [max_length] of 8, which is what
    [arguments_print_help_string] passes for a width of 7 columns when
    there is no header, iterating [arguments_get_line] over the text
    [abc def ghijklmnop] gives the lines [abc def], [ghijklm] and [nop]. *)
Theorem wrap_at_width_seven :
  help_max_length false 0 7 = 8%Z
  /\ wrapped_lines mbs_initial mbrlen 19 (text "abc def ghijklmnop") 8
     = Some [text "abc def"; text "ghijklm"; text "nop"].
Proof.
  split; [reflexivity|].
  rewrite wrapped_lines_seven_bit.
  - vm_compute. reflexivity.
  - unfold text, seven_bit, char_code. simpl.
    repeat constructor.
Qed.

End LineWrap.

(** ** The sample tables at work *)

Local Open Scope string_scope.

(** The scenarios of the specification: [-c 5] is read as 5; no token at
    all leaves the required [count] missing; [--count] alone has too few
    values. *)
Example count_scenarios :
  (exists st, process count_program 4 ["prog"; "-c"; "5"] tt
              = Some (Exit_run 0, st)
              /\ arguments st !! 0%nat = Some (ArgRecord 1 1 (Some ["5"]) 1 5))
  /\ (exists st, process count_program 4 ["prog"] tt
                 = Some (Exit_missing 0, st))
  /\ (exists st, process count_program 4 ["prog"; "--count"] tt
                 = Some (Exit_read_error, st)).
Proof. repeat split; eexists; (split || idtac); reflexivity. Qed.

(** An arity next to the upper end of [unsigned int] makes the test of
    the remaining tokens wrap around: the branch that takes the values is
    entered with no token left, and the scan is back at the flag. *)
Example arity_wraps_around :
  exists st,
    arguments_read_body (sample_program 1 [arg_wide]) ["prog"; "--wide"] 1
      (fresh (sample_program 1 [arg_wide]))
    = Next 1 st.
Proof. eexists. reflexivity. Qed.

Lemma arguments_read_takes_arity_witness :
  exists st',
    reaches count_program ["prog"; "-c"; "5"; "rest"] 1 (fresh count_program)
            3 st'
    /\ arguments st' !! 0%nat
       = Some (ArgRecord 1 0 (Some ["5"; "rest"]) 1 0).
Proof.
  destruct (arguments_read_takes_arity count_program
              ["prog"; "-c"; "5"; "rest"] 1 (fresh count_program)
              1 (fresh count_program) 0 arg_count) as [Htake _].
  - unfold INT_MAX. simpl. lia.
  - lia.
  - simpl. lia.
  - unfold arity_ok, INT_MAX. simpl. lia.
  - apply reaches_here.
  - reflexivity.
  - reflexivity.
  - destruct Htake as (st' & H1 & H2 & _); [simpl; lia|].
    exists st'. split; [exact H1|]. apply (H2 (ArgRecord 0 0 None 0 0)).
    reflexivity.
Defined.

(** In the table [x], [y] the token [--y] is the short alias of [x]: it
    selects [x]; with the two lines exchanged it selects [y].  And with
    help handled, the token [--help] never marks a descriptor named
    [help]. *)
Lemma alias_hides_long_form :
  NoDup (name <$> [arg_x; arg_y])
  /\ NoDup (omap short [arg_x; arg_y])
  /\ select [arg_x; arg_y] (long_form (name arg_y)) = Some (0%nat, arg_x)
  /\ select [arg_y; arg_x] (long_form (name arg_y)) = Some (0%nat, arg_y)
  /\ arguments_read (sample_program 1 [arg_help]) 3
       ["prog"; long_form (name arg_help)] 1
       (fresh (sample_program 1 [arg_help]))
     = Some (AC_HELP, 1,
             State [ArgRecord 0 0 None 0 0] tt [] [EvPrintHelp]).
Proof.
  split; [|split; [|repeat split; reflexivity]].
  - apply NoDup_cons. split; [|apply NoDup_singleton].
    intros H. apply list_elem_of_singleton in H. discriminate.
  - apply NoDup_singleton.
Qed.

Lemma long_form_selects_witness :
  arguments_cmp "--size" "size" = 0
  /\ exists i, select (schema level_size_program) "--size" = Some (i, arg_size).
Proof.
  destruct (long_form_selects [arg_level; arg_size] arg_size)
    as (H1 & _ & H3).
  - repeat constructor; simpl; discriminate.
  - apply NoDup_cons. split; [|apply NoDup_singleton].
    intros H. apply list_elem_of_singleton in H. discriminate.
  - apply elem_of_cons. right. apply list_elem_of_singleton. reflexivity.
  - intros d' H. apply elem_of_cons in H. destruct H as [->|H].
    + discriminate.
    + apply list_elem_of_singleton in H. subst d'. discriminate.
  - destruct (H3 level_size_program) as (i & _ & Hsel & _).
    + reflexivity.
    + intros _. discriminate.
    + split; [exact H1|]. exists i. exact Hsel.
Defined.

(** [--left 3]: [left] is read as 3 and [right] gets its default 8;
    at the exit [left] is released, then [right], then [teardown]
    runs. *)
Lemma releasers_run_once_witness :
  exists st,
    process logging_program 4 ["prog"; "--left"; "3"] [] = Some (Exit_run 0, st)
    /\ released (trace st) = initialized_lines logging_program st
    /\ released (trace st) = [0; 1]%nat
    /\ (value <$> arguments st, world st) = ([0; 0], [0; 8; 3]).
Proof.
  edestruct (proj1 (releasers_run_once logging_program 4
                      ["prog"; "--left"; "3"] []))
    as (H1 & _ & _ & st1 & Hmain & _ & Heff); [reflexivity|].
  eexists. split; [reflexivity|]. split; [exact H1|].
  split; [reflexivity|].
  injection Hmain as <-. exact Heff.
Defined.

(** The required [count] is missing: [main] returns from the check and
    neither the default provider of [count] nor anything else has run.
    And when matching fails, the missing required [count] is not what
    [main] reports. *)
Lemma required_check_before_set :
  process count_program 4 ["prog"] tt
  = Some (Exit_missing 0, State [ArgRecord 0 0 None 0 0] tt [] [])
  /\ exists st,
       process (sample_program 1 [arg_level; arg_count]) 4
         ["prog"; "--level"] tt
       = Some (Exit_read_error, st)
       /\ truthy (is_required arg_count (arguments st)) = true
       /\ present (record_at (sample_program 1 [arg_level; arg_count]) st 1)
          = 0
       /\ exit_code Exit_read_error <> ARGUMENTS_PARAMETER_MISSING.
Proof.
  split; [reflexivity|]. eexists. split; [reflexivity|].
  repeat split; try reflexivity. discriminate.
Qed.

Lemma main_missing_required_witness :
  (exists i st', main count_program 4 ["prog"] (State [] tt [] [])
                 = Some (Exit_missing i, st'))
  <-> AC_OK = AC_OK
      /\ exists i d,
           schema count_program !! i = Some d
           /\ truthy (is_required d (arguments (fresh count_program))) = true
           /\ truthy (present (record_at count_program (fresh count_program) i))
              = false.
Proof.
  apply (main_missing_required count_program 4 ["prog"] (State [] tt [] [])
           AC_OK 1 (fresh count_program)).
  reflexivity.
Defined.

Lemma arguments_set_first_failure_witness :
  (arguments_set level_size_program (level_taken "x")).1 = AC_ERROR
  /\ arguments (arguments_set level_size_program (level_taken "x")).2 !! 1%nat
     = Some (ArgRecord 0 0 None 0 0).
Proof.
  destruct (arguments_set_first_failure level_size_program (level_taken "x")
              0 arg_level) as (H1 & H2 & _).
  - reflexivity.
  - reflexivity.
  - reflexivity.
  - reflexivity.
  - split; [exact H1|]. rewrite H2 by lia. reflexivity.
Defined.

(** [size] is not passed, is optional and has the default 7, yet
    [arguments_set] leaves it uninitialised: the reader of [level], which
    comes first, has rejected its value. *)
Lemma default_skipped_after_failure :
  process level_size_program 4 ["prog"; "--level"; "x"] tt
  = Some (Exit_set_error,
          State [ArgRecord 1 0 (Some ["x"]) 1 0; ArgRecord 0 0 None 0 0] tt
                [H_arguments_release; H_teardown]
                [EvSetup; EvRead 0; EvTeardown])
  /\ (arguments_set level_size_program (level_taken "x")).1 = AC_ERROR
  /\ initialized
       (record_at level_size_program
          (arguments_set level_size_program (level_taken "x")).2 1) = 0
  /\ is_required arg_size [] = 0
  /\ forall vs len t iv w, (set_default arg_size vs len t iv w).1.2 = iv.
Proof. repeat split; reflexivity. Qed.

Lemma arguments_set_default_witness :
  initialized
    (record_at level_size_program
       (arguments_set level_size_program (level_taken "3")).2 1) = 1.
Proof.
  destruct (arguments_set_default level_size_program (level_taken "3")
              1 arg_size) as (_ & H & _).
  - reflexivity.
  - simpl. lia.
  - reflexivity.
  - intros vs len t iv w Hiv. exact Hiv.
  - apply H. reflexivity.
Defined.

Lemma help_short_circuits_witness :
  exists n, forall fuel, (n < fuel)%nat ->
    arguments_read count_program fuel
      ["prog"; "-c"; "5"; "--help"; "--count"] 1 (fresh count_program)
    = Some (AC_HELP, 3,
            log EvPrintHelp
              (count_taken ["prog"; "-c"; "5"; "--help"; "--count"])).
Proof.
  destruct (help_short_circuits count_program
              ["prog"; "-c"; "5"; "--help"; "--count"] 1
              (fresh count_program) 3
              (count_taken ["prog"; "-c"; "5"; "--help"; "--count"]) 1)
    as [n Hn].
  - reflexivity.
  - eexists. reflexivity.
  - lia.
  - simpl. lia.
  - eapply reaches_turn; [simpl; lia|reflexivity|apply reaches_here].
  - left. reflexivity.
  - exists n. intros fuel Hfuel. apply (Hn fuel Hfuel).
Defined.

(** The flag [--count] is matched twice; the second time no value is
    left.  The record then still points at the values taken the first
    time. *)
Lemma repeated_flag_keeps_values :
  arguments_read count_program 4 ["prog"; "--count"; "1"; "--count"] 1
    (fresh count_program)
  = Some (AC_ERROR, 3,
          State [ArgRecord 1 0 (Some ["1"; "--count"]) 1 0] tt [] [])
  /\ Some ["1"; "--count"] <> (None : option (list string)).
Proof. split; [reflexivity|discriminate]. Qed.

Lemma arguments_read_error_record_witness :
  exists n st',
    (forall fuel, (n < fuel)%nat ->
       arguments_read count_program fuel
         ["prog"; "-c"; "5"; "--count"] 1 (fresh count_program)
       = Some (AC_ERROR, 3, st'))
    /\ arguments st' !! 0%nat = Some (ArgRecord 1 0 (Some ["5"; "--count"]) 1 0).
Proof.
  destruct (arguments_read_error_record count_program
              ["prog"; "-c"; "5"; "--count"] 1 (fresh count_program) 3
              (count_taken ["prog"; "-c"; "5"; "--count"]) 0 arg_count
              (ArgRecord 1 0 (Some ["5"; "--count"]) 1 0))
    as (n & st' & H1 & H2 & _).
  - unfold INT_MAX. simpl. lia.
  - lia.
  - simpl. lia.
  - unfold arity_ok, INT_MAX. simpl. lia.
  - eapply reaches_turn; [simpl; lia|reflexivity|apply reaches_here].
  - reflexivity.
  - reflexivity.
  - reflexivity.
  - simpl. lia.
  - exists n, st'. split; [exact H1|exact H2].
Defined.

(** With a [max_length] of 7 the word [ghijklmnop] is cut after 6
    columns, not 7; and with a [max_length] of 8, as passed for 7
    columns, the word [ghijklmn] of 8 characters is one piece of 8. *)
Lemma hard_break_one_short :
  arguments_get_line tt mbrlen_C (text "ghijklmnop") 7 = (6, 6)%nat
  /\ wrapped_lines tt mbrlen_C 11 (text "ghijklmnop") 7
     = Some [text "ghijkl"; text "mnop"]
  /\ wrapped_lines tt mbrlen_C 9 (text "ghijklmn") 8
     = Some [text "ghijklmn"].
Proof. repeat split; reflexivity. Qed.

Lemma get_line_splits_long_word_witness :
  arguments_get_line tt mbrlen_C (text "ghijklmnop" ++ text " more") 8
  = (7, 7)%nat.
Proof.
  destruct (get_line_splits_long_word tt mbrlen_C mbrlen_C_ok
              (text "ghijklmnop") (text " more") 8) as [H _].
  - unfold text, word_char, seven_bit. simpl.
    repeat constructor; simpl; lia.
  - lia.
  - apply H; simpl; lia.
Defined.

(** With a [max_length] of 7 the text [abc def ghijklmnop] comes out as
    [abc], [def], [ghijkl], [mnop]. *)
Lemma wrap_at_max_length_seven :
  wrapped_lines tt mbrlen_C 19 (text "abc def ghijklmnop") 7
  = Some [text "abc"; text "def"; text "ghijkl"; text "mnop"]
  /\ wrapped_lines tt mbrlen_C 19 (text "abc def ghijklmnop") 7
     <> Some [text "abc def"; text "ghijklm"; text "nop"].
Proof. split; [reflexivity|discriminate]. Qed.

Lemma wrap_at_width_seven_witness :
  wrapped_lines tt mbrlen_C 19 (text "abc def ghijklmnop") 8
  = Some [text "abc def"; text "ghijklm"; text "nop"].
Proof. apply (wrap_at_width_seven tt mbrlen_C mbrlen_C_ok). Defined.

(** ** More on the token matcher *)

Local Close Scope string_scope.

Section MatcherMore.

Context {V W : Type}.
Implicit Types (p : program V W) (st : state V W) (d : descriptor V W).
Implicit Types (r : arg_record V) (argv : list string).

(** X1. A token that is not the help flag and that no line of the table
    matches ends the scan without an error: [arguments_read] returns
    [AC_OK] with [*nextarg] at that token, and the state is the one in
    which the scan arrived there. *)
Theorem arguments_read_stops_at_unknown p argv start st0 j st :
  1 <= start ->
  reaches p argv start st0 j st ->
  j < Z.of_nat (length argv) ->
  truthy (ARGUMENTS_PRINT_HELP p) && is_help_token (token_at argv j) = false ->
  select (schema p) (token_at argv j) = None ->
  exists n, forall fuel, (n < fuel)%nat ->
    arguments_read p fuel argv start st0 = Some (AC_OK, j, st).
Proof.
  intros Hstart Hreach Hj Hhelp Hsel.
  apply (arguments_read_stops p argv start st0 j st AC_OK st Hstart Hreach Hj).
  split; [|now left].
  unfold arguments_read_body. now rewrite Hhelp, Hsel.
Qed.

Lemma reaches_trans p argv j0 st0 j1 st1 j2 st2 :
  reaches p argv j0 st0 j1 st1 ->
  reaches p argv j1 st1 j2 st2 ->
  reaches p argv j0 st0 j2 st2.
Proof.
  induction 1 as [j st|j st ja sta jb stb Hlt Hbody _ IH]; intros H2.
  - exact H2.
  - eapply reaches_turn; [exact Hlt|exact Hbody|now apply IH].
Qed.

Lemma arguments_read_loop_returns p fuel argv j0 st0 status j st' :
  arguments_read_loop p fuel argv j0 st0 = Some (status, j, st') ->
  exists st,
    reaches p argv j0 st0 j st
    /\ ((status = AC_OK /\ st' = st
         /\ (Z.of_nat (length argv) <= j
             \/ (truthy (ARGUMENTS_PRINT_HELP p)
                 && is_help_token (token_at argv j) = false
                 /\ select (schema p) (token_at argv j) = None)))
        \/ (status = AC_HELP /\ st' = log EvPrintHelp st
            /\ j < Z.of_nat (length argv)
            /\ truthy (ARGUMENTS_PRINT_HELP p) = true
            /\ is_help_token (token_at argv j) = true)
        \/ (status = AC_ERROR
            /\ j < Z.of_nat (length argv)
            /\ truthy (ARGUMENTS_PRINT_HELP p)
               && is_help_token (token_at argv j) = false
            /\ exists i d,
                 select (schema p) (token_at argv j) = Some (i, d)
                 /\ to_uint (Z.of_nat (length argv))
                    <= to_uint (j + to_uint (value_count d))
                 /\ st' = update_record i
                            (set_value_strings_length (to_uint (value_count d)))
                            (update_record i (set_present 1) st))).
Proof.
  revert j0 st0. induction fuel as [|fuel IH]; intros j0 st0; simpl;
    [discriminate|].
  destruct (Z.ltb_spec j0 (Z.of_nat (length argv))) as [Hlt|Hge].
  - destruct (arguments_read_body p argv j0 st0) as [st1|v st1|j1 st1]
      eqn:Hbody.
    + destruct (arguments_print_help p (S fuel)); [|discriminate].
      intros [= <- <- <-]. exists st0. split; [apply reaches_here|].
      unfold arguments_read_body in Hbody.
      destruct (truthy (ARGUMENTS_PRINT_HELP p)) eqn:Hp;
        destruct (is_help_token (token_at argv j0)) eqn:Ht; simpl in Hbody.
      2-4: destruct (select (schema p) (token_at argv j0)) as [[i d]|];
        [|discriminate]; unfold matched_branch in Hbody;
        destruct (_ <? _); discriminate.
      injection Hbody as <-. right. left. auto.
    + intros [= <- <- <-]. exists st0. split; [apply reaches_here|].
      unfold arguments_read_body in Hbody.
      destruct (truthy (ARGUMENTS_PRINT_HELP p) && is_help_token _) eqn:Hh;
        [discriminate|].
      destruct (select _ _) as [[i d]|] eqn:Hsel.
      * unfold matched_branch in Hbody.
        destruct (Z.ltb_spec (to_uint (j0 + to_uint (value_count d)))
                    (to_uint (Z.of_nat (length argv)))); [discriminate|].
        injection Hbody as <- <-. simpl. right. right.
        repeat split; auto. exists i, d. auto.
      * injection Hbody as <- <-. simpl. left. auto.
    + intros H. apply IH in H. destruct H as (st & Hreach & Hcases).
      exists st. split; [|exact Hcases].
      eapply reaches_turn; [exact Hlt|exact Hbody|exact Hreach].
  - intros [= <- <- <-]. exists st0. split; [apply reaches_here|].
    left. auto.
Qed.

(** X2. Every return of [arguments_read] is one of three: [AC_OK] at
    the end of [argv] or at a token that is neither the help flag nor
    matched by any line of the table, the state being the one the scan
    arrived in; [AC_HELP] at a help flag, with help handled; [AC_ERROR]
    at a token matched by a line whose values, counted in
    [unsigned int], do not fit, that line's record being marked present
    with its length.  Whatever lies between the first token looked at
    and the final position was matched, flag by flag. *)
Theorem arguments_read_returns p fuel argv start st0 status j st' :
  arguments_read p fuel argv start st0 = Some (status, j, st') ->
  exists st,
    reaches p argv (if start <? 1 then 1 else start) st0 j st
    /\ ((status = AC_OK /\ st' = st
         /\ (Z.of_nat (length argv) <= j
             \/ (truthy (ARGUMENTS_PRINT_HELP p)
                 && is_help_token (token_at argv j) = false
                 /\ select (schema p) (token_at argv j) = None)))
        \/ (status = AC_HELP /\ st' = log EvPrintHelp st
            /\ j < Z.of_nat (length argv)
            /\ truthy (ARGUMENTS_PRINT_HELP p) = true
            /\ is_help_token (token_at argv j) = true)
        \/ (status = AC_ERROR
            /\ j < Z.of_nat (length argv)
            /\ truthy (ARGUMENTS_PRINT_HELP p)
               && is_help_token (token_at argv j) = false
            /\ exists i d,
                 select (schema p) (token_at argv j) = Some (i, d)
                 /\ to_uint (Z.of_nat (length argv))
                    <= to_uint (j + to_uint (value_count d))
                 /\ st' = update_record i
                            (set_value_strings_length (to_uint (value_count d)))
                            (update_record i (set_present 1) st))).
Proof. unfold arguments_read. apply arguments_read_loop_returns. Qed.

Lemma matched_branch_fields p argv j i d st k :
  match matched_branch argv j i d st with
  | Print_help st' | Break _ st' | Next _ st' =>
      value (record_at p st' k) = value (record_at p st k)
      /\ (present (record_at p st' k) = present (record_at p st k)
          \/ present (record_at p st' k) = 1)
  end.
Proof.
  assert (forall st0,
             present (record_at p (update_record i (set_present 1) st0) k)
             = present (record_at p st0 k)
             \/ present (record_at p (update_record i (set_present 1) st0) k)
                = 1) as Hp.
  { intros st0. rewrite record_at_update_record. case_decide; [|now left].
    subst k. unfold record_at.
    destruct (arguments st0 !! i); simpl; auto. }
  unfold matched_branch. destruct (_ <? _).
  - rewrite !(field_update_record value) by reflexivity.
    rewrite !(field_update_record present _ _ (set_value_strings _))
      by reflexivity.
    rewrite !(field_update_record present _ _ (set_value_strings_length _))
      by reflexivity.
    auto.
  - rewrite !(field_update_record value) by reflexivity.
    rewrite !(field_update_record present _ _ (set_value_strings_length _))
      by reflexivity.
    auto.
Qed.

Lemma arguments_read_loop_fields p fuel argv j0 st0 status j st' k :
  arguments_read_loop p fuel argv j0 st0 = Some (status, j, st') ->
  value (record_at p st' k) = value (record_at p st0 k)
  /\ (present (record_at p st' k) = present (record_at p st0 k)
      \/ present (record_at p st' k) = 1).
Proof.
  revert j0 st0. induction fuel as [|fuel IH]; intros j0 st0; simpl;
    [discriminate|].
  destruct (j0 <? Z.of_nat (length argv)); [|intros [= _ _ <-]; auto].
  unfold arguments_read_body.
  destruct (_ && _).
  { destruct (arguments_print_help p (S fuel)); [|discriminate].
    intros [= _ _ <-]; auto. }
  destruct (select _ _) as [[i d]|]; [|intros [= _ _ <-]; auto].
  pose proof (matched_branch_fields p argv j0 i d st0 k) as Hf.
  destruct (matched_branch argv j0 i d st0) as [st1|v st1|j1 st1].
  - destruct (arguments_print_help p (S fuel)); [|discriminate].
    intros [= _ _ <-]. exact Hf.
  - intros [= _ _ <-]. exact Hf.
  - intros H. apply IH in H. destruct H as [H1 H2], Hf as [F1 F2].
    split; [congruence|]. destruct H2 as [H2|H2]; [|now right].
    rewrite H2. exact F2.
Qed.

(** X3. Matching only marks: a call of [arguments_read] converts no
    value and runs no reader, default provider or release, registers
    nothing for the exit, and leaves the number of records, every
    [initialized] flag and every value as they were; a [present] flag
    is either left as it was or set to 1, never cleared. *)
Theorem arguments_read_marks_only p fuel argv start st0 status j st' :
  arguments_read p fuel argv start st0 = Some (status, j, st') ->
  world st' = world st0
  /\ atexit_handlers st' = atexit_handlers st0
  /\ materialized (trace st') = materialized (trace st0)
  /\ released (trace st') = released (trace st0)
  /\ length (arguments st') = length (arguments st0)
  /\ forall k,
       initialized (record_at p st' k) = initialized (record_at p st0 k)
       /\ value (record_at p st' k) = value (record_at p st0 k)
       /\ (present (record_at p st' k) = present (record_at p st0 k)
           \/ present (record_at p st' k) = 1).
Proof.
  unfold arguments_read. intros H.
  pose proof (arguments_read_loop_read_frame _ _ _ _ _ _ _ _ H)
    as (R1 & R2 & R3 & R4 & R5 & R6).
  repeat split; auto; eapply arguments_read_loop_fields; exact H.
Qed.

Lemma values_in_bounds_matched argv j i d (l : list (arg_record V)) :
  0 <= j -> 0 <= value_count d ->
  j + value_count d < Z.of_nat (length argv) ->
  Forall values_in_bounds l ->
  Forall values_in_bounds
    (alter (set_value_strings (Some (drop (Z.to_nat (j + 1)) argv))) i
       (alter (set_value_strings_length (value_count d)) i
          (alter (set_present 1) i l))).
Proof.
  intros Hj Hk Hlt Hl.
  rewrite !list_alter_alter_eq.
  apply Forall_alter; [exact Hl|].
  intros r _ _ _. simpl. eexists. split; [reflexivity|].
  rewrite length_drop. lia.
Qed.

Lemma arguments_read_loop_values_in_bounds p fuel argv j0 st0 status j st' :
  Forall arity_ok (schema p) ->
  Z.of_nat (length argv) <= INT_MAX ->
  0 <= j0 ->
  Forall values_in_bounds (arguments st0) ->
  arguments_read_loop p fuel argv j0 st0 = Some (status, j, st') ->
  status <> AC_ERROR ->
  Forall values_in_bounds (arguments st').
Proof.
  intros Hok Hargc. revert j0 st0.
  induction fuel as [|fuel IH]; intros j0 st0 Hj Hst; simpl; [discriminate|].
  destruct (Z.ltb_spec j0 (Z.of_nat (length argv))) as [Hlt|Hge];
    [|intros [= _ _ <-]; auto].
  unfold arguments_read_body.
  destruct (_ && _);
    [destruct (arguments_print_help p (S fuel)); [|discriminate];
     intros [= _ _ <-]; auto|].
  destruct (select _ _) as [[i d]|] eqn:Hsel; [|intros [= _ _ <-]; auto].
  assert (arity_ok d) as Hd.
  { unfold select in Hsel. apply list_find_Some in Hsel.
    destruct Hsel as (Hsel & _). rewrite Forall_forall in Hok.
    apply Hok. eapply list_elem_of_lookup_2, Hsel. }
  destruct (Z.ltb_spec (j0 + value_count d) (Z.of_nat (length argv)))
    as [H|H].
  - rewrite matched_branch_enough by assumption.
    apply IH; [unfold arity_ok in Hd; lia|].
    unfold update_record. simpl.
    apply values_in_bounds_matched; auto. apply Hd.
  - rewrite matched_branch_short by (try assumption; lia).
    intros [= <- _ _] Hne. now elim Hne.
Qed.

(** X4. With arities that are non-negative [int]s, a call of
    [arguments_read] that does not return [AC_ERROR] leaves every record
    it marked present pointing at no fewer tokens of [argv] than its
    [value_strings_length] says: a reader may take
    [value_strings[0]] up to [value_strings[value_strings_length - 1]]. *)
Theorem arguments_read_values_in_bounds p fuel argv start st0 status j st' :
  Forall arity_ok (schema p) ->
  Z.of_nat (length argv) <= INT_MAX ->
  Forall values_in_bounds (arguments st0) ->
  arguments_read p fuel argv start st0 = Some (status, j, st') ->
  status <> AC_ERROR ->
  Forall values_in_bounds (arguments st').
Proof.
  intros Hok Hargc Hst. unfold arguments_read.
  apply arguments_read_loop_values_in_bounds; auto.
  destruct (start <? 1) eqn:E; [lia|]. apply Z.ltb_ge in E. lia.
Qed.

Lemma next_position_positive (argc j len : Z) :
  argc <= INT_MAX -> 1 <= j < argc -> 0 <= len < UINT_MODULUS ->
  to_uint (j + len) < to_uint argc ->
  1 <= to_int (to_uint (j + 1) + len).
Proof.
  unfold to_int, to_uint, UINT_MODULUS, INT_MAX. intros Hargc Hj Hlen Hlt.
  rewrite (Z.mod_small argc) in Hlt by lia.
  rewrite (Z.mod_small (j + 1)) by lia.
  destruct (Z.lt_ge_cases (j + len) 4294967296) as [Hs|Hs].
  - rewrite Z.mod_small in Hlt by lia.
    rewrite (Z.mod_small (j + 1 + len)) by lia.
    destruct (Z.leb_spec (j + 1 + len) 2147483647); lia.
  - replace (j + 1 + len) with (j + 1 + len - 4294967296 + 1 * 4294967296)
      by lia.
    rewrite Z.mod_add by lia. rewrite Z.mod_small by lia.
    replace (j + len) with (j + len - 4294967296 + 1 * 4294967296) in Hlt
      by lia.
    rewrite Z.mod_add in Hlt by lia. rewrite Z.mod_small in Hlt by lia.
    destruct (Z.leb_spec (j + 1 + len - 4294967296) 2147483647); lia.
Qed.

Lemma arguments_read_loop_program_name p fuel (a b : string) rest j0 st0 :
  Z.of_nat (length (a :: rest)) <= INT_MAX ->
  1 <= j0 ->
  arguments_read_loop p fuel (a :: rest) j0 st0
  = arguments_read_loop p fuel (b :: rest) j0 st0.
Proof.
  intros Hargc. revert j0 st0.
  induction fuel as [|fuel IH]; intros j0 st0 Hj; [reflexivity|].
  cbn [arguments_read_loop].
  change (length (b :: rest)) with (length (a :: rest)).
  destruct (Z.ltb_spec j0 (Z.of_nat (length (a :: rest)))) as [Hlt|Hge];
    [|reflexivity].
  assert (token_at (a :: rest) j0 = token_at (b :: rest) j0) as Htok.
  { unfold token_at. destruct (Z.to_nat j0) eqn:E; [lia|reflexivity]. }
  unfold arguments_read_body. rewrite Htok.
  destruct (_ && _); [reflexivity|].
  destruct (select _ _) as [[i d]|]; [|reflexivity].
  unfold matched_branch.
  change (length (b :: rest)) with (length (a :: rest)).
  destruct (Z.ltb_spec (to_uint (j0 + to_uint (value_count d)))
              (to_uint (Z.of_nat (length (a :: rest))))) as [Hfit|Hfit];
    [|reflexivity].
  assert (drop (Z.to_nat (j0 + 1)) (a :: rest)
          = drop (Z.to_nat (j0 + 1)) (b :: rest)) as ->.
  { destruct (Z.to_nat (j0 + 1)) eqn:E; [lia|reflexivity]. }
  apply IH.
  apply (next_position_positive (Z.of_nat (length (a :: rest)))).
  - exact Hargc.
  - split; [exact Hj|exact Hlt].
  - unfold to_uint, UINT_MODULUS. apply Z.mod_pos_bound. lia.
  - exact Hfit.
Qed.

(** X5. The program name is never matched: [arguments_read] starts at
    index 1 at the earliest and never comes back to index 0, so that
    its result is the same for any two argument vectors that differ in
    [argv[0]] only. *)
Theorem arguments_read_skips_program_name p fuel (a b : string) rest
    start st0 :
  Z.of_nat (length (a :: rest)) <= INT_MAX ->
  arguments_read p fuel (a :: rest) start st0
  = arguments_read p fuel (b :: rest) start st0.
Proof.
  intros Hargc. unfold arguments_read.
  apply arguments_read_loop_program_name; [exact Hargc|].
  destruct (start <? 1) eqn:E; [lia|]. apply Z.ltb_ge in E. lia.
Qed.

End MatcherMore.

(** ** More on materialization, release and [main] *)

Section PipelineMore.

Context {V W : Type}.
Implicit Types (p : program V W) (st : state V W) (d : descriptor V W).
Implicit Types (ds : list (descriptor V W)) (i k : nat) (v : Z).

(** A field that neither the value nor the [initialized] flag touches
    goes through [arguments_set] unchanged. *)
Lemma set_one_field {A} (field : arg_record V -> A) p i d v st k :
  (forall x r, field (set_value x r) = field r) ->
  (forall z r, field (set_initialized z r) = field r) ->
  field (record_at p (set_one p i d v st).2 k) = field (record_at p st k).
Proof.
  intros Hval Hini. unfold set_one. destruct (truthy v); [|reflexivity].
  destruct ((if truthy (present (record_at p st i)) then read d
             else set_default d) _ _ _ _ _) as [[val iv] w].
  destruct (truthy iv); simpl.
  - rewrite (field_update_record field) by apply Hini.
    change (field (record_at p (update_record i (set_value val) st) k)
            = field (record_at p st k)).
    apply (field_update_record field), Hval.
  - change (field (record_at p (update_record i (set_value val) st) k)
            = field (record_at p st k)).
    apply (field_update_record field), Hval.
Qed.

Lemma set_from_field {A} (field : arg_record V -> A) p i ds v st k :
  (forall x r, field (set_value x r) = field r) ->
  (forall z r, field (set_initialized z r) = field r) ->
  field (record_at p (set_from p i ds v st).2 k) = field (record_at p st k).
Proof.
  intros Hval Hini. revert i v st.
  induction ds as [|d ds IH]; intros i v st; simpl; [reflexivity|].
  pose proof (set_one_field field p i d v st k Hval Hini) as H1.
  destruct (set_one p i d v st) as [v1 st1]. simpl in H1.
  now rewrite IH.
Qed.

(** X6. When [arguments_set] returns [AC_OK], every line of the table
    was processed exactly once and in the order of the table, by its
    reader if it was passed on the command line and by its default
    provider if it was not, and every record has [initialized] set
    to 1. *)
Theorem arguments_set_ok p st st' :
  arguments_set p st = (AC_OK, st') ->
  (length (schema p) <= length (arguments st))%nat ->
  (forall k, (k < length (schema p))%nat ->
             initialized (record_at p st' k) = 1)
  /\ exists evs,
       trace st' = trace st ++ evs
       /\ materialized evs = seq 0 (length (schema p))
       /\ forall k,
            (k < length (schema p))%nat ->
            if truthy (present (record_at p st k))
            then EvRead k ∈ evs /\ EvDefault k ∉ evs
            else EvDefault k ∈ evs /\ EvRead k ∉ evs.
Proof.
  rewrite arguments_set_unfold.
  destruct (set_from p 0 (schema p) 1 st) as [v stf] eqn:Hset. simpl.
  destruct (truthy v) eqn:Hv; [|discriminate]. intros [= <-] Hlen.
  apply set_from_spec in Hset.
  destruct Hset as (_ & _ & _ & _ & _ & B6 & evs & B7 & B8 & _ & B10).
  split.
  - intros k Hk. apply (B6 Hv k); lia.
  - exists evs. split; [exact B7|]. split; [exact (B10 Hv)|].
    intros k Hk.
    assert (k ∈ materialized evs) as Hin
        by (rewrite (B10 Hv); apply elem_of_seq; lia).
    apply materialized_elem in Hin. rewrite Forall_forall in B8.
    destruct (truthy (present (record_at p st k))) eqn:Hp.
    + split.
      * destruct Hin as [Hin|Hin]; [exact Hin|].
        apply B8 in Hin. simpl in Hin. congruence.
      * intros Hin'. apply B8 in Hin'. simpl in Hin'. congruence.
    + split.
      * destruct Hin as [Hin|Hin]; [|exact Hin].
        apply B8 in Hin. simpl in Hin. congruence.
      * intros Hin'. apply B8 in Hin'. simpl in Hin'. congruence.
Qed.

Lemma arguments_set_keeps_matches_aux p st :
  atexit_handlers (arguments_set p st).2
  = H_arguments_release :: atexit_handlers st
  /\ released (trace (arguments_set p st).2) = released (trace st).
Proof.
  rewrite arguments_set_unfold. simpl.
  destruct (set_from p 0 (schema p) 1 st) as [v stf] eqn:Hset. simpl in *.
  apply set_from_spec in Hset.
  destruct Hset as (B1 & _ & _ & _ & _ & _ & evs & B7 & B8 & _).
  split; [now rewrite B1|].
  rewrite B7, released_app, (released_set_events p st evs B8).
  apply app_nil_r.
Qed.

(** X7. [arguments_set] leaves what matching stored alone: the
    [present] flag, [value_strings] and [value_strings_length] of every
    record are as before, as is the number of records; it runs no
    release and registers [arguments_release], once, on top of what is
    registered. *)
Theorem arguments_set_keeps_matches p st :
  atexit_handlers (arguments_set p st).2
  = H_arguments_release :: atexit_handlers st
  /\ released (trace (arguments_set p st).2) = released (trace st)
  /\ length (arguments (arguments_set p st).2) = length (arguments st)
  /\ forall k,
       present (record_at p (arguments_set p st).2 k)
       = present (record_at p st k)
       /\ value_strings (record_at p (arguments_set p st).2 k)
          = value_strings (record_at p st k)
       /\ value_strings_length (record_at p (arguments_set p st).2 k)
          = value_strings_length (record_at p st k).
Proof.
  rewrite arguments_set_unfold. simpl.
  pose proof (fun {A} (f : arg_record V -> A) k =>
                set_from_field f p 0 (schema p) 1 st k) as Hfield.
  destruct (set_from p 0 (schema p) 1 st) as [v stf] eqn:Hset. simpl in *.
  apply set_from_spec in Hset.
  destruct Hset as (B1 & B2 & _ & _ & _ & _ & evs & B7 & B8 & _).
  split; [now rewrite B1|]. split; [|split; [exact B2|]].
  - rewrite B7, released_app, (released_set_events p st evs B8).
    apply app_nil_r.
  - intros k. repeat split; apply Hfield; reflexivity.
Qed.

Lemma release_one_trace p i d st :
  trace (release_one p i d st)
  = trace st
    ++ (if truthy (initialized (record_at p st i)) then [EvRelease i] else [])
  /\ atexit_handlers (release_one p i d st) = atexit_handlers st.
Proof.
  unfold release_one. destruct (truthy (initialized (record_at p st i))).
  - destruct (release d _ _) as [v w]. simpl. auto.
  - rewrite app_nil_r. auto.
Qed.

Lemma release_one_field {A} (field : arg_record V -> A) p i d st k :
  (forall x r, field (set_value x r) = field r) ->
  field (record_at p (release_one p i d st) k) = field (record_at p st k).
Proof.
  intros Hval. unfold release_one.
  destruct (truthy (initialized (record_at p st i))); [|reflexivity].
  destruct (release d _ _) as [v w].
  change (field (record_at p (update_record i (set_value v) st) k)
          = field (record_at p st k)).
  apply (field_update_record field), Hval.
Qed.

Lemma release_from_field {A} (field : arg_record V -> A) p i ds st k :
  (forall x r, field (set_value x r) = field r) ->
  field (record_at p (release_from p i ds st) k) = field (record_at p st k).
Proof.
  intros Hval. revert i st.
  induction ds as [|d ds IH]; intros i st; simpl; [reflexivity|].
  rewrite IH. now apply release_one_field.
Qed.

Lemma release_from_trace p i ds st :
  trace (release_from p i ds st)
  = trace st
    ++ (EvRelease
          <$> filter (fun k => truthy (initialized (record_at p st k)) = true)
                     (seq i (length ds)))
  /\ atexit_handlers (release_from p i ds st) = atexit_handlers st.
Proof.
  revert i st. induction ds as [|d ds IH]; intros i st; simpl.
  - now rewrite app_nil_r.
  - destruct (release_one_trace p i d st) as [A1 A2].
    destruct (IH (S i) (release_one p i d st)) as [B1 B2].
    split; [|congruence].
    rewrite B1, A1, <- app_assoc. f_equal.
    rewrite filter_cons.
    rewrite (list_filter_iff _
               (fun k => truthy (initialized (record_at p st k)) = true))
      by (intros k; now rewrite (release_one_field initialized)).
    destruct (truthy (initialized (record_at p st i))) eqn:E.
    + now rewrite decide_True by reflexivity.
    + now rewrite decide_False by discriminate.
Qed.

Lemma arguments_release_trace p st :
  trace (arguments_release p st)
  = trace st ++ (EvRelease <$> initialized_lines p st)
  /\ atexit_handlers (arguments_release p st) = atexit_handlers st
  /\ initialized_lines p (arguments_release p st) = initialized_lines p st.
Proof.
  unfold arguments_release.
  destruct (release_from_trace p 0 (schema p) st) as [H1 H2].
  split; [exact H1|]. split; [exact H2|].
  apply initialized_lines_ext. intros k.
  now apply (release_from_field initialized).
Qed.

Lemma released_fmap (l : list nat) : released (EvRelease <$> l) = l.
Proof. induction l as [|x l IH]; simpl; [reflexivity|f_equal; exact IH]. Qed.

(** X8. The release pass does not clear the [initialized] flags, and
    [arguments_set] has registered it for the exit: a program that
    calls [arguments_release] itself after [arguments_set], as the
    comment of [arguments_release] asks, has every initialised
    descriptor released twice by the end of the process, the second
    time on what the first release left of the value. *)
Theorem explicit_release_runs_twice p st :
  atexit_handlers st = [] ->
  let st1 := (arguments_set p st).2 in
  let st2 := arguments_release p st1 in
  let st3 := run_atexit p st2 in
  released (trace st3)
  = released (trace st) ++ initialized_lines p st1 ++ initialized_lines p st1
  /\ (value <$> arguments st3, world st3)
     = run_releasers p (initialized_lines p st1 ++ initialized_lines p st1)
         (value <$> arguments st1) (world st1).
Proof.
  intros Hat st1 st2 st3.
  destruct (arguments_set_keeps_matches_aux p st) as (S1 & S2).
  destruct (arguments_release_trace p st1) as (R1 & R2 & R3).
  fold st2 in R1, R2, R3.
  assert (st3 = arguments_release p st2) as ->.
  { unfold st3, run_atexit. rewrite R2. fold st1 in S1.
    rewrite S1, Hat. reflexivity. }
  destruct (arguments_release_trace p st2) as (Q1 & _ & _).
  split.
  - rewrite Q1, R1, R3, !released_app, !released_fmap.
    fold st1 in S2. now rewrite S2, <- app_assoc.
  - rewrite run_releasers_app, arguments_release_effect, R3.
    pose proof (arguments_release_effect p st1) as E. fold st2 in E.
    now rewrite <- E.
Qed.

Lemma set_event_arguments p st st' e :
  (forall k, present (record_at p st' k) = present (record_at p st k)) ->
  set_event p st e -> set_event p st' e.
Proof. intros H. destruct e; simpl; rewrite ?H; auto. Qed.

(** What [exit] does once both functions are registered. *)
Lemma run_atexit_both p st :
  atexit_handlers st = [H_arguments_release; H_teardown] ->
  trace (run_atexit p st)
  = trace st ++ (EvRelease <$> initialized_lines p st) ++ [EvTeardown]
  /\ initialized_lines p (run_atexit p st) = initialized_lines p st
  /\ forall k, present (record_at p (run_atexit p st) k)
               = present (record_at p st k).
Proof.
  intros Hat. unfold run_atexit. rewrite Hat. simpl.
  destruct (arguments_release_trace p st) as (R1 & _ & R3).
  rewrite R1, <- app_assoc. split; [reflexivity|]. split; [exact R3|].
  intros k. unfold arguments_release.
  now apply (release_from_field present).
Qed.

(** X9. The order of a whole run.  Help, a matching error and a missing
    required argument end the process before anything else happens;
    [setup] comes before every reader and default provider and, if it
    fails, nothing follows it; the readers and default providers come
    before [run], which is entered only after all of them; at the exit
    the release pass, in the order of the table, comes before
    [teardown], and both run whether [arguments_set] failed or not. *)
Theorem process_lifecycle p fuel argv w o st :
  process p fuel argv w = Some (o, st) ->
  exists evs,
    Forall (set_event p st) evs
    /\ trace st
       = match o with
         | Exit_help => [EvPrintHelp]
         | Exit_read_error | Exit_missing _ => []
         | Exit_setup _ => [EvSetup]
         | Exit_set_error =>
             EvSetup :: evs
               ++ (EvRelease <$> initialized_lines p st) ++ [EvTeardown]
         | Exit_run _ =>
             EvSetup :: evs
               ++ EvRun :: (EvRelease <$> initialized_lines p st)
               ++ [EvTeardown]
         end
    /\ match o with
       | Exit_setup result => result <> 0
       | Exit_run _ => materialized evs = seq 0 (length (schema p))
       | _ => True
       end.
Proof.
  unfold process.
  destruct (main p fuel argv _) as [[o' st']|] eqn:Hmain; [|discriminate].
  intros [= <- <-]. revert Hmain. unfold main.
  destruct (arguments_read p fuel argv 1 _)
    as [[[status nextarg] str]|] eqn:Hread; [|discriminate].
  rewrite arguments_read_from in Hread by lia.
  pose proof (arguments_read_loop_read_frame _ _ _ _ _ _ _ _ Hread)
    as (_ & R2 & _).
  apply arguments_read_loop_status in Hread. simpl in R2, Hread.
  assert (forall s, atexit_handlers s = [] -> run_atexit p s = s) as Hnone.
  { intros s Hs. unfold run_atexit. now rewrite Hs. }
  destruct (Z.eqb_spec status AC_HELP) as [->|Hnh].
  { intros [= <- <-]. rewrite (Hnone _ R2). exists [].
    destruct Hread as [[_ ->]|[[H|H] _]]; try discriminate.
    repeat split; constructor. }
  destruct Hread as [[H _]|[_ Htr]]; [contradiction|].
  destruct (status =? AC_ERROR).
  { intros [= <- <-]. rewrite (Hnone _ R2), Htr. exists [].
    repeat split; constructor. }
  destruct (missing_from p 0 (schema p) str).
  { intros [= <- <-]. rewrite (Hnone _ R2), Htr. exists [].
    repeat split; constructor. }
  destruct (setup p argv (world str)) as [result w'].
  destruct (Z.eqb_spec result 0) as [->|Hres]; simpl.
  2:{ intros [= <- <-]. rewrite Hnone by exact R2. simpl. rewrite Htr.
      exists []. repeat split; [constructor|exact Hres]. }
  rewrite arguments_set_unfold.
  destruct (set_from p 0 (schema p) 1 _) as [v stf] eqn:Hset. simpl.
  apply set_from_spec in Hset.
  destruct Hset as (S1 & _ & _ & S4 & _ & _ & evs & S7 & S8 & _ & S10).
  simpl in S1, S7. rewrite R2 in S1. rewrite Htr in S7. simpl in S7.
  assert (forall k, present (record_at p stf k)
                    = present (record_at p (log EvSetup (with_world w' str)) k))
    as Hpres by (intros k; apply S4).
  destruct (truthy v) eqn:Hv; simpl.
  - destruct (run p argv _ _) as [result' w'']. intros [= <- <-].
    destruct (run_atexit_both p
                (log EvRun (with_world w''
                   (atexit H_arguments_release stf))))
      as (T1 & T2 & T3).
    { simpl. now rewrite S1. }
    exists evs. split; [|split].
    + eapply Forall_impl; [exact S8|]. intros e He.
      eapply set_event_arguments; [|exact He].
      intros k. rewrite T3. exact (S4 k).
    + rewrite T1, T2. simpl. rewrite S7. simpl.
      rewrite <- ?app_assoc. reflexivity.
    + apply S10. reflexivity.
  - intros [= <- <-].
    destruct (run_atexit_both p (atexit H_arguments_release stf))
      as (T1 & T2 & T3).
    { simpl. now rewrite S1. }
    exists evs. split; [|split; [|exact I]].
    + eapply Forall_impl; [exact S8|]. intros e He.
      eapply set_event_arguments; [|exact He].
      intros k. rewrite T3. exact (S4 k).
    + rewrite T1, T2. simpl. rewrite S7. simpl.
      rewrite <- ?app_assoc. reflexivity.
Qed.

(** X10. [run] is entered only when matching returned [AC_OK], no
    descriptor whose required expression holds is absent, [setup]
    returned 0 and [arguments_set] initialised every record: none of
    the values handed to [run] is uninitialised. *)
Theorem run_sees_initialized p fuel argv s0 result st :
  main p fuel argv s0 = Some (Exit_run result, st) ->
  (forall k, (k < length (schema p))%nat ->
             initialized (record_at p st k) = 1)
  /\ exists nextarg str,
       arguments_read p fuel argv 1 (arguments_initialize p s0)
       = Some (AC_OK, nextarg, str)
       /\ (forall k d,
              schema p !! k = Some d ->
              truthy (is_required d (arguments str)) = true ->
              truthy (present (record_at p str k)) = true)
       /\ (setup p argv (world str)).1 = 0
       /\ forall k, present (record_at p st k) = present (record_at p str k).
Proof.
  unfold main.
  destruct (arguments_read p fuel argv 1 _)
    as [[[status nextarg] str]|] eqn:Hread; [|discriminate].
  pose proof Hread as Hloop. rewrite arguments_read_from in Hloop by lia.
  pose proof (arguments_read_loop_read_frame _ _ _ _ _ _ _ _ Hloop)
    as (_ & _ & _ & _ & R5 & _).
  apply arguments_read_loop_status in Hloop.
  destruct (Z.eqb_spec status AC_HELP); [discriminate|].
  destruct (Z.eqb_spec status AC_ERROR); [discriminate|].
  assert (status = AC_OK) as -> by tauto.
  destruct (missing_from p 0 (schema p) str) eqn:Hmiss; [discriminate|].
  destruct (setup p argv (world str)) as [res w'] eqn:Hsetup.
  destruct (Z.eqb_spec res 0) as [->|]; [|discriminate]. simpl.
  rewrite arguments_set_unfold.
  destruct (set_from p 0 (schema p) 1 _) as [v stf] eqn:Hset. simpl.
  destruct (truthy v) eqn:Hv; [|discriminate]. simpl.
  destruct (run p argv _ _) as [result' w'']. intros [= _ <-].
  apply set_from_spec in Hset.
  destruct Hset as (_ & _ & _ & S4 & _ & S6 & _).
  split.
  - intros k Hk. apply (S6 Hv k); [lia|]. simpl. rewrite R5. simpl.
    now rewrite length_replicate.
  - exists nextarg, str. split; [reflexivity|]. split; [|split].
    + intros k d Hd Hreq.
      apply (missing_from_None p 0 _ str k d Hmiss Hd Hreq).
    + now rewrite Hsetup.
    + intros k. apply S4.
Qed.

End PipelineMore.

(** ** More on the line-wrap primitive *)

Section LineWrapMore.

Local Open Scope nat_scope.

Context {mbstate_t : Type} (mbs_initial : mbstate_t).
Context (mbrlen : list ascii -> nat -> mbstate_t -> mbrlen_result * mbstate_t).
Hypothesis mbrlen_ok : mbrlen_ascii_ok mbs_initial mbrlen.

Lemma isspace_newline (c : ascii) :
  char_code c = newline_code -> isspace c = true.
Proof. intros H. unfold isspace. now rewrite H. Qed.

Lemma isspace_space (c : ascii) :
  char_code c = space_code -> isspace c = true.
Proof. intros H. unfold isspace. now rewrite H. Qed.

(** One turn of the loop on a 7-bit byte that is not a newline. *)
Lemma arguments_get_line_loop_turn (s : list ascii) (M : nat) f
    len ws ss l i res :
  i < length s -> l < M ->
  seven_bit (byte_at s i) ->
  char_code (byte_at s i) <> newline_code ->
  arguments_get_line_loop mbrlen (S f) s (length s) M mbs_initial
    len ws ss l i res
  = let sp := isspace (byte_at s i) in
    let len1 := if negb ss then l else len in
    let res1 := if negb ss then i else res in
    let len2 := if sp && negb ws then l else len1 in
    let res2 :=
      if sp && negb ws then res1 else if negb sp && ws then i else res1 in
    arguments_get_line_loop mbrlen f s (length s) M mbs_initial
      (if S i =? length s then S l else len2) sp (ss || sp) (S l) (S i)
      (if S i =? length s then S i else res2).
Proof.
  intros Hi Hl H7 Hnl.
  cbn [arguments_get_line_loop].
  apply Nat.ltb_lt in Hi as Hi'. apply Nat.ltb_lt in Hl as Hl'.
  rewrite Hi', Hl'. cbn [andb].
  apply Z.eqb_neq in Hnl. rewrite Hnl.
  rewrite (byte_at_drop s i Hi), (mbrlen_ok _ _ _ H7) by lia.
  rewrite !Nat.add_1_r. replace (S l - 1) with l by lia.
  destruct ss, (isspace (byte_at s i)), ws, (S i =? length s); reflexivity.
Qed.

(** The turn keeps [line_inv]. *)
Lemma line_inv_turn (s : list ascii) (M : nat) len ws ss l i res :
  line_inv s M len ws l i res ->
  i < length s -> l < M ->
  let sp := isspace (byte_at s i) in
  let len1 := if negb ss then l else len in
  let res1 := if negb ss then i else res in
  let len2 := if sp && negb ws then l else len1 in
  let res2 :=
    if sp && negb ws then res1 else if negb sp && ws then i else res1 in
  line_inv s M (if S i =? length s then S l else len2) sp (S l) (S i)
    (if S i =? length s then S i else res2).
Proof.
  intros (E & Hend & HM & Hlen & Hres & Hws & Hbl) Hi Hl. subst l.
  unfold line_inv, blank_between in *.
  destruct (isspace (byte_at s i)) eqn:Hsp; destruct ss, ws;
    destruct (S i =? length s); simpl;
    (repeat split; try reflexivity; try lia; try discriminate; intros;
     try lia;
     try match goal with
     | Hu : _ <= ?u < _ |- isspace (byte_at s ?u) = true =>
         destruct (decide (u = i)) as [->|];
         [first [exact Hsp | lia]
         |first [apply Hws; [reflexivity|lia] | apply Hbl; lia | lia]]
     end).
Qed.

Lemma arguments_get_line_loop_post (s : list ascii) (M : nat) :
  Forall seven_bit s ->
  forall fuel len ws ss l i res,
    line_inv s M len ws l i res ->
    line_post s M
      (arguments_get_line_loop mbrlen fuel s (length s) M mbs_initial
         len ws ss l i res).
Proof.
  intros Hs. induction fuel as [|fuel IH]; intros len ws ss l i res Hinv.
  - destruct Hinv as (E & Hend & HM & Hlen & Hres & Hws & Hbl).
    unfold line_post. simpl. repeat split; try lia. exact Hbl.
  - destruct (Nat.ltb_spec i (length s)) as [Hi|Hi];
      [destruct (Nat.ltb_spec l M) as [Hl|Hl]|].
    + destruct (Z.eqb_spec (char_code (byte_at s i)) newline_code)
        as [Hnl|Hnl].
      * cbn [arguments_get_line_loop].
        apply Nat.ltb_lt in Hi as Hi'. apply Nat.ltb_lt in Hl as Hl'.
        rewrite Hi', Hl'. cbn [andb].
        apply Z.eqb_eq in Hnl as Hnl'. rewrite Hnl'.
        destruct Hinv as (E & Hend & HM & Hlen & Hres & Hws & Hbl).
        unfold line_post, blank_between. simpl.
        repeat split; try lia. intros u Hu.
        replace u with i by lia. now apply isspace_newline.
      * rewrite arguments_get_line_loop_turn;
          [|assumption|assumption|now apply byte_at_Forall|assumption].
        apply IH. now apply line_inv_turn.
    + cbn [arguments_get_line_loop].
      apply Nat.ltb_ge in Hl. rewrite Hl, andb_false_r.
      destruct Hinv as (E & Hend & HM & Hlen & Hres & Hws & Hbl).
      unfold line_post. simpl. repeat split; try lia. exact Hbl.
    + cbn [arguments_get_line_loop].
      apply Nat.ltb_ge in Hi. rewrite Hi. cbn [andb].
      destruct Hinv as (E & Hend & HM & Hlen & Hres & Hws & Hbl).
      unfold line_post. simpl. repeat split; try lia. exact Hbl.
Qed.

(** The closing loop stops at the end of the text or in front of a byte
    that is not a plain space, and steps over plain spaces only. *)
Lemma skip_spaces_spec (s : list ascii) fuel (result : nat) :
  result <= length s -> length s - result <= fuel ->
  let n := skip_spaces fuel s (length s) result in
  result <= n <= length s
  /\ (forall u, result <= u < n -> char_code (byte_at s u) = space_code)
  /\ (n < length s -> char_code (byte_at s n) <> space_code).
Proof.
  revert result. induction fuel as [|fuel IH]; intros result Hr Hf; simpl.
  - split; [lia|]. split; [intros u Hu; lia|lia].
  - destruct (Nat.ltb_spec result (length s)) as [Hlt|Hge]; simpl.
    + destruct (Z.eqb_spec (char_code (byte_at s result)) space_code)
        as [E|E].
      * destruct (IH (result + 1)) as (H1 & H2 & H3); [lia|lia|].
        split; [lia|]. split; [|exact H3].
        intros u Hu. destruct (decide (u = result)) as [->|]; [exact E|].
        apply H2. lia.
      * split; [lia|]. split; [intros u Hu; lia|]. intros _. exact E.
    + split; [lia|]. split; [intros u Hu; lia|lia].
Qed.

(** The line ends no later than the returned offset, the offset stays
    inside the text, every byte between the two is white space, and the
    next line does not begin with a plain space. *)
Lemma arguments_get_line_shape (s : list ascii) (M : nat) :
  Forall seven_bit s ->
  let out := arguments_get_line mbs_initial mbrlen s M in
  out.2 <= out.1 <= length s
  /\ out.2 <= M
  /\ blank_between s out.2 out.1
  /\ (out.1 < length s -> char_code (byte_at s out.1) <> space_code).
Proof.
  intros Hs. unfold arguments_get_line.
  pose proof (arguments_get_line_loop_post s M Hs M 0 false false 0 0 0)
    as Hpost.
  destruct (arguments_get_line_loop mbrlen M s (length s) M mbs_initial
              0 false false 0 0 0) as [len res].
  destruct Hpost as (P1 & P2 & P3 & P4).
  { unfold line_inv, blank_between. repeat split; try lia; intros; lia. }
  simpl in P1, P2, P3, P4.
  set (res' := if res <? len then len else res).
  assert (len <= res' <= length s) as Hres'
      by (unfold res'; destruct (Nat.ltb_spec res len); lia).
  destruct (skip_spaces_spec s (length s - res') res') as (K1 & K2 & K3);
    [lia|lia|].
  cbn [fst snd]. split; [lia|]. split; [lia|]. split; [|exact K3].
  intros u Hu. destruct (Nat.lt_ge_cases u res') as [Hlt|Hge].
  - apply P4. unfold res' in Hlt. destruct (Nat.ltb_spec res len); lia.
  - apply isspace_space, K2. lia.
Qed.

Lemma ink_app (a b : list ascii) : ink (a ++ b) = ink a ++ ink b.
Proof. apply filter_app. Qed.

Lemma ink_blank (s : list ascii) :
  Forall (fun c => isspace c = true) s -> ink s = [].
Proof.
  induction 1 as [|c s Hc _ IH]; [reflexivity|].
  unfold ink. rewrite filter_cons.
  destruct (decide (isspace c = false)) as [E|_]; [congruence|exact IH].
Qed.

Lemma blank_segment (s : list ascii) (a b : nat) :
  blank_between s a b ->
  Forall (fun c => isspace c = true) (take (b - a) (drop a s)).
Proof.
  intros Hbl. apply Forall_lookup. intros i x Hix.
  apply lookup_take_Some in Hix. destruct Hix as [Hix Hlt].
  rewrite lookup_drop in Hix.
  specialize (Hbl (a + i)). unfold byte_at in Hbl. rewrite Hix in Hbl.
  apply Hbl. lia.
Qed.

(** Cutting a stretch of white space out of a text keeps the ink. *)
Lemma ink_cut (s : list ascii) (a b : nat) :
  a <= b -> blank_between s a b ->
  ink (take a s) ++ ink (drop b s) = ink s.
Proof.
  intros Hab Hbl.
  rewrite <- (take_drop a s) at 3.
  rewrite <- (take_drop (b - a) (drop a s)).
  rewrite drop_drop, !ink_app, (ink_blank _ (blank_segment s a b Hbl)).
  replace (a + (b - a)) with b by lia. reflexivity.
Qed.

(** X11. On 7-bit text, whatever the width: the line that
    [arguments_get_line] returns has at most [max_length] bytes, the
    returned offset stays inside the text, the bytes that are neither
    printed in the line nor left for the next lines are white space
    only, and the next line does not begin with a plain space. *)
Theorem arguments_get_line_keeps_ink (s : list ascii) (M : nat) :
  Forall seven_bit s ->
  let out := arguments_get_line mbs_initial mbrlen s M in
  length (take out.2 s) <= M
  /\ out.1 <= length s
  /\ ink (take out.2 s) ++ ink (drop out.1 s) = ink s
  /\ (out.1 < length s -> char_code (byte_at s out.1) <> space_code).
Proof.
  intros Hs out.
  destruct (arguments_get_line_shape s M Hs) as (H1 & H2 & H3 & H4).
  fold out in H1, H2, H3, H4.
  split; [rewrite length_take; lia|]. split; [lia|].
  split; [|exact H4]. apply ink_cut; [lia|exact H3].
Qed.

(** Past the first byte, a line that has a byte keeps having one. *)
Lemma arguments_get_line_loop_len_pos (s : list ascii) (M : nat) :
  Forall seven_bit s ->
  forall fuel len ws ss l i res,
    l = i -> 1 <= i -> 1 <= len ->
    1 <= (arguments_get_line_loop mbrlen fuel s (length s) M mbs_initial
            len ws ss l i res).1.
Proof.
  intros Hs. induction fuel as [|fuel IH]; intros len ws ss l i res E Hi Hlen.
  - exact Hlen.
  - destruct (Nat.ltb_spec i (length s)) as [Hlt|Hge];
      [destruct (Nat.ltb_spec l M) as [Hl|Hl]|].
    + destruct (Z.eqb_spec (char_code (byte_at s i)) newline_code)
        as [Hnl|Hnl].
      * cbn [arguments_get_line_loop].
        apply Nat.ltb_lt in Hlt as Hlt'. apply Nat.ltb_lt in Hl as Hl'.
        rewrite Hlt', Hl'. cbn [andb].
        apply Z.eqb_eq in Hnl as Hnl'. rewrite Hnl'. simpl. lia.
      * rewrite arguments_get_line_loop_turn;
          [|assumption|assumption|now apply byte_at_Forall|assumption].
        apply IH; [lia|lia|].
        destruct (S i =? length s), (isspace (byte_at s i)), ws, ss;
          simpl; lia.
    + cbn [arguments_get_line_loop].
      apply Nat.ltb_ge in Hl. rewrite Hl, andb_false_r. exact Hlen.
    + cbn [arguments_get_line_loop].
      apply Nat.ltb_ge in Hge. rewrite Hge. exact Hlen.
Qed.

Lemma skip_spaces_le (s : list ascii) fuel (e result : nat) :
  result <= skip_spaces fuel s e result.
Proof.
  revert result. induction fuel as [|fuel IH]; intros result; simpl; [lia|].
  destruct ((result <? e)
            && (char_code (byte_at s result) =? space_code)%Z); [|lia].
  specialize (IH (result + 1)). lia.
Qed.

(** With room for two columns, a line that does not begin with white
    space other than the plain space and the newline moves the offset
    on. *)
Lemma arguments_get_line_advances (s : list ascii) (M : nat) :
  Forall seven_bit s -> 0 < length s -> 2 <= M ->
  (isspace (byte_at s 0) = true ->
   char_code (byte_at s 0) = space_code
   \/ char_code (byte_at s 0) = newline_code) ->
  1 <= (arguments_get_line mbs_initial mbrlen s M).1.
Proof.
  intros Hs HL HM Hfirst. unfold arguments_get_line.
  assert (seven_bit (byte_at s 0)) as H7
      by (now apply byte_at_Forall).
  destruct (Z.eqb_spec (char_code (byte_at s 0)) newline_code) as [Hnl|Hnl].
  { destruct M as [|M]; [lia|]. cbn [arguments_get_line_loop].
    apply Nat.ltb_lt in HL as HL'. rewrite HL'. cbn [Nat.ltb Nat.leb andb].
    apply Z.eqb_eq in Hnl as Hnl'. rewrite Hnl'. cbn [Nat.add Nat.ltb Nat.leb].
    cbn [fst]. etransitivity; [|apply skip_spaces_le]. lia. }
  destruct (isspace (byte_at s 0)) eqn:Hsp.
  { destruct (Hfirst eq_refl) as [Hspace|]; [|contradiction].
    destruct (arguments_get_line_loop mbrlen M s (length s) M mbs_initial
                0 false false 0 0 0) as [len res].
    cbn [fst].
    set (res' := if res <? len then len else res).
    destruct res' as [|r] eqn:Er; [|etransitivity; [|apply skip_spaces_le]; lia].
    rewrite Nat.sub_0_r. destruct (length s) as [|n] eqn:En; [lia|].
    cbn [skip_spaces]. cbn [Nat.ltb Nat.leb andb].
    apply Z.eqb_eq in Hspace as Hspace'. rewrite Hspace'.
    etransitivity; [|apply skip_spaces_le]. lia. }
  assert (1 <= (arguments_get_line_loop mbrlen M s (length s) M mbs_initial
                  0 false false 0 0 0).1) as Hpos.
  { destruct M as [|[|M]]; [lia|lia|].
    rewrite arguments_get_line_loop_turn; [|lia|lia|exact H7|exact Hnl].
    rewrite Hsp. cbn [negb andb orb].
    destruct (Nat.eqb_spec 1 (length s)) as [E1|E1].
    - apply arguments_get_line_loop_len_pos; [exact Hs|reflexivity|lia|lia].
    - destruct (Z.eqb_spec (char_code (byte_at s 1)) newline_code)
        as [Hnl1|Hnl1].
      + cbn [arguments_get_line_loop].
        replace (1 <? length s) with true
          by (symmetry; apply Nat.ltb_lt; lia).
        cbn [Nat.ltb Nat.leb andb].
        apply Z.eqb_eq in Hnl1 as Hnl1'. rewrite Hnl1'. simpl. lia.
      + rewrite arguments_get_line_loop_turn;
          [|lia|lia|apply byte_at_Forall; [exact Hs|lia]|exact Hnl1].
        apply arguments_get_line_loop_len_pos;
          [exact Hs|reflexivity|lia|].
        destruct (2 =? length s), (isspace (byte_at s 1)); simpl; lia. }
  destruct (arguments_get_line_loop mbrlen M s (length s) M mbs_initial
              0 false false 0 0 0) as [len res].
  cbn [fst] in *. etransitivity; [|apply skip_spaces_le].
  destruct (Nat.ltb_spec res len); lia.
Qed.

(** A line is shorter than [max_length] unless it ends the text. *)
Lemma arguments_get_line_loop_below (s : list ascii) (M : nat) :
  Forall seven_bit s -> 1 <= M ->
  forall fuel len ws ss l i res,
    l = i -> i <= M ->
    len < i \/ (i = 0 /\ len = 0)
    \/ (len = i /\ res = i /\ i = length s) ->
    let out :=
      arguments_get_line_loop mbrlen fuel s (length s) M mbs_initial
        len ws ss l i res in
    out.1 < M \/ (out.1 = length s /\ out.2 = length s).
Proof.
  intros Hs HM.
  induction fuel as [|fuel IH]; intros len ws ss l i res E Hi Hinv.
  - simpl. lia.
  - destruct (Nat.ltb_spec i (length s)) as [Hlt|Hge];
      [destruct (Nat.ltb_spec l M) as [Hl|Hl]|].
    + destruct (Z.eqb_spec (char_code (byte_at s i)) newline_code)
        as [Hnl|Hnl].
      * cbn [arguments_get_line_loop].
        apply Nat.ltb_lt in Hlt as Hlt'. apply Nat.ltb_lt in Hl as Hl'.
        rewrite Hlt', Hl'. cbn [andb].
        apply Z.eqb_eq in Hnl as Hnl'. rewrite Hnl'. simpl. lia.
      * rewrite arguments_get_line_loop_turn;
          [|assumption|assumption|now apply byte_at_Forall|assumption].
        apply IH; [lia|lia|].
        destruct (Nat.eqb_spec (S i) (length s)),
          (isspace (byte_at s i)), ws, ss; simpl; lia.
    + cbn [arguments_get_line_loop].
      apply Nat.ltb_ge in Hl. rewrite Hl, andb_false_r. simpl. lia.
    + cbn [arguments_get_line_loop].
      apply Nat.ltb_ge in Hge. rewrite Hge. simpl. lia.
Qed.

Lemma arguments_get_line_below (s : list ascii) (M : nat) :
  Forall seven_bit s -> 1 <= M ->
  let out := arguments_get_line mbs_initial mbrlen s M in
  out.2 < M \/ (out.2 = length s /\ out.1 = length s).
Proof.
  intros Hs HM. unfold arguments_get_line.
  pose proof (arguments_get_line_loop_below s M Hs HM M 0 false false 0 0 0
                eq_refl) as H.
  cbv zeta in H.
  destruct (arguments_get_line_loop mbrlen M s (length s) M mbs_initial
              0 false false 0 0 0) as [len res].
  cbn [fst snd] in *.
  destruct H as [H|[H1 H2]]; [lia|lia|now left|].
  right. split; [exact H1|]. subst len res.
  rewrite Nat.ltb_irrefl, Nat.sub_diag. reflexivity.
Qed.

(** X12. A text of 7-bit bytes whose white space is plain spaces and
    newlines only, wrapped at two columns or more:
    the loop of [arguments_print_help_string] ends after at most one
    turn for each byte, none of the lines it prints is longer than
    [max_length], every line but the last is shorter, and what it
    prints is the text but for white space. *)
Theorem wrapped_lines_keeps_ink (M : nat) (c : list ascii) (fuel : nat) :
  Forall plain_char c -> 2 <= M -> length c < fuel ->
  exists lines,
    wrapped_lines mbs_initial mbrlen fuel c M = Some lines
    /\ Forall (fun line => length line <= M) lines
    /\ (forall front last,
          lines = front ++ [last] ->
          Forall (fun line => length line < M) front)
    /\ length lines <= length c
    /\ ink (concat lines) = ink c.
Proof.
  intros Hc HM. remember (length c) as n eqn:En.
  assert (length c <= n) as Hn by lia. clear En.
  revert c fuel Hc Hn.
  induction n as [|n IH]; intros c fuel Hc Hn Hfuel.
  - destruct c; [|simpl in Hn; lia]. destruct fuel; [lia|].
    exists []. simpl. split; [reflexivity|]. split; [constructor|].
    split; [|split; [lia|reflexivity]].
    intros front last E. now destruct front.
  - destruct fuel as [|fuel]; [lia|]. cbn [wrapped_lines].
    destruct c as [|x c'].
    { exists []. simpl. split; [reflexivity|]. split; [constructor|].
      split; [|split; [lia|reflexivity]].
      intros front last E. now destruct front. }
    set (c := x :: c') in *.
    assert (Forall seven_bit c) as H7
        by (eapply Forall_impl; [exact Hc|]; now intros ? []).
    destruct (arguments_get_line_shape c M H7) as (S1 & S2 & S3 & _).
    assert (1 <= (arguments_get_line mbs_initial mbrlen c M).1) as Hadv.
    { apply arguments_get_line_advances; [exact H7|simpl; lia|exact HM|].
      apply Forall_cons in Hc. destruct Hc as [[_ Hx] _]. exact Hx. }
    pose proof (arguments_get_line_below c M H7) as Hbelow.
    cbv zeta in Hbelow.
    destruct (arguments_get_line mbs_initial mbrlen c M) as [k len].
    cbn [fst snd] in *.
    destruct (IH (drop k c) fuel)
      as (ls & E & Hlen & Hfront & Hcount & Hink).
    + now apply Forall_drop.
    + rewrite length_drop. simpl in Hn |- *. lia.
    + lia.
    + rewrite E. exists (take len c :: ls).
      split; [reflexivity|]. split; [|split; [|split]].
      * constructor; [rewrite length_take; lia|exact Hlen].
      * intros front last Efl. destruct front as [|f front].
        { constructor. }
        simpl in Efl. injection Efl as <- Els.
        constructor; [|now apply (Hfront front last)].
        rewrite length_take.
        destruct Hbelow as [Hb|[_ Hb]]; [lia|lia|].
        exfalso. subst k. rewrite drop_all in E.
        destruct fuel as [|fuel]; [discriminate|]. simpl in E.
        injection E as <-. now destruct front.
      * simpl. lia.
      * cbn [concat]. rewrite ink_app, Hink. apply ink_cut; [lia|exact S3].
Qed.

(** With one column or none, a line that begins with a word of two
    bytes or more gets nothing: the line is empty and the offset is
    0. *)
Lemma arguments_get_line_stuck (c : ascii) (rest : list ascii) (M : nat) :
  word_char c -> rest <> [] -> M <= 1 ->
  arguments_get_line mbs_initial mbrlen (c :: rest) M = (0, 0).
Proof.
  intros Hc Hrest HM. unfold arguments_get_line.
  assert (arguments_get_line_loop mbrlen M (c :: rest)
            (length (c :: rest)) M mbs_initial 0 false false 0 0 0
          = (0, 0)) as ->.
  { destruct M as [|[|M]]; [reflexivity| |lia].
    destruct rest as [|y rest]; [congruence|].
    rewrite arguments_get_line_loop_turn;
      [|simpl; lia|lia|exact (proj1 Hc)|].
    - change (byte_at (c :: y :: rest) 0) with c.
      rewrite (proj2 Hc). reflexivity.
    - apply Z.eqb_neq, word_char_not_newline, Hc. }
  cbn [Nat.ltb Nat.leb]. rewrite skip_spaces_word; [reflexivity|].
  intros _. exact Hc.
Qed.

Lemma wrapped_lines_stuck (c : ascii) (rest : list ascii) (M : nat) :
  word_char c -> rest <> [] -> M <= 1 ->
  forall fuel, wrapped_lines mbs_initial mbrlen fuel (c :: rest) M = None.
Proof.
  intros Hc Hrest HM.
  pose proof (arguments_get_line_stuck c rest M Hc Hrest HM) as Hstuck.
  induction fuel as [|fuel IH]; [reflexivity|].
  cbn [wrapped_lines]. rewrite Hstuck. cbn [drop]. now rewrite IH.
Qed.

(** On plain text and with two columns or more the loop of
    [arguments_print_help_string] ends. *)
Lemma wrapped_lines_returns (M : nat) (c : list ascii) (fuel : nat) :
  Forall plain_char c -> 2 <= M -> length c < fuel ->
  is_Some (wrapped_lines mbs_initial mbrlen fuel c M).
Proof.
  intros Hc HM. revert c Hc.
  induction fuel as [|fuel IH]; intros c Hc Hfuel; [lia|].
  cbn [wrapped_lines]. destruct c as [|x c']; [eauto|].
  set (c := x :: c') in *.
  assert (Forall seven_bit c) as H7
      by (eapply Forall_impl; [exact Hc|]; now intros ? []).
  destruct (arguments_get_line_shape c M H7) as (S1 & _).
  assert (1 <= (arguments_get_line mbs_initial mbrlen c M).1) as Hadv.
  { apply arguments_get_line_advances; [exact H7|simpl; lia|exact HM|].
    apply Forall_cons in Hc. destruct Hc as [[_ Hx] _]. exact Hx. }
  destruct (arguments_get_line mbs_initial mbrlen c M) as [k len].
  cbn [fst snd] in *.
  destruct (IH (drop k c)) as [ls ->]; [now apply Forall_drop| |eauto].
  rewrite length_drop. subst c. simpl in *. lia.
Qed.

(** X13. Where the terminal is no wider than the header column, or
    wider by one column, and where, without a header, the terminal
    width is the greatest [unsigned int], which is what
    [arguments_terminal_width] makes of a [COLUMNS] that [atoi] reads
    as 0, the loop of [arguments_print_help_string] never ends on a
    help text that begins with a word of two bytes or more:
    [arguments_get_line] is asked for a line of no column or of one,
    and answers with an empty line and the offset 0, so that [c] stays
    where it is. *)
Theorem help_loops_in_narrow_terminal (has_header : bool) (hw tw : Z)
    (c : ascii) (rest : list ascii) :
  (if has_header then (hw <= tw <= hw + 1)%Z
   else tw = (UINT_MODULUS - 1)%Z) ->
  word_char c -> rest <> [] ->
  let M := Z.to_nat (help_max_length has_header hw tw) in
  arguments_get_line mbs_initial mbrlen (c :: rest) M = (0, 0)
  /\ forall fuel,
       wrapped_lines mbs_initial mbrlen fuel (c :: rest) M = None.
Proof.
  intros Hw Hc Hrest M.
  assert (M <= 1) as HM.
  { unfold M, help_max_length. destruct has_header.
    - rewrite to_uint_small by (unfold UINT_MODULUS; lia). lia.
    - subst tw.
      replace (to_uint (UINT_MODULUS - 1 - 0 + 1)) with 0%Z
        by (vm_compute; reflexivity).
      simpl. lia. }
  pose proof (arguments_get_line_stuck c rest M Hc Hrest HM) as Hstuck.
  split; [exact Hstuck|].
  induction fuel as [|fuel IH]; [reflexivity|].
  cbn [wrapped_lines]. rewrite Hstuck. cbn [drop]. now rewrite IH.
Qed.

(** X21. Why the caller adds one: with the [max_length] that
    [arguments_print_help_string] passes, a line of 7-bit text that is
    followed by more text fits the terminal, next to the header column
    and its space where there is a header; only the line that ends the
    text can be one column longer. *)
Theorem help_line_fits_terminal (has_header : bool) (hw tw : Z)
    (s : list ascii) :
  Forall seven_bit s ->
  (0 <= hw)%Z ->
  (if has_header then (hw < tw < UINT_MODULUS)%Z
   else (0 <= tw < UINT_MODULUS - 1)%Z) ->
  let M := Z.to_nat (help_max_length has_header hw tw) in
  let out := arguments_get_line mbs_initial mbrlen s M in
  (Z.of_nat out.2 + (if has_header then hw + 1 else 0) <= tw + 1)%Z
  /\ (out.1 < length s ->
      (Z.of_nat out.2 + (if has_header then hw + 1 else 0) <= tw)%Z).
Proof.
  intros Hs Hhw Htw M out.
  assert (Z.of_nat M = if has_header then tw - hw else tw + 1)%Z as EM.
  { unfold M, help_max_length. destruct has_header.
    - rewrite to_uint_small by (unfold UINT_MODULUS in *; lia). lia.
    - rewrite to_uint_small by (unfold UINT_MODULUS in *; lia). lia. }
  assert (1 <= M) as HM by (destruct has_header; lia).
  destruct (arguments_get_line_shape s M Hs) as (_ & S2 & _).
  pose proof (arguments_get_line_below s M Hs HM) as Hbelow.
  cbv zeta in Hbelow. fold out in S2, Hbelow.
  split; [destruct has_header; lia|].
  intros Hmore. destruct Hbelow as [Hb|[_ Hb]]; [|lia].
  destruct has_header; lia.
Qed.

Lemma arguments_get_line_loop_fits (s : list ascii) (M : nat) n :
  Forall seven_bit s ->
  Forall (fun c => char_code c <> newline_code) s ->
  length s <= M ->
  forall f len ws ss i res,
    i + n = length s -> 0 < n -> n <= f ->
    arguments_get_line_loop mbrlen f s (length s) M mbs_initial
      len ws ss i i res
    = (length s, length s).
Proof.
  intros H7 Hnl HM.
  induction n as [|n IH]; intros f len ws ss i res Hn Hpos Hf; [lia|].
  destruct f as [|f]; [lia|].
  rewrite arguments_get_line_loop_turn;
    [|lia|lia|apply byte_at_Forall; [exact H7|lia]
     |apply (byte_at_Forall _ s i Hnl); lia].
  destruct n as [|n].
  - replace (S i =? length s) with true
      by (symmetry; apply Nat.eqb_eq; lia).
    destruct f as [|f]; cbn [arguments_get_line_loop].
    + f_equal; lia.
    + replace (S i <? length s) with false
        by (symmetry; apply Nat.ltb_ge; lia).
      cbn [andb]. f_equal; lia.
  - apply IH; lia.
Qed.

(** X14. A text of 7-bit bytes without a newline that is no longer
    than [max_length] is one line: [arguments_get_line] returns its
    length both as the line and as the offset, trailing white space
    included, and the loop of [arguments_print_help_string] prints it
    in one turn. *)
Theorem arguments_get_line_fits (s : list ascii) (M : nat) :
  Forall seven_bit s ->
  Forall (fun c => char_code c <> newline_code) s ->
  length s <= M ->
  arguments_get_line mbs_initial mbrlen s M = (length s, length s)
  /\ forall fuel,
       2 <= fuel -> s <> [] ->
       wrapped_lines mbs_initial mbrlen fuel s M = Some [s].
Proof.
  intros H7 Hnl HM.
  assert (arguments_get_line mbs_initial mbrlen s M
          = (length s, length s)) as Hline.
  { unfold arguments_get_line. destruct s as [|x s'].
    - destruct M; reflexivity.
    - set (s := x :: s') in *.
      rewrite (arguments_get_line_loop_fits s M (length s) H7 Hnl HM)
        by (subst s; simpl in *; lia).
      now rewrite Nat.ltb_irrefl, Nat.sub_diag. }
  split; [exact Hline|].
  intros fuel Hfuel Hne. destruct fuel as [|[|fuel]]; [lia|lia|].
  destruct s as [|x s']; [congruence|].
  cbn [wrapped_lines]. rewrite Hline.
  rewrite drop_all, take_ge by lia. reflexivity.
Qed.

Lemma arguments_get_line_loop_newline (line : list ascii) (nl : ascii)
    (rest : list ascii) (M : nat) n :
  Forall seven_bit line ->
  Forall (fun c => char_code c <> newline_code) line ->
  char_code nl = newline_code ->
  length line < M ->
  forall f len ws ss i res,
    i + n = length line -> n < f ->
    arguments_get_line_loop mbrlen f (line ++ nl :: rest)
      (length (line ++ nl :: rest)) M mbs_initial len ws ss i i res
    = (length line, length line + 1).
Proof.
  intros H7 Hnl Enl HM.
  assert (length (line ++ nl :: rest) = length line + S (length rest))
    as HL by (rewrite length_app; reflexivity).
  induction n as [|n IH]; intros f len ws ss i res Hn Hf;
    (destruct f as [|f]; [lia|]).
  - assert (i = length line) as -> by lia.
    cbn [arguments_get_line_loop].
    replace (length line <? length (line ++ nl :: rest)) with true
      by (symmetry; apply Nat.ltb_lt; lia).
    replace (length line <? M) with true
      by (symmetry; apply Nat.ltb_lt; lia).
    cbn [andb].
    assert (byte_at (line ++ nl :: rest) (length line) = nl) as Eb
        by (unfold byte_at; now rewrite list_lookup_middle).
    rewrite Eb. apply Z.eqb_eq in Enl. now rewrite Enl.
  - assert (byte_at (line ++ nl :: rest) i = byte_at line i) as Eb
        by (unfold byte_at; rewrite lookup_app_l by lia; reflexivity).
    rewrite arguments_get_line_loop_turn;
      [|lia|lia|rewrite Eb; apply byte_at_Forall; [exact H7|lia]
       |rewrite Eb; apply (byte_at_Forall _ line i Hnl); lia].
    apply IH; lia.
Qed.

(** X15. A newline within reach ends the line: where the text up to
    the first newline is 7-bit and shorter than [max_length], the line
    is that text, white space in front of the newline included, and
    the offset of the next line is past the newline and past every
    plain space that follows it, so that the next line loses its
    indentation. *)
Theorem arguments_get_line_newline (line : list ascii) (nl : ascii)
    (rest : list ascii) (M : nat) :
  Forall seven_bit line ->
  Forall (fun c => char_code c <> newline_code) line ->
  char_code nl = newline_code ->
  length line < M ->
  let s := line ++ nl :: rest in
  let out := arguments_get_line mbs_initial mbrlen s M in
  out.2 = length line
  /\ length line + 1 <= out.1 <= length s
  /\ (forall u, length line + 1 <= u < out.1 ->
        char_code (byte_at s u) = space_code)
  /\ (out.1 < length s -> char_code (byte_at s out.1) <> space_code).
Proof.
  intros H7 Hnl Enl HM s out.
  assert (out = (skip_spaces (length s - (length line + 1)) s (length s)
                   (length line + 1), length line)) as ->.
  { unfold out, arguments_get_line, s.
    rewrite (arguments_get_line_loop_newline line nl rest M (length line)
               H7 Hnl Enl HM) by lia.
    replace (length line + 1 <? length line) with false
      by (symmetry; apply Nat.ltb_ge; lia).
    reflexivity. }
  assert (length s = length line + S (length rest)) as HL
      by (unfold s; rewrite length_app; reflexivity).
  destruct (skip_spaces_spec s (length s - (length line + 1))
              (length line + 1)) as (K1 & K2 & K3); [lia|lia|].
  cbn [fst snd]. split; [reflexivity|]. split; [exact K1|].
  split; [exact K2|exact K3].
Qed.

End LineWrapMore.

(** ** The terminal width and the header column *)

Section HelpLayout.

Context {V W : Type}.
Implicit Types (p : program V W) (d : descriptor V W).
Implicit Types (ds : list (descriptor V W)).

Local Open Scope Z_scope.

(** X16. [arguments_terminal_width] never returns 0: it returns 80
    where [COLUMNS] is not set, the greatest [unsigned int] where
    [atoi] makes 0 of it, the number where it is positive, and the
    number taken modulo 2^32, which is above [INT_MAX], where it is
    negative. *)
Theorem arguments_terminal_width_never_zero (atoi : string -> Z)
    (COLUMNS : option string) :
  (forall c, COLUMNS = Some c -> - INT_MAX - 1 <= atoi c <= INT_MAX) ->
  let w := arguments_terminal_width atoi COLUMNS in
  0 < w < UINT_MODULUS
  /\ (COLUMNS = None -> w = 80)
  /\ (forall c, COLUMNS = Some c -> atoi c = 0 -> w = UINT_MODULUS - 1)
  /\ (forall c, COLUMNS = Some c -> 0 < atoi c -> w = atoi c)
  /\ (forall c, COLUMNS = Some c -> atoi c < 0 ->
        w = atoi c + UINT_MODULUS /\ INT_MAX < w).
Proof.
  intros Hatoi w. unfold w, arguments_terminal_width.
  destruct COLUMNS as [c|].
  - specialize (Hatoi c eq_refl). unfold INT_MAX in Hatoi.
    unfold truthy. rewrite negb_involutive.
    destruct (Z.eqb_spec (atoi c) 0) as [E|E].
    + change (to_uint (to_int (to_uint (-1)))) with 4294967295.
      unfold UINT_MODULUS. split; [lia|]. split; [discriminate|].
      split; [reflexivity|]. split; intros c' [= <-] H; lia.
    + assert (atoi c < 0 -> to_uint (atoi c) = atoi c + UINT_MODULUS)
        as Hneg.
      { intros H. unfold to_uint.
        rewrite <- (Z.mod_add (atoi c) 1 UINT_MODULUS)
          by (unfold UINT_MODULUS; lia).
        apply Z.mod_small. unfold UINT_MODULUS. lia. }
      assert (0 < atoi c -> to_uint (atoi c) = atoi c) as Hpos
          by (intros H; apply to_uint_small; unfold UINT_MODULUS; lia).
      split; [|split; [discriminate|split; [|split]]].
      * destruct (Z.lt_ge_cases (atoi c) 0) as [H|H].
        -- rewrite (Hneg H). unfold UINT_MODULUS. lia.
        -- rewrite Hpos by lia. unfold UINT_MODULUS. lia.
      * intros c' [= <-] H. contradiction.
      * intros c' [= <-] H. now apply Hpos.
      * intros c' [= <-] H. rewrite (Hneg H).
        unfold UINT_MODULUS, INT_MAX. lia.
  - change (to_uint _) with 80. unfold UINT_MODULUS.
    split; [lia|]. split; [reflexivity|].
    split; [|split]; intros c' [=].
Qed.

Lemma argument_header_width_from_ge ds (r : Z) :
  r <= argument_header_width_from ds r.
Proof.
  revert r. induction ds as [|d ds IH]; intros r; simpl; [lia|].
  specialize (IH (if r <? header_width_of d then header_width_of d else r)).
  destruct (Z.ltb_spec r (header_width_of d)); lia.
Qed.

Lemma argument_header_width_from_elem ds (r : Z) d :
  d ∈ ds -> header_width_of d <= argument_header_width_from ds r.
Proof.
  revert r. induction ds as [|x ds IH]; intros r Hd; [inversion Hd|].
  apply elem_of_cons in Hd. simpl. destruct Hd as [->|Hd].
  - etransitivity; [|apply argument_header_width_from_ge].
    destruct (Z.ltb_spec r (header_width_of x)); lia.
  - now apply IH.
Qed.

Lemma argument_header_width_from_max ds (r : Z) :
  argument_header_width_from ds r = r
  \/ exists d, d ∈ ds /\ argument_header_width_from ds r = header_width_of d.
Proof.
  revert r. induction ds as [|x ds IH]; intros r; simpl; [now left|].
  destruct (IH (if r <? header_width_of x then header_width_of x else r))
    as [E|(d & Hd & E)].
  - rewrite E. destruct (Z.ltb_spec r (header_width_of x)); [|now left].
    right. exists x. split; [apply elem_of_cons; now left|reflexivity].
  - right. exists d. split; [apply elem_of_cons; now right|exact E].
Qed.

Lemma length_dashed (s : string) :
  String.length (dashed s) = String.length s.
Proof. induction s as [|c s IH]; simpl; [reflexivity|now rewrite IH]. Qed.

Lemma length_string_take (n : nat) (s : string) :
  (String.length (string_take n s) <= String.length s)%nat.
Proof.
  revert s. induction n as [|n IH]; intros [|c s]; simpl; try lia.
  specialize (IH s). lia.
Qed.

Lemma string_take_all (n : nat) (s : string) :
  (String.length s <= n)%nat -> string_take n s = s.
Proof.
  revert s. induction n as [|n IH]; intros [|c s]; simpl; intros H;
    try reflexivity; try lia.
  rewrite IH by lia. reflexivity.
Qed.

Lemma length_append (a b : string) :
  String.length (a ++ b) = (String.length a + String.length b)%nat.
Proof. induction a as [|c a IH]; simpl; [reflexivity|now rewrite IH]. Qed.

Lemma dashed_append (a b : string) :
  dashed (a ++ b) = (dashed a ++ dashed b)%string.
Proof. induction a as [|c a IH]; simpl; [reflexivity|now rewrite IH]. Qed.

(** X17. The column that [argument_header_width] computes is wide
    enough for the header that [arguments_print_help] builds for every
    line of the table that both expand, and no wider than the widest
    of them needs: it is 0 or the width computed for one of the
    lines. *)
Theorem header_fits_column p d :
  d ∈ help_table p ->
  Z.of_nat (String.length (name d))
  + match short d with
    | Some a => Z.of_nat (String.length a)
    | None => 0
    end + 4 < UINT_MODULUS ->
  Z.of_nat (String.length (help_header d)) <= argument_header_width p
  /\ (argument_header_width p = 0
      \/ exists d', d' ∈ help_table p
                    /\ argument_header_width p = header_width_of d').
Proof.
  intros Hd Hsmall. split; [|apply argument_header_width_from_max].
  etransitivity;
    [|apply (argument_header_width_from_elem (help_table p) 0 d Hd)].
  unfold help_header, header_width_of. rewrite length_dashed.
  etransitivity; [apply inj_le, length_string_take|].
  rewrite (to_uint_small (2 + Z.of_nat (String.length (name d))))
    by (destruct (short d); unfold UINT_MODULUS in *; lia).
  destruct (short d) as [a|].
  - rewrite to_uint_small by (unfold UINT_MODULUS in *; lia).
    cbn [append String.length]. rewrite length_append.
    cbn [append String.length]. lia.
  - cbn [append String.length]. lia.
Qed.

(** X18. The header that [arguments_print_help] builds for a line,
    where it fits the buffer, is the long form of the name, that is
    two dashes and the name with every underscore turned into a dash,
    followed, for a line with a short name, by a comma, a space and
    the short name with its underscores turned into dashes as well.
    For a line without a short name whose name is an identifier, the
    header is the one string on which [arguments_cmp] returns 0 for
    that name. *)
Theorem help_header_long_form d :
  (String.length (name d)
   + match short d with
     | Some a => 2 + String.length a
     | None => 0
     end <= 125)%nat ->
  help_header d
  = match short d with
    | Some a => (long_form (name d) ++ ", " ++ dashed a)%string
    | None => long_form (name d)
    end
  /\ (short d = None -> name_ok (name d) ->
      arguments_cmp (help_header d) (name d) = 0
      /\ forall tok,
           cstring tok -> arguments_cmp tok (name d) = 0 ->
           tok = help_header d).
Proof.
  intros Hlen.
  assert (help_header d
          = match short d with
            | Some a => (long_form (name d) ++ ", " ++ dashed a)%string
            | None => long_form (name d)
            end) as Hshape.
  { unfold help_header. destruct (short d) as [a|].
    - rewrite string_take_all
        by (cbn [append String.length]; rewrite !length_append;
            cbn [String.length]; lia).
      cbn [append dashed]. rewrite dashed_append. reflexivity.
    - rewrite string_take_all by (cbn [append String.length]; lia).
      reflexivity. }
  split; [exact Hshape|].
  intros Hnone [Hc Hf]. rewrite Hshape, Hnone. split.
  - apply arguments_cmp_zero_iff; [now apply cstring_long_form|exact Hc|].
    reflexivity.
  - intros tok Htok H.
    now apply arguments_cmp_zero_iff in H.
Qed.

End HelpLayout.

(** ** Whether the scan ends *)

Section ReaderTermination.

Context {V W : Type}.
Implicit Types (p : program V W) (st : state V W) (d : descriptor V W).
Implicit Types (argv : list string).

Local Open Scope Z_scope.

(** With arities that are non-negative [int]s, every turn moves
    [*nextarg] forward, and not past the end. *)
Lemma reaches_bounds p argv j0 st0 j st :
  Forall arity_ok (schema p) ->
  Z.of_nat (length argv) <= INT_MAX ->
  0 <= j0 ->
  reaches p argv j0 st0 j st ->
  j0 <= j <= Z.max j0 (Z.of_nat (length argv)).
Proof.
  intros Hok Hargc Hj0 Hreach.
  induction Hreach as [j st|j st j1 st1 j2 st2 Hlt Hbody _ IH]; [lia|].
  unfold arguments_read_body in Hbody.
  destruct (_ && _); [discriminate|].
  destruct (select _ _) as [[i d]|] eqn:Hsel; [|discriminate].
  assert (arity_ok d) as Hd.
  { unfold select in Hsel. apply list_find_Some in Hsel.
    destruct Hsel as (Hsel & _). rewrite Forall_forall in Hok.
    apply Hok. eapply list_elem_of_lookup_2, Hsel. }
  destruct (Z.ltb_spec (j + value_count d) (Z.of_nat (length argv)))
    as [H|H].
  - rewrite matched_branch_enough in Hbody by assumption.
    injection Hbody as <- _. unfold arity_ok in Hd. lia.
  - rewrite matched_branch_short in Hbody by (try assumption; lia).
    discriminate.
Qed.

(** X19. With arities that are non-negative [int]s, and with a help
    printer that returns where help is handled, [arguments_read]
    returns, after no more turns than [argv] has elements, and
    [*nextarg] is then no smaller than where the scan began and no
    greater than [argc], unless it began beyond. *)
Theorem arguments_read_terminates p h fuel argv start st0 :
  Forall arity_ok (schema p) ->
  Z.of_nat (length argv) <= INT_MAX ->
  (truthy (ARGUMENTS_PRINT_HELP p) = true ->
   is_Some (arguments_print_help p h)) ->
  (length argv + h < fuel)%nat ->
  exists status j st',
    arguments_read p fuel argv start st0 = Some (status, j, st')
    /\ Z.max 1 start <= j <= Z.max (Z.max 1 start) (Z.of_nat (length argv)).
Proof.
  intros Hok Hargc Hhelp Hfuel. unfold arguments_read.
  replace (if start <? 1 then 1 else start) with (Z.max 1 start)
    by (destruct (Z.ltb_spec start 1); lia).
  destruct (arguments_read_loop_total p h fuel argv (Z.max 1 start) st0
              Hok Hargc Hhelp) as [[[status j] st'] Hret]; [lia|lia|].
  exists status, j, st'. split; [exact Hret|].
  apply arguments_read_loop_returns in Hret.
  destruct Hret as (st & Hreach & _).
  apply (reaches_bounds p argv _ st0 j st Hok Hargc); [lia|exact Hreach].
Qed.

Lemma arguments_read_loop_more_fuel p argv fuel k j st r :
  arguments_read_loop p fuel argv j st = Some r ->
  arguments_read_loop p (k + fuel) argv j st = Some r.
Proof.
  revert j st. induction fuel as [|fuel IH]; intros j st; [discriminate|].
  rewrite Nat.add_succ_r. cbn [arguments_read_loop].
  destruct (j <? Z.of_nat (length argv)); [|auto].
  destruct (arguments_read_body p argv j st); auto.
  destruct (arguments_print_help p (S fuel)) as [out|] eqn:E;
    [|discriminate].
  change (S (k + fuel)) with (S k + fuel)%nat. rewrite Nat.add_succ_comm.
  now rewrite (arguments_print_help_more_fuel p (S fuel) k out E).
Qed.

(** A matched flag whose arity is -1, taken as [unsigned int], leaves
    [*nextarg] where it is. *)
Lemma matched_branch_back argv j i d st :
  1 <= j < Z.of_nat (length argv) ->
  Z.of_nat (length argv) <= INT_MAX ->
  to_uint (value_count d) = UINT_MODULUS - 1 ->
  exists st', matched_branch argv j i d st = Next j st'.
Proof.
  unfold INT_MAX. intros Hj Hargc Hlen. unfold matched_branch.
  rewrite Hlen.
  assert (to_uint (j + (UINT_MODULUS - 1)) = j - 1) as ->.
  { unfold to_uint, UINT_MODULUS.
    replace (j + (4294967296 - 1)) with (j - 1 + 1 * 4294967296) by lia.
    rewrite Z.mod_add by lia. apply Z.mod_small. lia. }
  rewrite (to_uint_small (Z.of_nat (length argv)))
    by (unfold UINT_MODULUS; lia).
  replace (j - 1 <? Z.of_nat (length argv)) with true
    by (symmetry; apply Z.ltb_lt; lia).
  rewrite (to_uint_small (j + 1)) by (unfold UINT_MODULUS; lia).
  assert (to_int (j + 1 + (UINT_MODULUS - 1)) = j) as ->.
  { unfold to_int, UINT_MODULUS, INT_MAX.
    replace (j + 1 + (4294967296 - 1)) with (j + 1 * 4294967296) by lia.
    rewrite Z.mod_add by lia. rewrite Z.mod_small by lia.
    destruct (Z.leb_spec j 2147483647); lia. }
  eexists. reflexivity.
Qed.

(** X20. A flag whose arity is -1, taken as [unsigned int], stops the
    scan for good: the test for enough tokens holds by wrap-around, and
    adding the arity to [*nextarg] takes back the step over the flag,
    so that the loop meets the same flag again; [arguments_read] does
    not return. *)
Theorem arguments_read_spins p argv start st0 j st i d :
  1 <= start ->
  reaches p argv start st0 j st ->
  1 <= j < Z.of_nat (length argv) ->
  Z.of_nat (length argv) <= INT_MAX ->
  truthy (ARGUMENTS_PRINT_HELP p) && is_help_token (token_at argv j) = false ->
  select (schema p) (token_at argv j) = Some (i, d) ->
  to_uint (value_count d) = UINT_MODULUS - 1 ->
  forall fuel, arguments_read p fuel argv start st0 = None.
Proof.
  intros Hstart Hreach Hj Hargc Hhelp Hsel Hlen fuel.
  rewrite arguments_read_from by exact Hstart.
  assert (forall f s, arguments_read_loop p f argv j s = None) as Hspin.
  { induction f as [|f IH]; intros s; [reflexivity|]. simpl.
    replace (j <? Z.of_nat (length argv)) with true
      by (symmetry; apply Z.ltb_lt; lia).
    rewrite (arguments_read_body_matched p argv j s i d Hhelp Hsel).
    destruct (matched_branch_back argv j i d s Hj Hargc Hlen) as [s' ->].
    apply IH. }
  destruct (arguments_read_loop_reaches _ _ _ _ _ _ Hreach) as [n Hn].
  destruct (arguments_read_loop p fuel argv start st0) as [r|] eqn:E;
    [|reflexivity].
  apply (arguments_read_loop_more_fuel p argv fuel n) in E.
  rewrite Hn, Hspin in E. discriminate.
Qed.

End ReaderTermination.

(** ** The call of the help printer *)

Section HelpCall.

Context {V W : Type}.
Implicit Types (p : program V W) (d : descriptor V W).
Implicit Types (ds : list (descriptor V W)).

Local Open Scope Z_scope.

Lemma arguments_print_help_string_returns p fuel header text hw tw :
  mbrlen_ascii_ok (mbs_initial p) (mbrlen p) ->
  Forall plain_char (list_ascii_of_string text) ->
  (length (list_ascii_of_string text) < fuel)%nat ->
  0 <= hw < UINT_MODULUS - 1 ->
  match header with
  | Some _ => hw + 2 <= tw < UINT_MODULUS
  | None => 1 <= tw < UINT_MODULUS - 1
  end ->
  is_Some (arguments_print_help_string p fuel header text hw tw).
Proof.
  intros Hmb Htext Hfuel Hhw Htw. unfold arguments_print_help_string.
  set (has_header := match header with Some _ => true | None => false end).
  assert (2 <= Z.to_nat (help_max_length has_header hw tw))%nat as HM.
  { unfold help_max_length, has_header. destruct header.
    - rewrite to_uint_small by (unfold UINT_MODULUS in *; lia). lia.
    - rewrite to_uint_small by (unfold UINT_MODULUS in *; lia). lia. }
  destruct (wrapped_lines_returns (mbs_initial p) (mbrlen p) Hmb _ _ fuel
              Htext HM Hfuel) as [lines ->].
  replace (hw =? UINT_MODULUS - 1) with false
    by (symmetry; apply Z.eqb_neq; lia).
  rewrite andb_false_r. eauto.
Qed.

Lemma print_help_rows_returns p fuel ds hw tw :
  mbrlen_ascii_ok (mbs_initial p) (mbrlen p) ->
  Forall (fun d =>
            Forall plain_char (list_ascii_of_string (help d))
            /\ (length (list_ascii_of_string (help d)) < fuel)%nat) ds ->
  0 <= hw < UINT_MODULUS - 1 ->
  hw + 2 <= tw < UINT_MODULUS ->
  is_Some (print_help_rows p fuel ds hw tw).
Proof.
  intros Hmb Hds Hhw Htw.
  induction Hds as [|d ds [Hd Hf] _ IH]; simpl; [eauto|].
  destruct (arguments_print_help_string_returns p fuel
              (Some (help_header d)) (help d) hw tw Hmb Hd Hf Hhw Htw)
    as [lines ->].
  destruct IH as [rows ->]. eauto.
Qed.

(** X23. The help printer returns where the help texts are 7-bit with
    no white space but plain spaces and newlines and the terminal
    leaves two columns or more beside the header column: with the
    width of the header column within [int] and at least two below
    the terminal width, and, where there is a help header, a terminal
    width below the greatest [unsigned int]. *)
Theorem arguments_print_help_returns p fuel :
  mbrlen_ascii_ok (mbs_initial p) (mbrlen p) ->
  (forall text,
      ARGUMENTS_HELP p = Some text ->
      Forall plain_char (list_ascii_of_string text)
      /\ (length (list_ascii_of_string text) < fuel)%nat
      /\ arguments_terminal_width (atoi p) (COLUMNS p) < UINT_MODULUS - 1) ->
  Forall (fun d =>
            Forall plain_char (list_ascii_of_string (help d))
            /\ (length (list_ascii_of_string (help d)) < fuel)%nat)
         (help_table p) ->
  argument_header_width p <= INT_MAX ->
  argument_header_width p + 2
  <= arguments_terminal_width (atoi p) (COLUMNS p) < UINT_MODULUS ->
  is_Some (arguments_print_help p fuel).
Proof.
  intros Hmb Htop Hrows Hint Htw. unfold arguments_print_help.
  pose proof (argument_header_width_from_ge (help_table p) 0) as Hge.
  fold (argument_header_width p) in Hge.
  rewrite to_int_small by lia.
  rewrite (to_uint_small (argument_header_width p))
    by (unfold UINT_MODULUS, INT_MAX in *; lia).
  destruct (print_help_rows_returns p fuel (help_table p)
              (argument_header_width p)
              (arguments_terminal_width (atoi p) (COLUMNS p)) Hmb Hrows)
    as [rows ->]; [unfold UINT_MODULUS, INT_MAX in *; lia|exact Htw|].
  destruct (ARGUMENTS_HELP p) as [text|]; [|eauto].
  destruct (Htop text eq_refl) as (H1 & H2 & H3).
  destruct (arguments_print_help_string_returns p fuel None text 0
              (arguments_terminal_width (atoi p) (COLUMNS p)) Hmb H1 H2)
    as [top ->]; [unfold UINT_MODULUS; lia|lia|eauto].
Qed.

(** Where the first line of the table has a help text that begins with
    a word of two bytes or more and the terminal is no wider than the
    header column, or wider by one column, the help printer does not
    return. *)
Lemma arguments_print_help_stuck p d ds c rest :
  mbrlen_ascii_ok (mbs_initial p) (mbrlen p) ->
  ARGUMENTS_HELP p = None ->
  help_table p = d :: ds ->
  list_ascii_of_string (help d) = c :: rest ->
  word_char c -> rest <> [] ->
  argument_header_width p <= INT_MAX ->
  argument_header_width p
  <= arguments_terminal_width (atoi p) (COLUMNS p)
  <= argument_header_width p + 1 ->
  forall fuel, arguments_print_help p fuel = None.
Proof.
  intros Hmb Htop Htable Htext Hc Hrest Hint Htw fuel.
  unfold arguments_print_help. rewrite Htop, Htable.
  pose proof (argument_header_width_from_ge (help_table p) 0) as Hge.
  fold (argument_header_width p) in Hge.
  rewrite to_int_small by lia.
  rewrite (to_uint_small (argument_header_width p))
    by (unfold UINT_MODULUS, INT_MAX in *; lia).
  cbn [print_help_rows]. unfold arguments_print_help_string.
  rewrite Htext.
  rewrite (wrapped_lines_stuck (mbs_initial p) (mbrlen p) Hmb c rest);
    [reflexivity|exact Hc|exact Hrest|].
  unfold help_max_length.
  rewrite to_uint_small by (unfold UINT_MODULUS, INT_MAX in *; lia). lia.
Qed.

(** Where there is a help header that begins with a word of two bytes
    or more and the terminal width is the greatest [unsigned int],
    the help printer does not return either. *)
Lemma arguments_print_help_stuck_top p text c rest :
  mbrlen_ascii_ok (mbs_initial p) (mbrlen p) ->
  ARGUMENTS_HELP p = Some text ->
  list_ascii_of_string text = c :: rest ->
  word_char c -> rest <> [] ->
  arguments_terminal_width (atoi p) (COLUMNS p) = UINT_MODULUS - 1 ->
  forall fuel, arguments_print_help p fuel = None.
Proof.
  intros Hmb Htop Htext Hc Hrest Htw fuel.
  unfold arguments_print_help. rewrite Htop, Htw.
  unfold arguments_print_help_string. rewrite Htext.
  rewrite (wrapped_lines_stuck (mbs_initial p) (mbrlen p) Hmb c rest);
    [reflexivity|exact Hc|exact Hrest|].
  vm_compute. lia.
Qed.

End HelpCall.

(** C6.  The scan reaches the token [--help] and the help printer is
    called.  With [COLUMNS=3] and the one line [x], whose header [--x]
    has three columns and whose help text is [ab], the printer asks for
    lines of no column, gets the offset 0 every time and does not
    return; so it is with the help header [ab] and [COLUMNS=0], which
    makes the terminal width the greatest [unsigned int] and the line
    length, one more, 0.  In both [arguments_read] does not return
    [AC_HELP], and neither does [main] return. *)
Theorem help_call_never_returns :
  forall fuel,
    (arguments_read narrow_program fuel ["prog"; "--help"]%string 1
       (fresh narrow_program) = None
     /\ main narrow_program fuel ["prog"; "--help"]%string (State [] tt [] [])
        = None)
    /\ (arguments_read headless_program fuel ["prog"; "--help"]%string 1
          (fresh headless_program) = None
        /\ main headless_program fuel ["prog"; "--help"]%string
             (State [] tt [] [])
           = None).
Proof.
  assert (forall fuel, arguments_print_help narrow_program fuel = None)
    as Hnarrow.
  { apply (arguments_print_help_stuck narrow_program arg_narrow []
             "a"%char [ "b"%char ]).
    - exact mbrlen_C_ok.
    - reflexivity.
    - reflexivity.
    - reflexivity.
    - split; [split; reflexivity|reflexivity].
    - discriminate.
    - vm_compute. discriminate.
    - vm_compute. split; discriminate. }
  assert (forall fuel, arguments_print_help headless_program fuel = None)
    as Hheadless.
  { apply (arguments_print_help_stuck_top headless_program "ab"%string
             "a"%char [ "b"%char ]).
    - exact mbrlen_C_ok.
    - reflexivity.
    - reflexivity.
    - split; [split; reflexivity|reflexivity].
    - discriminate.
    - reflexivity. }
  assert (forall p : program Z unit,
             truthy (ARGUMENTS_PRINT_HELP p) = true ->
             (forall fuel, arguments_print_help p fuel = None) ->
             forall fuel,
               arguments_read p fuel ["prog"; "--help"]%string 1 (fresh p)
               = None) as Hread.
  { intros p Hp Hstuck [|fuel]; [reflexivity|].
    unfold arguments_read. cbn [arguments_read_loop].
    change (1 <? Z.of_nat (length ["prog"; "--help"]%string)) with true.
    unfold arguments_read_body. rewrite Hp.
    change (is_help_token (token_at ["prog"; "--help"]%string 1)) with true.
    cbn [andb]. now rewrite Hstuck. }
  intros fuel. split; (split; [now apply Hread|]);
    unfold main;
    [fold (fresh narrow_program)|fold (fresh headless_program)];
    now rewrite Hread.
Qed.

(** ** More of the sample tables at work *)

Local Open Scope string_scope.

(** A sample text is plain: 7-bit bytes, white space being the space
    and the newline. *)
Ltac plain_text :=
  unfold text; simpl;
  repeat (constructor;
          [split;
           [split; reflexivity
           |let H := fresh in
            intros H; vm_compute in H;
            first [discriminate H | left; reflexivity | right; reflexivity]]
          |]);
  constructor.

Ltac seven_bit_text :=
  unfold text; simpl;
  repeat (constructor; [split; reflexivity|]); constructor.

Ltac no_newline_text :=
  unfold text; simpl;
  repeat (constructor; [discriminate|]); constructor.

Lemma arguments_read_stops_at_unknown_witness :
  exists n, forall fuel, (n < fuel)%nat ->
    arguments_read count_program fuel ["prog"; "-c"; "5"; "file"] 1
      (fresh count_program)
    = Some (AC_OK, 3, count_taken ["prog"; "-c"; "5"; "file"]).
Proof.
  apply (arguments_read_stops_at_unknown count_program
           ["prog"; "-c"; "5"; "file"] 1 (fresh count_program) 3
           (count_taken ["prog"; "-c"; "5"; "file"])).
  - lia.
  - eapply reaches_turn; [simpl; lia|reflexivity|apply reaches_here].
  - simpl. lia.
  - reflexivity.
  - reflexivity.
Defined.

Lemma arguments_read_returns_witness :
  exists st,
    reaches count_program ["prog"; "-c"; "5"; "file"] 1 (fresh count_program)
      3 st
    /\ count_taken ["prog"; "-c"; "5"; "file"] = st.
Proof.
  destruct (arguments_read_returns count_program 5
              ["prog"; "-c"; "5"; "file"] 1 (fresh count_program) AC_OK 3
              (count_taken ["prog"; "-c"; "5"; "file"]) eq_refl)
    as (st & Hreach & [(_ & Hst & _)|[(H & _)|(H & _)]]);
    [|discriminate H|discriminate H].
  exists st. split; [exact Hreach|exact Hst].
Defined.

Lemma arguments_read_marks_only_witness :
  materialized (trace (count_taken ["prog"; "-c"; "5"]))
  = materialized (trace (fresh count_program))
  /\ initialized (record_at count_program (count_taken ["prog"; "-c"; "5"]) 0)
     = initialized (record_at count_program (fresh count_program) 0).
Proof.
  destruct (arguments_read_marks_only count_program 4 ["prog"; "-c"; "5"] 1
              (fresh count_program) AC_OK 3
              (count_taken ["prog"; "-c"; "5"]) eq_refl)
    as (_ & _ & H3 & _ & _ & H6).
  split; [exact H3|]. apply (H6 0%nat).
Defined.

Lemma arguments_read_values_in_bounds_witness :
  Forall values_in_bounds (arguments (count_taken ["prog"; "-c"; "5"])).
Proof.
  apply (arguments_read_values_in_bounds count_program 4
           ["prog"; "-c"; "5"] 1 (fresh count_program) AC_OK 3).
  - repeat constructor; unfold INT_MAX; simpl; lia.
  - unfold INT_MAX. simpl. lia.
  - repeat constructor. intros H. discriminate H.
  - reflexivity.
  - unfold AC_OK, AC_ERROR. lia.
Defined.

Lemma arguments_read_skips_program_name_witness :
  arguments_read count_program 4 ["prog"; "-c"; "5"] 1 (fresh count_program)
  = arguments_read count_program 4 ["-c"; "-c"; "5"] 1 (fresh count_program).
Proof.
  apply (arguments_read_skips_program_name count_program 4 "prog" "-c"
           ["-c"; "5"] 1 (fresh count_program)).
  unfold INT_MAX. simpl. lia.
Defined.

Lemma arguments_set_ok_witness :
  exists evs,
    trace (arguments_set level_size_program (level_taken "3")).2
    = (trace (level_taken "3") ++ evs)%list
    /\ materialized evs = [0; 1]%nat
    /\ EvRead 0 ∈ evs /\ EvDefault 1 ∈ evs.
Proof.
  destruct (arguments_set_ok level_size_program (level_taken "3")
              (arguments_set level_size_program (level_taken "3")).2)
    as [_ (evs & H1 & H2 & H3)].
  - reflexivity.
  - simpl. lia.
  - exists evs. split; [exact H1|]. split; [exact H2|]. split.
    + apply (H3 0%nat). simpl. lia.
    + apply (H3 1%nat). simpl. lia.
Defined.

(** [left] holds 3 and [right] its default 8: released once they
    leave 8 and 3 in the log, released again the zeros that the first
    release left. *)
Lemma explicit_release_runs_twice_witness :
  released
    (trace
       (run_atexit logging_program
          (arguments_release logging_program
             (arguments_set logging_program left_taken).2)))
  = [0; 1; 0; 1]%nat
  /\ world
       (run_atexit logging_program
          (arguments_release logging_program
             (arguments_set logging_program left_taken).2))
     = [0; 0; 8; 3].
Proof.
  destruct (explicit_release_runs_twice logging_program left_taken eq_refl)
    as [H1 H2].
  split; [exact H1|]. exact (f_equal snd H2).
Defined.

Lemma process_lifecycle_witness :
  exists st evs,
    process count_program 4 ["prog"; "-c"; "5"] tt = Some (Exit_run 0, st)
    /\ trace st
       = (EvSetup :: evs
            ++ EvRun :: (EvRelease <$> initialized_lines count_program st)
            ++ [EvTeardown])%list
    /\ materialized evs = [0]%nat.
Proof.
  edestruct (process_lifecycle count_program 4 ["prog"; "-c"; "5"] tt)
    as (evs & _ & H2 & H3); [reflexivity|].
  eexists _, evs. split; [reflexivity|]. split; [exact H2|exact H3].
Defined.

Lemma run_sees_initialized_witness :
  exists st,
    main count_program 4 ["prog"; "-c"; "5"] (State [] tt [] [])
    = Some (Exit_run 0, st)
    /\ initialized (record_at count_program st 0) = 1.
Proof.
  edestruct (run_sees_initialized count_program 4 ["prog"; "-c"; "5"]
               (State [] tt [] [])) as [H _]; [reflexivity|].
  eexists. split; [reflexivity|]. apply H. simpl. lia.
Defined.

Lemma arguments_get_line_keeps_ink_witness :
  (ink (take (arguments_get_line tt mbrlen_C (text "abc   def") 5).2
          (text "abc   def"))
   ++ ink (drop (arguments_get_line tt mbrlen_C (text "abc   def") 5).1
             (text "abc   def")))%list
  = ink (text "abc   def").
Proof.
  pose proof (arguments_get_line_keeps_ink tt mbrlen_C mbrlen_C_ok
                (text "abc   def") 5) as H.
  cbv zeta in H. destruct H as (_ & _ & H & _); [seven_bit_text|exact H].
Defined.

Lemma wrapped_lines_keeps_ink_witness :
  exists lines,
    wrapped_lines tt mbrlen_C 19 (text "abc def ghijklmnop") 8 = Some lines
    /\ Forall (fun line => (length line <= 8)%nat) lines
    /\ ink (concat lines) = ink (text "abc def ghijklmnop").
Proof.
  destruct (wrapped_lines_keeps_ink tt mbrlen_C mbrlen_C_ok 8
              (text "abc def ghijklmnop") 19)
    as (lines & H1 & H2 & _ & _ & H4).
  - plain_text.
  - lia.
  - simpl. lia.
  - exists lines. split; [exact H1|]. split; [exact H2|exact H4].
Defined.

Lemma help_loops_in_narrow_terminal_witness :
  arguments_get_line tt mbrlen_C (text "ab") 0 = (0, 0)%nat
  /\ wrapped_lines tt mbrlen_C 5 (text "ab") 0 = None.
Proof.
  pose proof (help_loops_in_narrow_terminal tt mbrlen_C mbrlen_C_ok true 7 7
                "a"%char (text "b")) as H.
  cbv zeta in H. destruct H as [H1 H2].
  - lia.
  - split; [split; reflexivity|reflexivity].
  - discriminate.
  - split; [exact H1|exact (H2 5%nat)].
Defined.

Lemma arguments_get_line_fits_witness :
  arguments_get_line tt mbrlen_C (text "abc def ") 10 = (8, 8)%nat.
Proof.
  destruct (arguments_get_line_fits tt mbrlen_C mbrlen_C_ok
              (text "abc def ") 10) as [H _].
  - seven_bit_text.
  - no_newline_text.
  - simpl. lia.
  - exact H.
Defined.

Lemma arguments_get_line_newline_witness :
  (arguments_get_line tt mbrlen_C
     (text "ab " ++ "010"%char :: text "  cd") 10).2
  = 3%nat.
Proof.
  pose proof (arguments_get_line_newline tt mbrlen_C mbrlen_C_ok
                (text "ab ") "010"%char (text "  cd") 10) as H.
  cbv zeta in H. destruct H as (H1 & _).
  - seven_bit_text.
  - no_newline_text.
  - reflexivity.
  - simpl. lia.
  - exact H1.
Defined.

Lemma arguments_terminal_width_never_zero_witness :
  arguments_terminal_width sample_atoi (Some "0") = UINT_MODULUS - 1.
Proof.
  pose proof (arguments_terminal_width_never_zero sample_atoi (Some "0"))
    as H.
  cbv zeta in H. destruct H as (_ & _ & H & _).
  - intros c [= <-]. vm_compute. split; discriminate.
  - apply (H "0"); reflexivity.
Defined.

Lemma header_fits_column_witness :
  Z.of_nat (String.length (help_header arg_count))
  <= argument_header_width count_program.
Proof.
  destruct (header_fits_column count_program arg_count) as [H _].
  - apply list_elem_of_singleton. reflexivity.
  - unfold UINT_MODULUS. simpl. lia.
  - exact H.
Defined.

Lemma help_header_long_form_witness :
  help_header arg_size = "--size"
  /\ arguments_cmp (help_header arg_size) "size" = 0.
Proof.
  destruct (help_header_long_form arg_size) as [H1 H2].
  - simpl. lia.
  - split; [exact H1|].
    destruct H2 as [H _]; [reflexivity| |exact H].
    split; simpl; repeat split; discriminate.
Defined.

Lemma arguments_read_terminates_witness :
  exists status j st',
    arguments_read count_program 5 ["prog"; "-c"; "5"] 1 (fresh count_program)
    = Some (status, j, st')
    /\ Z.max 1 1 <= j <= Z.max (Z.max 1 1) 3.
Proof.
  apply (arguments_read_terminates count_program 1 5 ["prog"; "-c"; "5"] 1
           (fresh count_program)).
  - repeat constructor; unfold INT_MAX; simpl; lia.
  - unfold INT_MAX. simpl. lia.
  - intros _. eexists. reflexivity.
  - simpl. lia.
Defined.

(** The flag [--wide] has the arity 4294967295. *)
Lemma arguments_read_spins_witness :
  arguments_read (sample_program 1 [arg_wide]) 7 ["prog"; "--wide"; "x"] 1
    (fresh (sample_program 1 [arg_wide]))
  = None.
Proof.
  apply (arguments_read_spins (sample_program 1 [arg_wide])
           ["prog"; "--wide"; "x"] 1 (fresh (sample_program 1 [arg_wide]))
           1 (fresh (sample_program 1 [arg_wide])) 0 arg_wide).
  - lia.
  - apply reaches_here.
  - simpl. lia.
  - unfold INT_MAX. simpl. lia.
  - reflexivity.
  - reflexivity.
  - reflexivity.
Defined.

Lemma help_line_fits_terminal_witness :
  Z.of_nat (arguments_get_line tt mbrlen_C (text "abc def ghijklmnop")
              (Z.to_nat (help_max_length false 0 7))).2
  + 0 <= 7.
Proof.
  pose proof (help_line_fits_terminal tt mbrlen_C mbrlen_C_ok false 0 7
                (text "abc def ghijklmnop")) as H.
  cbv zeta in H. destruct H as [_ H].
  - seven_bit_text.
  - lia.
  - unfold UINT_MODULUS. lia.
  - apply H. vm_compute. lia.
Defined.

(** With [COLUMNS] unset the terminal has 80 columns, and the header
    column of the line [x] has 3. *)
Lemma arguments_print_help_returns_witness :
  is_Some (arguments_print_help roomy_program 3).
Proof.
  apply (arguments_print_help_returns roomy_program 3).
  - exact mbrlen_C_ok.
  - intros text H. discriminate H.
  - constructor; [|constructor]. split; [plain_text|simpl; lia].
  - vm_compute. discriminate.
  - vm_compute. split; [discriminate|reflexivity].
Defined.
